(** * Health data consolidation and provider orchestration

    A shallow embedding of [healthDataService.ts] (class
    [HealthDataService]), [healthDataErrors.ts] and
    [healthProviderManager.ts] (class [HealthProviderManager]), with the
    properties of the consolidation engine and of the provider registry
    stated and proved over it.

    Conventions of the embedding:
    - a [Date] is its time value [getTime()], an integer number of
      milliseconds, so timestamps are [Z]; invalid dates (time value NaN)
      are outside the model;
    - a provider [priority] is an integer ([Z]), as in the three concrete
      providers (10, 10, 0);
    - the priority table [Record<string, number>] is a plain object: its
      own properties are a [gmap string Z], and a read also finds what the
      object inherits from [Object.prototype];
    - a JS [Map] or [Set] whose iteration order is observable is an
      insertion-ordered list;
    - a [Promise] that is awaited is the result it settles to: a value or
      a thrown error; an [async] function that is called and not awaited
      is split at its first [await]. *)

From Stdlib Require Import ZArith List Bool String Permutation Sorted.
From stdpp Require Import base option list gmap strings.

Open Scope Z_scope.

(** ** Data model ([healthData.types.ts]) *)

Inductive HealthMetric := sleep | illness | stress.

Inductive Severity := Sev0 | Sev1 | Sev2 | Sev3 | Sev4.

Inductive SleepStageType := awake | core | deep | rem | unspecified | inBed.

Inductive IllnessType := cough | diarrhea | headache | fatigue | fever | chills.

Record SleepStage := mkSleepStage {
  stage_type : SleepStageType;
  stage_start : Z;
  stage_end : Z
}.

(** The metric-specific fields of [SleepDataPoint], [IllnessDataPoint] and
    [StressDataPoint]. *)
Inductive PointDetail :=
  | SleepDetail (stages : list SleepStage)
  | IllnessDetail (type : IllnessType) (severity : Severity)
  | StressDetail (severity : Severity).

(** The fields shared by the three data point interfaces, which are the
    only ones the merge reads. *)
Record DataPoint := mkDataPoint {
  start : Z;
  end_ : Z;
  source : string;
  detail : PointDetail
}.

Inductive SampleType := quantity | category.

Record HealthMetricSample := mkSample {
  value : list DataPoint;
  type_ : SampleType;
  timestamp : Z
}.

#[global] Instance HealthMetric_eq_dec : EqDecision HealthMetric.
Proof. solve_decision. Defined.
#[global] Instance Severity_eq_dec : EqDecision Severity.
Proof. solve_decision. Defined.
#[global] Instance SleepStageType_eq_dec : EqDecision SleepStageType.
Proof. solve_decision. Defined.
#[global] Instance IllnessType_eq_dec : EqDecision IllnessType.
Proof. solve_decision. Defined.
#[global] Instance SleepStage_eq_dec : EqDecision SleepStage.
Proof. solve_decision. Defined.
#[global] Instance PointDetail_eq_dec : EqDecision PointDetail.
Proof. solve_decision. Defined.
#[global] Instance DataPoint_eq_dec : EqDecision DataPoint.
Proof. solve_decision. Defined.
#[global] Instance SampleType_eq_dec : EqDecision SampleType.
Proof. solve_decision. Defined.
#[global] Instance HealthMetricSample_eq_dec : EqDecision HealthMetricSample.
Proof. solve_decision. Defined.

(** ** Errors ([healthDataErrors.ts]) *)

(** The code list handed to [createTrackleError]; the source lists
    [DATA_FETCH_ERROR] twice. *)
Inductive HealthDataErrorCode :=
  | PROVIDER_NOT_FOUND
  | PROVIDER_INIT_FAILED
  | PERMISSION_DENIED
  | DATA_FETCH_ERROR
  | INVALID_METRIC
  | PROVIDER_UNAVAILABLE
  | SUBSCRIPTION_ERROR
  | CLEANUP_ERROR
  | POLLING_ERROR
  | PRIORITY_ERROR.

(** What a [throw] can carry: a [HealthDataError] (a [TrackleError]) with
    its code and message, or a plain [Error] with its message.  The [cause]
    field of a wrapped error is not modelled. *)
Inductive JsError :=
  | HealthDataError (code : HealthDataErrorCode) (message : string)
  | PlainError (message : string).

#[global] Instance HealthDataErrorCode_eq_dec : EqDecision HealthDataErrorCode.
Proof. solve_decision. Defined.
#[global] Instance JsError_eq_dec : EqDecision JsError.
Proof. solve_decision. Defined.

(** [TrackleError.isTrackleError] *)
Definition isTrackleError (e : JsError) : bool :=
  match e with
  | HealthDataError _ _ => true
  | PlainError _ => false
  end.

Definition error_message (e : JsError) : string :=
  match e with
  | HealthDataError _ m => m
  | PlainError m => m
  end.

(** A computation either returns or throws. *)
Inductive result (A : Type) :=
  | Ok (a : A)
  | Throw (e : JsError).
Arguments Ok {A} a.
Arguments Throw {A} e.

#[global] Instance result_ret : MRet result := fun _ a => Ok a.
#[global] Instance result_bind : MBind result := fun _ _ k r =>
  match r with
  | Ok a => k a
  | Throw e => Throw e
  end.

(** ** Array primitives *)

(** [Array.prototype.sort] with a comparator: stable since ES2019, so for a
    comparator that is a total preorder its result is the one of any stable
    sort; insertion sort is taken here.  [cmp a b > 0] moves [a] behind
    [b]. *)
Section Sort.
Context {A : Type} (cmp : A -> A -> Z).

Fixpoint sort_insert (x : A) (l : list A) : list A :=
  match l with
  | [] => [x]
  | y :: l' => if 0 <? cmp x y then y :: sort_insert x l' else x :: y :: l'
  end.

Fixpoint array_sort (l : list A) : list A :=
  match l with
  | [] => []
  | x :: l' => sort_insert x (array_sort l')
  end.
End Sort.

(** [Array.prototype.find]: the first element satisfying the predicate. *)
Fixpoint array_find {A} (f : A -> bool) (l : list A) : option A :=
  match l with
  | [] => None
  | x :: l' => if f x then Some x else array_find f l'
  end.

(** [Array.prototype.indexOf]: the first index holding the element, or none
    (JS: -1).  The array elements are objects and [===] compares
    references; an element found by [array_find] is in the array, and the
    first index holding the same reference is also the first index holding
    an equal value that satisfies the predicate, so comparing values yields
    the same index (lemma [indexOf_find]). *)
Fixpoint array_indexOf {A} `{EqDecision A} (x : A) (l : list A) : option nat :=
  match l with
  | [] => None
  | y :: l' => if decide (y = x) then Some 0%nat else S <$> array_indexOf x l'
  end.

(** [merged[index] = point] for an index returned by [indexOf]. An index in
    range overwrites the slot; [-1] would only set a non-index property and
    leave the elements as they are. *)
Definition array_set {A} (l : list A) (index : option nat) (x : A) : list A :=
  match index with
  | Some i => <[i := x]> l
  | None => l
  end.

(** ** [HealthDataService.mergeDataPoints] *)

(** The overlap test of the [find] callback. *)
Definition overlapsWith (point existing : DataPoint) : bool :=
  (start point <=? end_ existing) && (end_ point >=? start existing).

(** [{...point, start: new Date(point.start), end: new Date(point.end)}] *)
Definition withDateObjects (point : DataPoint) : DataPoint :=
  {| start := start point; end_ := end_ point;
     source := source point; detail := detail point |}.

(** [(a, b) => a.start.getTime() - b.start.getTime()] *)
Definition byStart (a b : DataPoint) : Z := start a - start b.

Definition priority_not_found : JsError :=
  HealthDataError PRIORITY_ERROR "Provider priority not found".

(** *** The priority table, a plain object

    The table is an object literal [{}] filled by
    [priorities[provider.id] = provider.priority]: its own properties are
    a [gmap string Z], and behind it stands [Object.prototype]. *)

(** What a read of the table can give besides [undefined]: a number, or
    an object inherited from [Object.prototype], kept as the string it
    converts to in a comparison. *)
Inductive JsValue :=
  | JsNumber (n : Z)
  | JsObject (text : string).

(** The text of a built-in function.  Engines differ in what follows the
    name; no comparison below depends on it, because none of the names is
    a prefix of another, so that two texts differ within the names. *)
Definition native (name : string) : string :=
  "function " +:+ name +:+ "() { [native code] }".

(** The properties of [Object.prototype] with the string each value
    converts to: the functions print under their name ([constructor] is
    [Object]); [__proto__] is an accessor and reads as [Object.prototype]
    itself. *)
Definition Object_prototype : list (string * string) :=
  [("constructor", native "Object");
   ("__defineGetter__", native "__defineGetter__");
   ("__defineSetter__", native "__defineSetter__");
   ("hasOwnProperty", native "hasOwnProperty");
   ("__lookupGetter__", native "__lookupGetter__");
   ("__lookupSetter__", native "__lookupSetter__");
   ("isPrototypeOf", native "isPrototypeOf");
   ("propertyIsEnumerable", native "propertyIsEnumerable");
   ("toString", native "toString");
   ("valueOf", native "valueOf");
   ("toLocaleString", native "toLocaleString");
   ("__proto__", "[object Object]")].

Definition inherited (key : string) : option string :=
  snd <$> List.find (fun member => bool_decide (member.1 = key)) Object_prototype.

(** [providerPriorities[key]]: the own property if there is one, else the
    inherited one, else [undefined] ([None]). *)
Definition readPriority (providerPriorities : gmap string Z) (key : string)
    : option JsValue :=
  match providerPriorities !! key with
  | Some n => Some (JsNumber n)
  | None => JsObject <$> inherited key
  end.

(** [priorities[key] = n]: the own property is created or overwritten,
    except under the key [__proto__], whose inherited setter ignores a
    number. *)
Definition writePriority (key : string) (n : Z) (priorities : gmap string Z)
    : gmap string Z :=
  if decide (key = "__proto__") then priorities else <[key := n]> priorities.

(** [currentPriority > existingPriority]: two numbers compare as numbers;
    two objects compare as the strings they convert to, code unit by code
    unit; an object against a number converts to [NaN], and a comparison
    with [NaN] is false. *)
Definition greater (currentPriority existingPriority : JsValue) : bool :=
  match currentPriority, existingPriority with
  | JsNumber x, JsNumber y => x >? y
  | JsObject s, JsObject t => String.ltb t s
  | _, _ => false
  end.

(** One iteration of [for (const point of sortedPoints)]. *)
Definition mergeStep (providerPriorities : gmap string Z)
    (merged : list DataPoint) (point : DataPoint) : result (list DataPoint) :=
  match array_find (overlapsWith point) merged with
  | None => Ok (merged ++ [point])
  | Some overlapping =>
      match readPriority providerPriorities (source point),
            readPriority providerPriorities (source overlapping) with
      | Some currentPriority, Some existingPriority =>
          if greater currentPriority existingPriority
          then Ok (array_set merged (array_indexOf overlapping merged) point)
          else Ok merged
      | _, _ => Throw priority_not_found
      end
  end.

Fixpoint mergeLoop (providerPriorities : gmap string Z)
    (sortedPoints merged : list DataPoint) : result (list DataPoint) :=
  match sortedPoints with
  | [] => Ok merged
  | point :: rest =>
      merged' ← mergeStep providerPriorities merged point;
      mergeLoop providerPriorities rest merged'
  end.

Definition mergeDataPoints (dataPoints : list DataPoint)
    (providerPriorities : gmap string Z) : result (list DataPoint) :=
  if (length dataPoints =? 0)%nat then Ok []
  else
    let pointsWithDateObjects := map withDateObjects dataPoints in
    let sortedPoints := array_sort byStart pointsWithDateObjects in
    mergeLoop providerPriorities sortedPoints [].

(** ** Providers, listeners and the manager state
    ([healthData.types.ts], [healthProviderManager.ts]) *)

Record HealthProviderConfig := mkConfig {
  polling_supported : bool;
  polling_minIntervalMs : Z;
  realtime_supported : bool
}.

(** The function returned by [onData]: what invoking it settles to. *)
Definition CleanupFn := result unit.

(** A provider is an external collaborator: its descriptor fields and, for
    each method, the outcome of a call. *)
Record HealthDataProvider := mkProvider {
  id : string;
  name : string;
  priority : Z;
  config : HealthProviderConfig;
  getSupportedMetrics : list HealthMetric;
  isAvailable : result bool;
  getData : HealthMetric -> Z -> Z -> result HealthMetricSample;
  onData : Z -> Z -> result CleanupFn;
  cleanUp : result unit
}.

(** A data callback: a function object (its identity is [lid]) and what a
    call [callback(metric, data)] does: return or throw. *)
Record Listener := mkListener {
  lid : nat;
  react : HealthMetric -> HealthMetricSample -> result unit
}.

(** Calls leaving the manager, in the order they are made. *)
Inductive Event :=
  | Delivered (listener : nat) (metric : HealthMetric) (data : HealthMetricSample)
  | OnDataCalled (providerId : string) (startDate endDate : Z)
  | CleanupFnInvoked (providerId : string)
  | IntervalCleared (key : string) (interval : nat)
  | CleanUpCalled (providerId : string).

(** The fields of [HealthProviderManager]; [enabledProviders] is what
    [this.store.get(ProviderState$).enabledProviders] reads, and [trace]
    records the outgoing calls. *)
Record Manager := mkManager {
  providers : list (string * HealthDataProvider);
  enabledProviders : list string;
  providerSubscriptions : list (string * CleanupFn);
  dataCallbacks : list Listener;
  pollingIntervals : list (string * nat);
  trace : list Event
}.

(** [Map.prototype.get], [has], [set] and [delete] on an insertion-ordered
    map: [set] on a present key keeps the entry's position. *)
Fixpoint map_get {V} (k : string) (m : list (string * V)) : option V :=
  match m with
  | [] => None
  | (k', v) :: m' => if decide (k' = k) then Some v else map_get k m'
  end.

Definition map_has {V} (k : string) (m : list (string * V)) : bool :=
  match map_get k m with Some _ => true | None => false end.

Fixpoint map_set {V} (k : string) (v : V) (m : list (string * V)) : list (string * V) :=
  match m with
  | [] => [(k, v)]
  | (k', v') :: m' =>
      if decide (k' = k) then (k, v) :: m' else (k', v') :: map_set k v m'
  end.

Definition map_delete {V} (k : string) (m : list (string * V)) : list (string * V) :=
  filter (fun kv => kv.1 <> k) m.

(** A method of the manager: it reads and updates the fields and returns or
    throws; what it changed before a throw stays changed. *)
Definition M (A : Type) : Type := Manager -> Manager * result A.

#[global] Instance M_ret : MRet M := fun _ a st => (st, Ok a).
#[global] Instance M_bind : MBind M := fun _ _ k m st =>
  match m st with
  | (st', Ok a) => k a st'
  | (st', Throw e) => (st', Throw e)
  end.

Definition throw {A} (e : JsError) : M A := fun st => (st, Throw e).
Definition settle {A} (r : result A) : M A := fun st => (st, r).
Definition gets {A} (f : Manager -> A) : M A := fun st => (st, Ok (f st)).
Definition modify (f : Manager -> Manager) : M unit := fun st => (f st, Ok tt).

(** [try { body } catch (error) { handler }] *)
Definition try_catch {A} (body : M A) (handler : JsError -> M A) : M A :=
  fun st =>
    match body st with
    | (st', Ok a) => (st', Ok a)
    | (st', Throw e) => handler e st'
    end.

(** [for (const x of xs) { body }] *)
Fixpoint for_of {A} (xs : list A) (body : A -> M unit) : M unit :=
  match xs with
  | [] => mret tt
  | x :: xs' => body x ;; for_of xs' body
  end.

Definition add_events (evs : list Event) (st : Manager) : Manager :=
  mkManager (providers st) (enabledProviders st)
    (providerSubscriptions st) (dataCallbacks st) (pollingIntervals st)
    (trace st ++ evs).

Definition emit (ev : Event) : M unit := modify (add_events [ev]).

Definition set_providers (f : list (string * HealthDataProvider) ->
    list (string * HealthDataProvider)) : M unit :=
  modify (fun st => mkManager (f (providers st)) (enabledProviders st)
    (providerSubscriptions st) (dataCallbacks st) (pollingIntervals st)
    (trace st)).

Definition set_providerSubscriptions (f : list (string * CleanupFn) ->
    list (string * CleanupFn)) : M unit :=
  modify (fun st => mkManager (providers st) (enabledProviders st)
    (f (providerSubscriptions st)) (dataCallbacks st) (pollingIntervals st)
    (trace st)).

Definition set_dataCallbacks (f : list Listener -> list Listener) : M unit :=
  modify (fun st => mkManager (providers st) (enabledProviders st)
    (providerSubscriptions st) (f (dataCallbacks st)) (pollingIntervals st)
    (trace st)).

Definition set_pollingIntervals (f : list (string * nat) -> list (string * nat)) : M unit :=
  modify (fun st => mkManager (providers st) (enabledProviders st)
    (providerSubscriptions st) (dataCallbacks st) (f (pollingIntervals st))
    (trace st)).

(** ** [HealthProviderManager] methods *)

(** [hasValidData]: [data.value] is an array here, so what is left of the
    test is [data.value.length > 0]. *)
Definition hasValidData (_metric : HealthMetric) (data : HealthMetricSample) : bool :=
  (0 <? length (value data))%nat.

(** [notifyCallbacks]: the loop body is the bare call; a callback that
    throws ends the loop.  Callbacks that subscribe or unsubscribe while
    being notified are outside the model. *)
Definition notifyCallbacks (metric : HealthMetric) (data : HealthMetricSample) : M unit :=
  callbacks ← gets dataCallbacks;
  for_of callbacks (fun callback =>
    emit (Delivered (lid callback) metric data) ;;
    settle (react callback metric data)).

(** The arrow function handed to [provider.onData] by
    [initializeProviderStream]: what a realtime push runs. *)
Definition streamCallback (metric : HealthMetric) (data : HealthMetricSample) : M unit :=
  notifyCallbacks metric data.

(** [initializeProviderStream]; [now] is the value of [new Date()]. *)
Definition initializeProviderStream (provider : HealthDataProvider)
    (startDate now : Z) : M unit :=
  try_catch
    (emit (OnDataCalled (id provider) startDate now) ;;
     cleanupFn ← settle (onData provider startDate now);
     set_providerSubscriptions (map_set (id provider) cleanupFn))
    (fun error =>
       if isTrackleError error then throw error
       else throw (HealthDataError SUBSCRIPTION_ERROR
              ("Failed to initialize data stream for provider " +:+ id provider))).

(** [registerProvider] *)
Definition registerProvider (provider : HealthDataProvider) (now : Z) : M unit :=
  available ← settle (isAvailable provider);
  if (available : bool) then
    registered ← gets (fun st => map_has (id provider) (providers st));
    if (registered : bool) then
      throw (PlainError ("Provider with id " +:+ id provider +:+ " is already registered"))
    else
      set_providers (map_set (id provider) provider) ;;
      if realtime_supported (config provider)
      then initializeProviderStream provider now now
      else mret tt
  else mret tt.

(** [stopPollingForProvider]: the loop runs over the entries; deleting the
    entry being visited does not disturb the iteration. *)
Definition stopPollingForProvider (providerId : string) : M unit :=
  entries ← gets pollingIntervals;
  for_of entries (fun '(key, interval) =>
    if String.prefix (providerId +:+ "-") key then
      emit (IntervalCleared key interval) ;;
      set_pollingIntervals (map_delete key)
    else mret tt).

(** [disableProvider] *)
Definition disableProvider (providerId : string) : M unit :=
  cleanup ← gets (fun st => map_get providerId (providerSubscriptions st));
  match cleanup with
  | Some cleanup =>
      try_catch
        (emit (CleanupFnInvoked providerId) ;;
         settle cleanup ;;
         set_providerSubscriptions (map_delete providerId))
        (fun error =>
           if isTrackleError error then throw error
           else throw (HealthDataError CLEANUP_ERROR
                  ("Failed to clean up provider " +:+ providerId)))
  | None => mret tt
  end ;;
  stopPollingForProvider providerId ;;
  provider ← gets (fun st => map_get providerId (providers st));
  match provider with
  | Some provider => emit (CleanUpCalled providerId) ;; settle (cleanUp provider)
  | None => mret tt
  end.

(** The task [pollData] that [startPollingForProvider] builds for one
    metric: one polling tick. *)
Definition pollData (provider : HealthDataProvider) (metric : HealthMetric)
    (startDate now : Z) : M unit :=
  try_catch
    (data ← settle (getData provider metric startDate now);
     if hasValidData metric data then notifyCallbacks metric data else mret tt)
    (fun error =>
       if isTrackleError error then throw error
       else throw (HealthDataError POLLING_ERROR
              ("Failed to poll data for provider " +:+ id provider))).

(** [cleanupAllSubscriptions]: every failure is wrapped, typed or not. *)
Definition cleanupAllSubscriptions : M unit :=
  try_catch
    (subscriptions ← gets providerSubscriptions;
     for_of subscriptions (fun '(providerId, cleanup) =>
       emit (CleanupFnInvoked providerId) ;;
       settle cleanup) ;;
     set_providerSubscriptions (fun _ => []))
    (fun _ =>
       throw (HealthDataError CLEANUP_ERROR "Failed to cleanup provider subscriptions")).

(** *** Calls that are not awaited

    [void this.cleanupAllSubscriptions()] starts the [async] function and
    goes on.  The function runs up to its first [await]; what is left of
    it is resumed from the microtask queue, after the synchronous code
    that called it has run to its end. *)

(** An [async] function at the moment its caller goes on: settled, or
    suspended with the rest it runs once it is resumed. *)
Inductive Started :=
  | Settled (outcome : result unit)
  | Suspended (rest : M unit).

(** [cleanupAllSubscriptions] resumed at the entry at a position of the
    map: the cleanup functions from there on are invoked, the map is
    cleared, and a failure is wrapped.  The iterator of a [Map] is live;
    it is followed by position, which is what it visits as long as no
    entry is deleted while the function is suspended.  The later
    [await]s, each of which suspends the function for one more turn of the
    microtask queue, are not told apart. *)
Definition cleanupAllSubscriptions_resumed (position : nat) : M unit :=
  try_catch
    (subscriptions ← gets providerSubscriptions;
     for_of (drop position subscriptions) (fun '(providerId, cleanup) =>
       emit (CleanupFnInvoked providerId) ;;
       settle cleanup) ;;
     set_providerSubscriptions (fun _ => []))
    (fun _ =>
       throw (HealthDataError CLEANUP_ERROR "Failed to cleanup provider subscriptions")).

(** The call [this.cleanupAllSubscriptions()] up to the first [await].
    With no entry in the map the loop body is not entered: the map is
    cleared and the function returns.  Otherwise the first cleanup
    function, a synchronous [() => void], is invoked: if it throws, the
    [catch] block rejects the promise at once; if it returns, [await]
    suspends the function. *)
Definition cleanupAllSubscriptions_called (st : Manager) : Manager * Started :=
  match providerSubscriptions st with
  | [] => ((set_providerSubscriptions (fun _ => []) st).1, Settled (Ok tt))
  | (providerId, cleanup) :: _ =>
      match cleanup with
      | Ok _ =>
          (add_events [CleanupFnInvoked providerId] st,
           Suspended (cleanupAllSubscriptions_resumed 1))
      | Throw _ =>
          (add_events [CleanupFnInvoked providerId] st,
           Settled (Throw (HealthDataError CLEANUP_ERROR
                             "Failed to cleanup provider subscriptions")))
      end
  end.

(** A started function run on from where it stands, with nothing of the
    manager running in between. *)
Definition resumed (call : Manager * Started) : Manager * result unit :=
  match call.2 with
  | Settled outcome => (call.1, outcome)
  | Suspended rest => rest call.1
  end.

(** [void call]: the caller goes on in the state the call has left at its
    first [await]; neither its outcome nor what it does once resumed
    reaches the caller. *)
Definition void (call : Manager -> Manager * Started) : M unit :=
  fun st => ((call st).1, Ok tt).

(** [subscribeToProviderUpdates]: [Set.prototype.add] appends a callback
    that is not in the set yet and leaves the set alone otherwise.  The
    function it returns is [unsubscribe]. *)
Definition subscribeToProviderUpdates (callback : Listener) : M unit :=
  set_dataCallbacks (fun callbacks =>
    if bool_decide (lid callback ∈ map lid callbacks) then callbacks
    else callbacks ++ [callback]).

(** The function returned by [subscribeToProviderUpdates]: with the last
    callback gone it starts the teardown and does not wait for it. *)
Definition unsubscribe (callback : Listener) : M unit :=
  set_dataCallbacks (filter (fun c => lid c <> lid callback)) ;;
  callbacks ← gets dataCallbacks;
  if (length callbacks =? 0)%nat
  then void cleanupAllSubscriptions_called
  else mret tt.

(** [getAllProviders] *)
Definition getAllProviders (st : Manager) : list HealthDataProvider :=
  map snd (providers st).

Definition includes {A} `{EqDecision A} (x : A) (l : list A) : bool :=
  bool_decide (x ∈ l).

(** [getProvidersForMetric] *)
Definition getProvidersForMetric (st : Manager) (metric : HealthMetric)
    : list HealthDataProvider :=
  array_sort (fun a b => priority b - priority a)
    (List.filter
       (fun provider =>
          includes metric (getSupportedMetrics provider) &&
          includes (id provider) (enabledProviders st))
       (map snd (providers st))).

(** ** [HealthDataService] *)

(** [HealthData]: an object with a metric as key. *)
Definition HealthData := list (HealthMetric * HealthMetricSample).

Fixpoint healthData_set (metric : HealthMetric) (s : HealthMetricSample)
    (h : HealthData) : HealthData :=
  match h with
  | [] => [(metric, s)]
  | (m, s') :: h' =>
      if decide (m = metric) then (metric, s) :: h'
      else (m, s') :: healthData_set metric s h'
  end.

(** The [reduce] that builds a priority table from a provider list. *)
Definition priorityTable (ps : list HealthDataProvider) : gmap string Z :=
  foldl (fun priorities provider =>
           writePriority (id provider) (priority provider) priorities)
        ∅ ps.

(** [getProviderPriorities] *)
Definition getProviderPriorities (st : Manager) : gmap string Z :=
  priorityTable (getAllProviders st).

(** [{...point, source: provider.id}] *)
Definition withSource (providerId : string) (point : DataPoint) : DataPoint :=
  {| start := start point; end_ := end_ point;
     source := providerId; detail := detail point |}.

(** The inner loop of [consolidateHealthMetrics]: collect the points of
    every provider. *)
Fixpoint collectDataPoints (ps : list HealthDataProvider) (metric : HealthMetric)
    (startDate endDate : Z) (allDataPoints : list DataPoint) : result (list DataPoint) :=
  match ps with
  | [] => Ok allDataPoints
  | provider :: ps' =>
      match getData provider metric startDate endDate with
      | Ok data =>
          collectDataPoints ps' metric startDate endDate
            (if hasValidData metric data
             then allDataPoints ++ map (withSource (id provider)) (value data)
             else allDataPoints)
      | Throw error =>
          if isTrackleError error then Throw error
          else Throw (HealthDataError DATA_FETCH_ERROR "Failed to fetch health data")
      end
  end.

(** The rest of the outer loop body, from [allDataPoints.sort] to the call
    of [mergeDataPoints]: the table is built from the providers the points
    were collected from. *)
Definition mergeCollected (ps : list HealthDataProvider)
    (allDataPoints : list DataPoint) : result (list DataPoint) :=
  let allDataPoints := array_sort byStart allDataPoints in
  let providerPriorities := priorityTable ps in
  mergeDataPoints allDataPoints providerPriorities.

(** The body of [for (const metric of metrics)]: the sample stored under
    the metric, if one is stored. *)
Definition consolidateMetric (st : Manager) (metric : HealthMetric)
    (startDate endDate now : Z) : result (option HealthMetricSample) :=
  let ps := getProvidersForMetric st metric in
  allDataPoints ← collectDataPoints ps metric startDate endDate [];
  mergedDataPoints ← mergeCollected ps allDataPoints;
  if (0 <? length mergedDataPoints)%nat
  then Ok (Some {| value := mergedDataPoints; type_ := category; timestamp := now |})
  else Ok None.

(** [consolidateHealthMetrics]; [now] stands for each [new Date()]. *)
Fixpoint consolidateLoop (st : Manager) (metrics : list HealthMetric)
    (startDate endDate now : Z) (result_ : HealthData) : result HealthData :=
  match metrics with
  | [] => Ok result_
  | metric :: metrics' =>
      stored ← consolidateMetric st metric startDate endDate now;
      consolidateLoop st metrics' startDate endDate now
        (match stored with
         | Some s => healthData_set metric s result_
         | None => result_
         end)
  end.

Definition consolidateHealthMetrics (st : Manager) (metrics : list HealthMetric)
    (startDate endDate now : Z) : result HealthData :=
  consolidateLoop st metrics startDate endDate now [].

Record SyncResult := mkSyncResult {
  sync_error : option string;
  sync_isLoading : bool;
  sync_healthData : HealthData;
  sync_lastSync : Z
}.

(** [syncHealthData] *)
Definition syncHealthData (st : Manager) (metrics : list HealthMetric)
    (lastSync now : Z) : SyncResult :=
  match consolidateHealthMetrics st metrics lastSync now now with
  | Ok data =>
      {| sync_error := None; sync_isLoading := false;
         sync_healthData := data; sync_lastSync := now |}
  | Throw error =>
      {| sync_error := Some (error_message error); sync_isLoading := false;
         sync_healthData := []; sync_lastSync := lastSync |}
  end.

(** [mergeMetricData]; [existing] is [None] for [undefined]. *)
Definition mergeMetricData (st : Manager) (existing : option HealthMetricSample)
    (newData : HealthMetricSample) (now : Z) : result HealthMetricSample :=
  match existing with
  | None => Ok newData
  | Some existing =>
      let providerPriorities := getProviderPriorities st in
      merged ← mergeDataPoints (value existing ++ value newData) providerPriorities;
      Ok {| value := merged; type_ := type_ newData; timestamp := now |}
  end.

(** ** Predicates used in the statements *)

(** No two entries of the list, at different positions, overlap. *)
Definition non_overlapping (l : list DataPoint) : Prop :=
  forall (i j : nat) (p e : DataPoint),
    i <> j -> l !! i = Some p -> l !! j = Some e -> overlapsWith p e = false.

(** Every source of the list has a priority in the table. *)
Definition sources_known (providerPriorities : gmap string Z) (l : list DataPoint) : Prop :=
  forall p, p ∈ l -> is_Some (providerPriorities !! source p).

(** The read of every source of the list gives a value, a number or an
    inherited object. *)
Definition sources_readable (providerPriorities : gmap string Z) (l : list DataPoint) : Prop :=
  forall p, p ∈ l -> is_Some (readPriority providerPriorities (source p)).

(** Ascending start times. *)
Definition start_le (a b : DataPoint) : Prop := start a <= start b.

(** An interval that does not end before it starts. *)
Definition well_formed (p : DataPoint) : Prop := start p <= end_ p.

(** Entries in ascending order of their start times, by position. *)
Definition ascending (l : list DataPoint) : Prop :=
  forall (i j : nat) (p e : DataPoint),
    (i < j)%nat -> l !! i = Some p -> l !! j = Some e -> start p <= start e.

(** The priority property read over every pair of an input: of two
    overlapping input points, the one whose source has the strictly greater
    priority is in the output. *)
Definition retains_higher_priority_of_every_pair
    (dataPoints : list DataPoint) (providerPriorities : gmap string Z) : Prop :=
  forall out p q pp pq,
    mergeDataPoints dataPoints providerPriorities = Ok out ->
    p ∈ dataPoints -> q ∈ dataPoints ->
    overlapsWith p q = true ->
    providerPriorities !! source p = Some pp ->
    providerPriorities !! source q = Some pq ->
    pq < pp ->
    p ∈ out.

(** Idempotence read over every input whose merge succeeds. *)
Definition idempotent_on
    (dataPoints : list DataPoint) (providerPriorities : gmap string Z) : Prop :=
  forall out,
    mergeDataPoints dataPoints providerPriorities = Ok out ->
    mergeDataPoints (out ++ out) providerPriorities = Ok out.

(** The sorted input of an idempotence check: each point twice in a row. *)
Fixpoint twice (l : list DataPoint) : list DataPoint :=
  match l with
  | [] => []
  | x :: l' => x :: x :: twice l'
  end.

(** ** Example data *)

Definition hours (n : Z) : Z := n * 3600000.

(** Scenario A: two providers report the same fever episode. *)
Definition table_AB : gmap string Z := <["A" := 10]> (<["B" := 0]> ∅).

Definition fever_A : DataPoint :=
  mkDataPoint (hours 0) (hours 8) "A" (IllnessDetail fever Sev2).
Definition fever_B : DataPoint :=
  mkDataPoint (hours 0) (hours 8) "B" (IllnessDetail fever Sev4).

(** Scenario B: two sleep sessions that touch at 04:00. *)
Definition sleep_A : DataPoint :=
  mkDataPoint (hours 0) (hours 4) "A" (SleepDetail []).
Definition sleep_B : DataPoint :=
  mkDataPoint (hours 4) (hours 8) "B" (SleepDetail []).

(** A chain of three stress episodes, each overlapping the next, from
    sources of rising priority. *)
Definition table_chain : gmap string Z :=
  <["low" := 1]> (<["mid" := 5]> (<["high" := 10]> ∅)).

Definition chain_low : DataPoint := mkDataPoint 0 10 "low" (StressDetail Sev1).
Definition chain_mid : DataPoint := mkDataPoint 5 20 "mid" (StressDetail Sev2).
Definition chain_high : DataPoint := mkDataPoint 15 30 "high" (StressDetail Sev3).

(** A point of a source that no table knows, as in the initial value of
    the health state ([source: 'test']). *)
Definition test_point : DataPoint := mkDataPoint 100 100 "test" (StressDetail Sev3).

(** An interval that ends before it starts, from a known source. *)
Definition backwards_point : DataPoint := mkDataPoint 10 5 "A" (StressDetail Sev1).

(** A point of an unknown source that touches [sleep_A] at 04:00, and a
    later point of a known source. *)
Definition sleep_unknown : DataPoint :=
  mkDataPoint (hours 4) (hours 8) "unknown" (SleepDetail []).
Definition sleep_later : DataPoint :=
  mkDataPoint (hours 20) (hours 22) "B" (SleepDetail []).

(** [subscribeToProviderUpdates] called for each callback of a list, in
    order. *)
Definition subscribeAll (callbacks : list Listener) (st : Manager) : Manager :=
  foldl (fun st callback => (subscribeToProviderUpdates callback st).1) st callbacks.

(** The call of a callback, as it appears in the trace. *)
Definition delivery (metric : HealthMetric) (data : HealthMetricSample)
    (callback : Listener) : Event :=
  Delivered (lid callback) metric data.

(** Delivery read as reaching every registered callback, whatever the
    callbacks do: the calls made by [notifyCallbacks] are one per callback,
    in the order of the set. *)
Definition delivers_to_every_listener (st : Manager) (metric : HealthMetric)
    (data : HealthMetricSample) : Prop :=
  trace (notifyCallbacks metric data st).1
    = trace st ++ map (delivery metric data) (dataCallbacks st).

(** Two callbacks: the first throws, the second returns. *)
Definition throwing_listener : Listener :=
  mkListener 1 (fun _ _ => Throw (PlainError "listener failed")).
Definition quiet_listener : Listener :=
  mkListener 2 (fun _ _ => Ok tt).

Definition empty_manager : Manager := mkManager [] [] [] [] [] [].

Definition two_listeners : Manager :=
  subscribeAll [throwing_listener; quiet_listener] empty_manager.

Definition one_sleep_sample : HealthMetricSample :=
  mkSample [sleep_A] category (hours 9).

(** ** Predicates and example states for the registry *)

(** The test of [stopPollingForProvider] on a timer entry:
    [key.startsWith(providerId + "-")]. *)
Definition timer_of (providerId : string) (entry : string * nat) : Prop :=
  String.prefix (providerId +:+ "-") entry.1 = true.

#[global] Instance timer_of_dec providerId entry : Decision (timer_of providerId entry).
Proof. unfold timer_of. apply _. Defined.

(** [clearInterval(interval)] for an entry, as it appears in the trace. *)
Definition cleared (entry : string * nat) : Event :=
  IntervalCleared entry.1 entry.2.

(** The manager once the timers of a provider are stopped: the matching
    entries are cleared in the order of the map and removed from it. *)
Definition stopped (providerId : string) (st : Manager) : Manager :=
  mkManager (providers st) (enabledProviders st) (providerSubscriptions st)
    (dataCallbacks st)
    (filter (fun entry => ~ timer_of providerId entry) (pollingIntervals st))
    (trace st ++ map cleared (filter (timer_of providerId) (pollingIntervals st))).

(** The manager once the stored cleanup function of a provider has been
    invoked and its entry deleted. *)
Definition released (providerId : string) (st : Manager) : Manager :=
  mkManager (providers st) (enabledProviders st)
    (map_delete providerId (providerSubscriptions st))
    (dataCallbacks st) (pollingIntervals st)
    (trace st ++ [CleanupFnInvoked providerId]).

(** Teardown read as best effort: although the stored cleanup function
    throws, the provider's [cleanUp] is called and none of its timers is
    left. *)
Definition disable_is_best_effort (st : Manager) (providerId : string) : Prop :=
  forall error,
    map_get providerId (providerSubscriptions st) = Some (Throw error) ->
    CleanUpCalled providerId ∈ trace (disableProvider providerId st).1 /\
    filter (timer_of providerId) (pollingIntervals (disableProvider providerId st).1) = [].

(** Registration of a duplicate read as failing with an error of the
    typed family ([HealthDataError]). *)
Definition duplicate_raises_typed_error (st : Manager)
    (provider : HealthDataProvider) (now : Z) : Prop :=
  isAvailable provider = Ok true ->
  map_has (id provider) (providers st) = true ->
  exists error,
    (registerProvider provider now st).2 = Throw error /\
    isTrackleError error = true.

(** Bulk consolidation read as sparing the other metrics: a metric whose
    own consolidation yields a sample is in the returned data even when
    another requested metric fails. *)
Definition failure_spares_other_metrics (st : Manager)
    (metrics : list HealthMetric) (startDate endDate now : Z) : Prop :=
  forall metric s,
    metric ∈ metrics ->
    consolidateMetric st metric startDate endDate now = Ok (Some s) ->
    exists data,
      consolidateHealthMetrics st metrics startDate endDate now = Ok data /\
      (metric, s) ∈ data.

(** Every point carries the id of a registered provider. *)
Definition sources_registered (st : Manager) (points : list DataPoint) : Prop :=
  forall p, p ∈ points ->
    exists provider, provider ∈ getAllProviders st /\ id provider = source p.

(** The points of a sample that may be absent. *)
Definition points_of (existing : option HealthMetricSample) : list DataPoint :=
  match existing with
  | Some s => value s
  | None => []
  end.

(** A provider with realtime and polling support that reports one sleep
    session. *)
Definition apple_like : HealthDataProvider :=
  mkProvider "apple-health" "Apple Health" 10 (mkConfig true 60000 true)
    [sleep; illness] (Ok true)
    (fun _ _ _ => Ok (mkSample [sleep_A] category (hours 9)))
    (fun _ _ => Ok (Ok tt))
    (Ok tt).

(** A polling-only provider whose sleep fetch works and whose other
    fetches fail with an untyped error. *)
Definition fitbit_like : HealthDataProvider :=
  mkProvider "fitbit" "Fitbit" 0 (mkConfig true 60000 false)
    [sleep; illness] (Ok true)
    (fun metric _ _ =>
       match metric with
       | sleep => Ok (mkSample [sleep_B] category (hours 9))
       | _ => Throw (PlainError "Network request failed")
       end)
    (fun _ _ => Ok (Ok tt))
    (Ok tt).

(** A provider that is not available on the device. *)
Definition absent_provider : HealthDataProvider :=
  mkProvider "google-health" "Google Health" 10 (mkConfig true 60000 false)
    [sleep; illness] (Ok false)
    (fun _ _ _ => Throw (HealthDataError DATA_FETCH_ERROR "not available"))
    (fun _ _ => Ok (Ok tt))
    (Ok tt).

(** The manager after [apple_like] has been registered at time 0. *)
Definition apple_registered : Manager :=
  (registerProvider apple_like 0 empty_manager).1.

(** A manager whose stored cleanup function for "apple-health" throws
    while a sleep timer of that provider is running. *)
Definition failing_teardown : Manager :=
  mkManager [("apple-health", apple_like)] ["apple-health"]
    [("apple-health", Throw (PlainError "unsubscribe failed"))]
    [] [("apple-health-sleep", 7%nat)] [].

(** A manager with a registered provider that has timers running for it
    and no realtime subscription. *)
Definition polling_only : Manager :=
  mkManager [("fitbit", fitbit_like)] ["fitbit"] [] []
    [("fitbit-sleep", 3%nat); ("apple-health-sleep", 7%nat); ("fitbit-illness", 4%nat)] [].

(** Both providers registered, only "apple-health" enabled. *)
Definition one_enabled : Manager :=
  mkManager [("apple-health", apple_like); ("fitbit", fitbit_like)]
    ["apple-health"] [] [quiet_listener] [] [].

(** A sample without points. *)
Definition empty_sample : HealthMetricSample := mkSample [] category (hours 9).

(** A stored sample of "apple-health" and an incoming one of "fitbit" that
    touches it. *)
Definition stored_apple : HealthMetricSample :=
  mkSample [mkDataPoint (hours 0) (hours 4) "apple-health" (SleepDetail [])]
    category (hours 9).
Definition incoming_fitbit : HealthMetricSample :=
  mkSample [mkDataPoint (hours 4) (hours 8) "fitbit" (SleepDetail [])]
    category (hours 10).

(** Only "fitbit" registered and enabled. *)
Definition fitbit_enabled : Manager :=
  mkManager [("fitbit", fitbit_like)] ["fitbit"] [] [quiet_listener] [] [].

(** A realtime provider whose fetch yields a sample without points. *)
Definition idle_provider : HealthDataProvider :=
  mkProvider "apple-health" "Apple Health" 10 (mkConfig true 60000 true)
    [sleep; illness] (Ok true)
    (fun _ _ _ => Ok empty_sample)
    (fun _ _ => Ok (Ok tt))
    (Ok tt).

(** A point has a rival among the points of a list: another point that
    overlaps it and whose source has at least its priority. *)
Definition outranked (providerPriorities : gmap string Z)
    (points : list DataPoint) (p : DataPoint) : Prop :=
  exists q pp pq,
    q ∈ points /\ q <> p /\ overlapsWith q p = true /\
    providerPriorities !! source p = Some pp /\
    providerPriorities !! source q = Some pq /\
    pp <= pq.

(** ** Enabling, polling and shutdown ([healthProviderManager.ts]) *)

(** A metric as the template literal [`${provider.id}-${metric}`] prints
    it. *)
Definition metric_name (metric : HealthMetric) : string :=
  match metric with
  | sleep => "sleep"
  | illness => "illness"
  | stress => "stress"
  end.

Definition set_enabledProviders (f : list string -> list string) : M unit :=
  modify (fun st => mkManager (providers st) (f (enabledProviders st))
    (providerSubscriptions st) (dataCallbacks st) (pollingIntervals st)
    (trace st)).

Section Enabling.
(** [HEALTH_METRICS] and [POLLING_INTERVAL] come from
    healthDataConstants.ts, which is not among the sources. *)
Context (HEALTH_METRICS : list HealthMetric) (POLLING_INTERVAL : Z).
(** The outcome of [provider.init()] and of
    [provider.requestPermissions(metrics)]. *)
Context (init : HealthDataProvider -> result unit).
Context (requestPermissions : HealthDataProvider -> list HealthMetric -> result unit).
(** The handle the runtime's [setInterval] returns, given the manager at
    the time of the call, the key the handle is stored under and the
    delay. *)
Context (setInterval : Manager -> string -> Z -> nat).

(** [startPollingForProvider].  The task [pollData] it schedules runs
    from the event loop after this call.  The first tick, started with
    [void pollData()], reaches its first [await] at the fetch, before it
    touches the manager: what it delivers, it delivers once resumed,
    after this call.  Each run is a [pollData] above and is not part of
    the call. *)
Definition startPollingForProvider (provider : HealthDataProvider)
    (startDate : Z) : M unit :=
  if negb (polling_supported (config provider)) then mret tt
  else
    stopPollingForProvider (id provider) ;;
    for_of (getSupportedMetrics provider) (fun metric =>
      st ← gets (fun st => st);
      let interval :=
        setInterval st (id provider +:+ "-" +:+ metric_name metric)
          (if POLLING_INTERVAL <? polling_minIntervalMs (config provider)
           then polling_minIntervalMs (config provider)
           else POLLING_INTERVAL) in
      set_pollingIntervals
        (map_set (id provider +:+ "-" +:+ metric_name metric) interval)).

(** [startPollingEnabledProviders] *)
Definition startPollingEnabledProviders (startDate : Z) : M unit :=
  enabled ← gets enabledProviders;
  for_of enabled (fun providerId =>
    provider ← gets (fun st => map_get providerId (providers st));
    match provider with
    | Some provider => startPollingForProvider provider startDate
    | None => mret tt
    end).

(** [enableProvider] *)
Definition enableProvider (providerId : string) (queryStartDate now : Z) : M unit :=
  provider ← gets (fun st => map_get providerId (providers st));
  match provider with
  | None =>
      throw (HealthDataError PROVIDER_NOT_FOUND
               ("Provider " +:+ providerId +:+ " not found"))
  | Some provider =>
      try_catch
        (settle (init provider) ;;
         settle (requestPermissions provider HEALTH_METRICS) ;;
         (if realtime_supported (config provider)
          then initializeProviderStream provider queryStartDate now
          else mret tt) ;;
         (if polling_supported (config provider)
          then startPollingForProvider provider queryStartDate
          else mret tt))
        (fun error =>
           if isTrackleError error then throw error
           else throw (HealthDataError PROVIDER_INIT_FAILED
                  ("Failed to initialize provider " +:+ providerId)))
  end.

(** [toggleProvider] of [useHealthProviderActions] (HealthProviderState.ts):
    the [error] field of the provider state is threaded next to the
    manager, whose [enabledProviders] is the other field; [startDate] is
    what [getStartDate()] returned. *)
Definition toggleProvider (provider : HealthDataProvider) (enabled : bool)
    (startDate now : Z) (st : Manager) (error : option string)
    : Manager * option string :=
  if enabled then
    match enableProvider (id provider) startDate now st with
    | (st', Ok _) =>
        ((set_enabledProviders (fun prev => prev ++ [id provider]) st').1, None)
    | (st', Throw e) =>
        if isTrackleError e then (st', Some (error_message e)) else (st', error)
    end
  else
    match disableProvider (id provider) st with
    | (st', Ok _) =>
        ((set_enabledProviders
            (filter (fun p => p <> id provider)) st').1, None)
    | (st', Throw e) =>
        if isTrackleError e then (st', Some (error_message e)) else (st', error)
    end.
End Enabling.

(** [finalize]: the teardown of the subscriptions is started and not
    waited for; the timers are cleared while it is suspended. *)
Definition finalize : M unit :=
  void cleanupAllSubscriptions_called ;;
  intervals ← gets pollingIntervals;
  for_of intervals (fun '(key, interval) => emit (IntervalCleared key interval)) ;;
  set_pollingIntervals (fun _ => []).

(** ** Predicates for the registry *)

(** The registry as a [Map] keyed by provider id: no key twice, and every
    entry stored under the id of its provider. *)
Definition registry_ok (st : Manager) : Prop :=
  NoDup (providers st).*1 /\
  forall k provider, (k, provider) ∈ providers st -> id provider = k.

(** A provider takes part in the bulk consolidation of a metric. *)
Definition eligible (st : Manager) (metric : HealthMetric)
    (provider : HealthDataProvider) : Prop :=
  metric ∈ getSupportedMetrics provider /\ id provider ∈ enabledProviders st.

#[global] Instance eligible_dec st metric provider : Decision (eligible st metric provider).
Proof. unfold eligible. apply _. Defined.

(** The call of a stored cleanup function, as it appears in the trace. *)
Definition cleanup_call (entry : string * CleanupFn) : Event :=
  CleanupFnInvoked entry.1.

(** The manager with other realtime subscriptions. *)
Definition with_subscriptions (subscriptions : list (string * CleanupFn))
    (st : Manager) : Manager :=
  mkManager (providers st) (enabledProviders st) subscriptions
    (dataCallbacks st) (pollingIntervals st) (trace st).

(** The manager with other data callbacks. *)
Definition with_callbacks (callbacks : list Listener) (st : Manager) : Manager :=
  mkManager (providers st) (enabledProviders st) (providerSubscriptions st)
    callbacks (pollingIntervals st) (trace st).

(** The manager with other polling timers. *)
Definition with_intervals (intervals : list (string * nat)) (st : Manager) : Manager :=
  mkManager (providers st) (enabledProviders st) (providerSubscriptions st)
    (dataCallbacks st) intervals (trace st).

(** A method leaves the provider map and the enabled set as they are,
    whether it returns or throws. *)
Definition preserves_registry {A} (m : M A) : Prop :=
  forall st,
    providers (m st).1 = providers st /\
    enabledProviders (m st).1 = enabledProviders st.

(** ** Sleep sessions of the Apple Health provider
    ([appleHealthProvider.ts]) *)

(** [MAX_GAP_MINUTES]: more than two hours between two stages start a new
    session. *)
Definition MAX_GAP_MINUTES : Z := 120.

(** [addSleepSession]: the session ends when its latest stage ends. *)
Definition addSleepSession (providerId : string) (sessions : list DataPoint)
    (stages : list SleepStage) (sessionStart : Z) : list DataPoint :=
  match stages with
  | [] => sessions
  | firstStage :: _ =>
      let sessionEnd :=
        foldl (fun latestEnd stage =>
                 if stage_end stage >? latestEnd then stage_end stage else latestEnd)
              (stage_end firstStage) stages in
      sessions ++ [{| start := sessionStart; end_ := sessionEnd;
                      source := providerId; detail := SleepDetail stages |}]
  end.

(** The loop of [createSleepSessions] from index 1 on: [previousStage] is
    [stages[i - 1]].  The source computes
    [gapMinutes = (start - end) / (1000 * 60)] on numbers and tests
    [gapMinutes <= 120]; for integer milliseconds that is
    [start - end <= 120 * (1000 * 60)], the quotient of 7200000 being
    exactly 120 and the division being monotone. *)
Fixpoint sessionsLoop (providerId : string) (rest : list SleepStage)
    (previousStage : SleepStage) (currentStages : list SleepStage)
    (sessionStart : Z) (sessions : list DataPoint) : list DataPoint :=
  match rest with
  | [] =>
      if (0 <? length currentStages)%nat
      then addSleepSession providerId sessions currentStages sessionStart
      else sessions
  | currentStage :: rest' =>
      if stage_start currentStage - stage_end previousStage
           <=? MAX_GAP_MINUTES * (1000 * 60)
      then sessionsLoop providerId rest' currentStage
             (currentStages ++ [currentStage]) sessionStart sessions
      else sessionsLoop providerId rest' currentStage
             [currentStage] (stage_start currentStage)
             (if (0 <? length currentStages)%nat
              then addSleepSession providerId sessions currentStages sessionStart
              else sessions)
  end.

(** [createSleepSessions] *)
Definition createSleepSessions (providerId : string) (stages : list SleepStage)
    : list DataPoint :=
  match stages with
  | [] => []
  | firstStage :: rest =>
      sessionsLoop providerId rest firstStage [firstStage]
        (stage_start firstStage) []
  end.

(** The stages of a sleep data point. *)
Definition session_stages (p : DataPoint) : list SleepStage :=
  match detail p with
  | SleepDetail stages => stages
  | _ => []
  end.

(** A session as [addSleepSession] builds it for a provider: it has
    stages, starts with its first stage, ends with the latest end among
    its stages and names the provider as source. *)
Definition session_of (providerId : string) (p : DataPoint) : Prop :=
  exists firstStage rest,
    detail p = SleepDetail (firstStage :: rest) /\
    start p = stage_start firstStage /\
    source p = providerId /\
    (forall stage, stage ∈ firstStage :: rest -> stage_end stage <= end_ p) /\
    (exists stage, stage ∈ firstStage :: rest /\ stage_end stage = end_ p).

(** Two stages that follow each other closely enough to belong to one
    session. *)
Definition close (a b : SleepStage) : Prop :=
  stage_start b - stage_end a <= MAX_GAP_MINUTES * (1000 * 60).

(** Consecutive stages of a list are close. *)
Fixpoint chained (stages : list SleepStage) : Prop :=
  match stages with
  | a :: (b :: _) as rest => close a b /\ chained rest
  | _ => True
  end.


(** Between two sessions that follow each other there is a gap: the first
    stage of the later one is not close to the last stage of the earlier
    one. *)
Definition gaps_between (sessions : list DataPoint) : Prop :=
  forall (i : nat) s t, sessions !! i = Some s -> sessions !! S i = Some t ->
    exists a b, last (session_stages s) = Some a /\
                head (session_stages t) = Some b /\ ~ close a b.

(** A table that knows only "A", a long sleep session of "A", and a
    session that overlaps it whose source is absent from the table and
    names a member of [Object.prototype]. *)
Definition table_A : gmap string Z := <["A" := 10]> ∅.

Definition long_sleep_A : DataPoint :=
  mkDataPoint (hours 0) (hours 10) "A" (SleepDetail []).

Definition inherited_point : DataPoint :=
  mkDataPoint (hours 5) (hours 15) "constructor" (SleepDetail []).

(** The comparison of the two merge paths read of the bulk path as the
    code runs it: there is a bulk consolidation in which every fetch
    returns its points and the merge of these points throws
    [PRIORITY_ERROR]. *)
Definition bulk_merge_can_miss_a_priority : Prop :=
  exists st metric startDate endDate now message,
    (forall provider, provider ∈ getProvidersForMetric st metric ->
       exists data, getData provider metric startDate endDate = Ok data) /\
    consolidateMetric st metric startDate endDate now
    = Throw (HealthDataError PRIORITY_ERROR message).

(** A manager with one callback, two realtime subscriptions whose cleanup
    functions return, and two polling timers. *)
Definition two_streams : Manager :=
  mkManager [("apple-health", apple_like)] ["apple-health"]
    [("apple-health", Ok tt); ("google-health", Ok tt)]
    [quiet_listener]
    [("apple-health-sleep", 1%nat); ("apple-health-illness", 2%nat)] [].

(* ================================================================= *)
(** * Properties *)

(** ** Array primitives *)

Lemma overlapsWith_true p e :
  overlapsWith p e = true <-> start p <= end_ e /\ start e <= end_ p.
Proof.
  unfold overlapsWith. rewrite andb_true_iff, Z.leb_le, Z.geb_le. tauto.
Qed.

Lemma overlapsWith_false p e :
  overlapsWith p e = false <-> end_ e < start p \/ end_ p < start e.
Proof.
  rewrite <- not_true_iff_false, overlapsWith_true. lia.
Qed.

Lemma overlapsWith_sym p e : overlapsWith p e = overlapsWith e p.
Proof.
  destruct (overlapsWith e p) eqn:E.
  - apply overlapsWith_true. apply overlapsWith_true in E. lia.
  - apply overlapsWith_false. apply overlapsWith_false in E. lia.
Qed.

Lemma withDateObjects_id p : withDateObjects p = p.
Proof. by destruct p. Qed.

Lemma map_withDateObjects l : map withDateObjects l = l.
Proof.
  induction l as [|p l IH]; simpl; [done|]. by rewrite withDateObjects_id, IH.
Qed.

Lemma array_find_None {A} (f : A -> bool) l :
  array_find f l = None <-> forall x, x ∈ l -> f x = false.
Proof.
  induction l as [|y l IH]; simpl.
  - split; [intros _ x Hx; inversion Hx | done].
  - destruct (f y) eqn:E.
    + split; [done|]. intros H. specialize (H y (list_elem_of_here _ _)). congruence.
    + rewrite IH. split.
      * intros H x Hx. apply elem_of_cons in Hx as [->|Hx]; auto.
      * intros H x Hx. apply H. by apply list_elem_of_further.
Qed.

(** [find] followed by [indexOf] of what it found: the index of the first
    element that satisfies the predicate. *)
Lemma indexOf_find {A} `{EqDecision A} (f : A -> bool) l x :
  array_find f l = Some x ->
  exists i, array_indexOf x l = Some i /\ l !! i = Some x /\ f x = true /\
            forall j y, (j < i)%nat -> l !! j = Some y -> f y = false.
Proof.
  induction l as [|y l IH]; simpl; [done|].
  destruct (f y) eqn:E.
  - intros [= ->]. exists 0%nat. rewrite decide_True by done.
    repeat split; auto. intros; lia.
  - intros Hfind. destruct (IH Hfind) as (i & Hi & Hl & Hf & Hfirst).
    exists (S i). rewrite decide_False by congruence. rewrite Hi.
    repeat split; auto.
    intros [|j] z Hj Hz; simpl in Hz.
    + congruence.
    + apply (Hfirst j); [lia | done].
Qed.

Section SortFacts.
Context {A : Type} (key : A -> Z).

Lemma sort_insert_perm x l :
  Permutation (x :: l) (sort_insert (fun a b => key a - key b) x l).
Proof.
  induction l as [|y l IH]; simpl; [done|].
  destruct (0 <? key x - key y); [|done].
  rewrite perm_swap. by constructor.
Qed.

Lemma array_sort_perm l : Permutation l (array_sort (fun a b => key a - key b) l).
Proof.
  induction l as [|x l IH]; simpl; [done|].
  rewrite <- sort_insert_perm. by constructor.
Qed.

Lemma sort_insert_sorted x l :
  StronglySorted (fun a b => key a <= key b) l ->
  StronglySorted (fun a b => key a <= key b)
    (sort_insert (fun a b => key a - key b) x l).
Proof.
  induction 1 as [|y l Hs IH Hall]; simpl.
  - repeat constructor.
  - destruct (0 <? key x - key y) eqn:E.
    + apply Z.ltb_lt in E. constructor; [done|].
      rewrite <- sort_insert_perm. constructor; [lia|done].
    + apply Z.ltb_ge in E. constructor; [by constructor|].
      constructor; [lia|].
      eapply Forall_impl; [exact Hall|]. simpl. intros; lia.
Qed.

Lemma array_sort_sorted l :
  StronglySorted (fun a b => key a <= key b)
    (array_sort (fun a b => key a - key b) l).
Proof.
  induction l as [|x l IH]; simpl; [constructor|]. by apply sort_insert_sorted.
Qed.
End SortFacts.

(** ** The merge loop *)

Lemma non_overlapping_nil : non_overlapping [].
Proof. intros i j p e _ H. by rewrite lookup_nil in H. Qed.

(** Appending a point that overlaps no entry. *)
Lemma non_overlapping_snoc merged point :
  non_overlapping merged ->
  (forall e, e ∈ merged -> overlapsWith point e = false) ->
  non_overlapping (merged ++ [point]).
Proof.
  intros Hno Hnone i j p e Hij Hi Hj.
  apply lookup_app_Some in Hi as [Hi|[Hli Hi]];
  apply lookup_app_Some in Hj as [Hj|[Hlj Hj]].
  - by apply (Hno i j).
  - apply list_lookup_singleton_Some in Hj as [_ <-].
    rewrite overlapsWith_sym. apply Hnone. by eapply list_elem_of_lookup_2.
  - apply list_lookup_singleton_Some in Hi as [_ <-].
    apply Hnone. by eapply list_elem_of_lookup_2.
  - apply list_lookup_singleton_Some in Hi as [Hi _].
    apply list_lookup_singleton_Some in Hj as [Hj _]. lia.
Qed.

(** Overwriting the entry a later point overlaps: the point cannot overlap
    any other entry, because that entry and the overwritten one are apart
    and both start no later than the point. *)
Lemma non_overlapping_insert merged k overlapping point :
  non_overlapping merged ->
  (forall e, e ∈ merged -> start e <= start point) ->
  merged !! k = Some overlapping ->
  overlapsWith point overlapping = true ->
  non_overlapping (<[k := point]> merged).
Proof.
  intros Hno Hstart Hk Hov i j p e Hij Hi Hj.
  apply overlapsWith_true in Hov.
  apply list_lookup_insert_Some in Hi as [(<- & <- & _)|[Hki Hi]];
  apply list_lookup_insert_Some in Hj as [(<- & <- & _)|[Hkj Hj]]; try done.
  - assert (H := Hno k j _ _ Hij Hk Hj). apply overlapsWith_false in H.
    assert (start e <= start point) by (apply Hstart; by eapply list_elem_of_lookup_2).
    assert (start overlapping <= start point)
      by (apply Hstart; by eapply list_elem_of_lookup_2).
    apply overlapsWith_false. lia.
  - assert (H := Hno k i _ _ Hki Hk Hi). apply overlapsWith_false in H.
    assert (start p <= start point) by (apply Hstart; by eapply list_elem_of_lookup_2).
    assert (start overlapping <= start point)
      by (apply Hstart; by eapply list_elem_of_lookup_2).
    apply overlapsWith_false. lia.
  - by apply (Hno i j).
Qed.

(** Reading an own property gives its number; a read gives a number only
    from an own property. *)
Lemma readPriority_own prios key n :
  prios !! key = Some n -> readPriority prios key = Some (JsNumber n).
Proof. unfold readPriority. by intros ->. Qed.

Lemma readPriority_number prios key n :
  readPriority prios key = Some (JsNumber n) -> prios !! key = Some n.
Proof.
  unfold readPriority. destruct (prios !! key) as [m|]; [by intros [= ->]|].
  by destruct (inherited key).
Qed.

(** A key that names no member of [Object.prototype] reads as its own
    property or as [undefined]. *)
Lemma readPriority_plain prios key v :
  inherited key = None ->
  readPriority prios key = Some v ->
  exists n, v = JsNumber n /\ prios !! key = Some n.
Proof.
  unfold readPriority. intros ->. destruct (prios !! key) as [m|]; [|done].
  intros [= <-]. by exists m.
Qed.

Lemma greater_numbers x y : greater (JsNumber x) (JsNumber y) = (x >? y).
Proof. done. Qed.

(** The three outcomes of one iteration that does not throw. *)
Lemma mergeStep_Ok prios merged point merged' :
  mergeStep prios merged point = Ok merged' ->
  (array_find (overlapsWith point) merged = None /\ merged' = merged ++ [point]) \/
  (exists k overlapping cur ex,
      merged !! k = Some overlapping /\
      overlapsWith point overlapping = true /\
      (forall j y, (j < k)%nat -> merged !! j = Some y -> overlapsWith point y = false) /\
      readPriority prios (source point) = Some cur /\
      readPriority prios (source overlapping) = Some ex /\
      ((greater cur ex = true /\ merged' = <[k := point]> merged) \/
       (greater cur ex = false /\ merged' = merged))).
Proof.
  unfold mergeStep. destruct (array_find _ merged) as [ov|] eqn:Hfind.
  - destruct (indexOf_find _ _ _ Hfind) as (k & Hidx & Hk & Hov & Hfirst).
    destruct (readPriority prios (source point)) as [cur|] eqn:Hcur; [|done].
    destruct (readPriority prios (source ov)) as [ex|] eqn:Hex; [|done].
    rewrite Hidx. simpl. intros H. right. exists k, ov, cur, ex.
    repeat split; auto.
    destruct (greater cur ex) eqn:E; injection H as <-; [by left|by right].
  - intros [= <-]. by left.
Qed.

Lemma mergeStep_invariant prios merged point merged' :
  non_overlapping merged ->
  (forall e, e ∈ merged -> start e <= start point) ->
  mergeStep prios merged point = Ok merged' ->
  non_overlapping merged' /\
  (forall e, e ∈ merged' -> e ∈ merged \/ e = point).
Proof.
  intros Hno Hstart Hstep.
  apply mergeStep_Ok in Hstep
    as [[Hnone ->]|(k & ov & cur & ex & Hk & Hov & _ & _ & _ & [[_ ->]|[_ ->]])].
  - split.
    + apply non_overlapping_snoc; [done|]. by apply array_find_None.
    + intros e He. apply elem_of_app in He as [He|He]; [by left|].
      right. by apply list_elem_of_singleton in He.
  - split.
    + by eapply non_overlapping_insert.
    + intros e He. apply list_elem_of_lookup in He as [i Hi].
      apply list_lookup_insert_Some in Hi as [(_ & <- & _)|[_ Hi]]; [by right|].
      left. by eapply list_elem_of_lookup_2.
  - split; [done|]. by left.
Qed.

Lemma mergeLoop_non_overlapping prios sortedPoints : forall merged out,
  StronglySorted start_le sortedPoints ->
  non_overlapping merged ->
  (forall e p, e ∈ merged -> p ∈ sortedPoints -> start e <= start p) ->
  mergeLoop prios sortedPoints merged = Ok out ->
  non_overlapping out.
Proof.
  induction sortedPoints as [|point rest IH]; intros merged out Hsorted Hno Hstart; simpl.
  - by intros [= <-].
  - apply StronglySorted_inv in Hsorted as [Hsorted Hall].
    destruct (mergeStep prios merged point) as [merged'|] eqn:Hstep; [|done].
    intros Hloop.
    destruct (mergeStep_invariant _ _ _ _ Hno
                (fun e He => Hstart e point He (list_elem_of_here _ _)) Hstep)
      as [Hno' Hfrom].
    apply (IH merged' out Hsorted Hno'); [|done].
    intros e p He Hp. destruct (Hfrom e He) as [He'| ->].
    + apply Hstart; [done|]. by apply list_elem_of_further.
    + rewrite Forall_forall in Hall. by apply Hall.
Qed.

(** When the read of every source gives a value, no iteration throws. *)
Lemma mergeStep_total prios merged point :
  sources_readable prios merged ->
  is_Some (readPriority prios (source point)) ->
  exists merged', mergeStep prios merged point = Ok merged' /\
                  sources_readable prios merged'.
Proof.
  intros Hknown [cur Hcur]. unfold mergeStep.
  destruct (array_find _ merged) as [ov|] eqn:Hfind.
  - destruct (indexOf_find _ _ _ Hfind) as (k & Hidx & Hk & _).
    destruct (Hknown ov) as [ex Hex]; [by eapply list_elem_of_lookup_2|].
    rewrite Hcur, Hex, Hidx.
    destruct (greater cur ex); eexists; (split; [done|]); [|done].
    intros p Hp. apply list_elem_of_lookup in Hp as [i Hi]. simpl in Hi.
    apply list_lookup_insert_Some in Hi as [(_ & <- & _)|[_ Hi]]; [by eexists|].
    apply Hknown. by eapply list_elem_of_lookup_2.
  - eexists; split; [done|]. intros p Hp.
    apply elem_of_app in Hp as [Hp|Hp]; [by apply Hknown|].
    apply list_elem_of_singleton in Hp as ->. by eexists.
Qed.

Lemma mergeLoop_readable prios sortedPoints : forall merged,
  sources_readable prios sortedPoints ->
  sources_readable prios merged ->
  exists out, mergeLoop prios sortedPoints merged = Ok out.
Proof.
  induction sortedPoints as [|point rest IH]; intros merged Hpts Hmerged; simpl.
  - by eexists.
  - destruct (mergeStep_total prios merged point Hmerged) as (merged' & -> & Hknown').
    { apply Hpts. apply list_elem_of_here. }
    simpl. apply IH; [|done]. intros p Hp. apply Hpts. by apply list_elem_of_further.
Qed.

Lemma sources_known_readable prios points :
  sources_known prios points -> sources_readable prios points.
Proof.
  intros Hknown p Hp. destruct (Hknown p Hp) as [n Hn].
  rewrite (readPriority_own _ _ _ Hn). by eexists.
Qed.

Lemma mergeLoop_total prios sortedPoints merged :
  sources_known prios sortedPoints ->
  sources_known prios merged ->
  exists out, mergeLoop prios sortedPoints merged = Ok out.
Proof.
  intros Hpts Hmerged. apply mergeLoop_readable; by apply sources_known_readable.
Qed.

Lemma mergeDataPoints_unfold dataPoints prios :
  mergeDataPoints dataPoints prios = mergeLoop prios (array_sort byStart dataPoints) [].
Proof.
  unfold mergeDataPoints. rewrite map_withDateObjects.
  destruct dataPoints; done.
Qed.

(** C1. For every collection of data points and every priority table that
    has an entry for each of their sources, [mergeDataPoints] returns a
    list, and no two entries of that list overlap, where two points overlap
    when each starts no later than the other ends (touching end points
    overlap). *)
Theorem mergeDataPoints_non_overlapping dataPoints providerPriorities :
  sources_known providerPriorities dataPoints ->
  exists out,
    mergeDataPoints dataPoints providerPriorities = Ok out /\
    forall (i j : nat) (p e : DataPoint),
      i <> j -> out !! i = Some p -> out !! j = Some e ->
      ~ (start p <= end_ e /\ end_ p >= start e).
Proof.
  intros Hknown. rewrite mergeDataPoints_unfold.
  destruct (mergeLoop_total providerPriorities (array_sort byStart dataPoints) [])
    as [out Hout].
  - intros p Hp. apply Hknown. apply list_elem_of_In.
    eapply Permutation_in; [symmetry; apply (array_sort_perm start)|].
    by apply list_elem_of_In.
  - intros p Hp. inversion Hp.
  - exists out. split; [done|]. intros i j p e Hij Hi Hj [H1 H2].
    assert (Hno : non_overlapping out).
    { eapply mergeLoop_non_overlapping; [apply (array_sort_sorted start)| | |exact Hout].
      - apply non_overlapping_nil.
      - intros e' p' He'. inversion He'. }
    specialize (Hno i j p e Hij Hi Hj). apply overlapsWith_false in Hno. lia.
Qed.

Lemma mergeDataPoints_non_overlapping_witness :
  sources_known table_AB [sleep_A; sleep_B] /\
  exists out,
    mergeDataPoints [sleep_A; sleep_B] table_AB = Ok out /\
    forall (i j : nat) (p e : DataPoint),
      i <> j -> out !! i = Some p -> out !! j = Some e ->
      ~ (start p <= end_ e /\ end_ p >= start e).
Proof.
  assert (H : sources_known table_AB [sleep_A; sleep_B]).
  { intros p Hp. apply elem_of_cons in Hp as [->|Hp]; [by eexists|].
    apply list_elem_of_singleton in Hp as ->. by eexists. }
  split; [exact H|].
  exact (mergeDataPoints_non_overlapping [sleep_A; sleep_B] table_AB H).
Defined.

(** Every entry of the output is an input point or was in the list the
    loop started from. *)
Lemma mergeLoop_elem_of prios sortedPoints : forall merged out,
  mergeLoop prios sortedPoints merged = Ok out ->
  forall e, e ∈ out -> e ∈ merged \/ e ∈ sortedPoints.
Proof.
  induction sortedPoints as [|point rest IH]; intros merged out; simpl.
  - intros [= <-] e He. by left.
  - destruct (mergeStep prios merged point) as [merged'|] eqn:Hstep; [|done].
    simpl. intros Hloop e He.
    destruct (IH _ _ Hloop e He) as [He'|He'].
    + assert (Hfrom : e ∈ merged \/ e = point).
      { apply mergeStep_Ok in Hstep
          as [[_ ->]|(k & ov & cur & ex & _ & _ & _ & _ & _ & [[_ ->]|[_ ->]])].
        - apply elem_of_app in He' as [?|He']; [by left|].
          right. by apply list_elem_of_singleton in He'.
        - apply list_elem_of_lookup in He' as [i Hi].
          apply list_lookup_insert_Some in Hi as [(_ & <- & _)|[_ Hi]]; [by right|].
          left. by eapply list_elem_of_lookup_2.
        - by left. }
      destruct Hfrom as [?| ->]; [by left|]. right. apply list_elem_of_here.
    + right. by apply list_elem_of_further.
Qed.

(** ** Priority of a pair *)

Lemma mergeLoop_app prios l1 : forall l2 merged,
  mergeLoop prios (l1 ++ l2) merged =
  (merged' ← mergeLoop prios l1 merged; mergeLoop prios l2 merged').
Proof.
  induction l1 as [|p l1 IH]; intros l2 merged; simpl; [done|].
  destruct (mergeStep prios merged p); simpl; [apply IH | done].
Qed.

(** Where a point lands in a sorted list: behind the points that start
    earlier, before those that start at the same time or later. *)
Lemma sort_insert_split (p : DataPoint) l :
  StronglySorted start_le l ->
  exists l1 l2,
    sort_insert byStart p l = l1 ++ p :: l2 /\
    l = l1 ++ l2 /\
    (forall y, y ∈ l1 -> start y < start p) /\
    (forall y, y ∈ l2 -> start p <= start y).
Proof.
  induction 1 as [|y l Hs IH Hall]; simpl.
  - exists [], []. repeat split; try done; intros y Hy; inversion Hy.
  - unfold byStart at 1. destruct (0 <? start p - start y) eqn:E.
    + apply Z.ltb_lt in E. destruct IH as (l1 & l2 & -> & -> & H1 & H2).
      exists (y :: l1), l2. repeat split; try done.
      intros z Hz. apply elem_of_cons in Hz as [->|Hz]; [lia|by apply H1].
    + apply Z.ltb_ge in E. exists [], (y :: l). repeat split; try done.
      * intros z Hz. inversion Hz.
      * intros z Hz. apply elem_of_cons in Hz as [->|Hz]; [lia|].
        rewrite Forall_forall in Hall. specialize (Hall z Hz).
        unfold start_le in Hall. lia.
Qed.

Lemma sorted_before_middle (l1 : list DataPoint) p l2 :
  StronglySorted start_le (l1 ++ p :: l2) ->
  forall q, q ∈ l1 -> start q <= start p.
Proof.
  induction l1 as [|y l1 IH]; simpl; intros Hsorted q Hq; [inversion Hq|].
  apply StronglySorted_inv in Hsorted as [Hsorted Hall].
  apply elem_of_cons in Hq as [->|Hq]; [|by apply IH].
  rewrite Forall_forall in Hall. apply (Hall p).
  apply elem_of_app. right. apply list_elem_of_here.
Qed.

(** Inserting into a list around a point: the new point lands before the
    point, or passes it because it starts later. *)
Lemma sort_insert_middle (x p : DataPoint) l2 : forall l1,
  sort_insert byStart x (l1 ++ p :: l2) = sort_insert byStart x l1 ++ p :: l2 \/
  (start p < start x /\
   sort_insert byStart x (l1 ++ p :: l2) = l1 ++ p :: sort_insert byStart x l2).
Proof.
  induction l1 as [|y l1 IH]; simpl.
  - unfold byStart at 1 3. destruct (0 <? start x - start p) eqn:E.
    + right. apply Z.ltb_lt in E. split; [lia|done].
    + by left.
  - destruct (0 <? byStart x y).
    + destruct IH as [->|[Hlt ->]]; [by left|by right].
    + by left.
Qed.

(** The sort is stable: around an input point, the sorted list has before
    it the points that start earlier and those before it in the input that
    start at the same time, and behind it the others. *)
Lemma array_sort_around (p : DataPoint) after : forall before,
  exists l1 l2,
    array_sort byStart (before ++ p :: after) = l1 ++ p :: l2 /\
    (forall q, q ∈ l1 ->
       (q ∈ before /\ start q <= start p) \/ (q ∈ after /\ start q < start p)) /\
    (forall q, q ∈ l2 ->
       (q ∈ before /\ start p < start q) \/ (q ∈ after /\ start p <= start q)).
Proof.
  induction before as [|x before IH]; simpl.
  - destruct (sort_insert_split p (array_sort byStart after))
      as (l1 & l2 & -> & Hsplit & H1 & H2); [apply (array_sort_sorted start)|].
    assert (Hin : forall q, q ∈ l1 ++ l2 -> q ∈ after).
    { intros q Hq. rewrite <- Hsplit in Hq.
      by rewrite <- (array_sort_perm start) in Hq. }
    exists l1, l2. split; [done|]. split; intros q Hq; right.
    + split; [|by apply H1]. apply Hin, elem_of_app. by left.
    + split; [|by apply H2]. apply Hin, elem_of_app. by right.
  - destruct IH as (l1 & l2 & Hsort & H1 & H2).
    assert (Hsorted : StronglySorted start_le
                        (array_sort byStart (x :: before ++ p :: after)))
      by apply (array_sort_sorted start).
    simpl in Hsorted. rewrite Hsort in Hsorted |- *.
    destruct (sort_insert_middle x p l2 l1) as [Hleft|[Hlt Hright]].
    + rewrite Hleft in Hsorted |- *.
      exists (sort_insert byStart x l1), l2. split; [done|]. split.
      * intros q Hq.
        assert (Hle : start q <= start p)
          by (by apply (sorted_before_middle _ _ _ Hsorted)).
        rewrite <- (sort_insert_perm start) in Hq.
        apply elem_of_cons in Hq as [->|Hq].
        -- left. split; [apply list_elem_of_here|done].
        -- destruct (H1 q Hq) as [[Hb ?]|[Ha ?]]; [left|right]; split; try done.
           by apply list_elem_of_further.
      * intros q Hq. destruct (H2 q Hq) as [[Hb ?]|[Ha ?]]; [left|right]; split; try done.
        by apply list_elem_of_further.
    + rewrite Hright. exists l1, (sort_insert byStart x l2). split; [done|]. split.
      * intros q Hq. destruct (H1 q Hq) as [[Hb ?]|[Ha ?]]; [left|right]; split; try done.
        by apply list_elem_of_further.
      * intros q Hq. rewrite <- (sort_insert_perm start) in Hq.
        apply elem_of_cons in Hq as [->|Hq].
        -- left. split; [apply list_elem_of_here|done].
        -- destruct (H2 q Hq) as [[Hb ?]|[Ha ?]]; [left|right]; split; try done.
           by apply list_elem_of_further.
Qed.

(** A point that outranks every entry it overlaps is in the list after its
    own iteration. *)
Lemma mergeStep_enters prios merged p pp merged' :
  prios !! source p = Some pp ->
  (forall e, e ∈ merged -> e <> p -> overlapsWith p e = true ->
     exists pe, prios !! source e = Some pe /\ pe < pp) ->
  mergeStep prios merged p = Ok merged' ->
  p ∈ merged'.
Proof.
  intros Hpp Hrank Hstep.
  apply mergeStep_Ok in Hstep
    as [[_ ->]|(k & ov & cur & ex & Hk & Hov & _ & Hcur & Hex & [[_ ->]|[Hkeep ->]])].
  - apply elem_of_app. right. apply list_elem_of_here.
  - apply list_elem_of_lookup. exists k.
    apply list_lookup_insert_eq. by eapply lookup_lt_Some.
  - destruct (decide (ov = p)) as [->|Hne]; [by eapply list_elem_of_lookup_2|].
    destruct (Hrank ov) as (pe & Hpe & Hlt); [by eapply list_elem_of_lookup_2|done..|].
    rewrite (readPriority_own _ _ _ Hpp) in Hcur. injection Hcur as <-.
    rewrite (readPriority_own _ _ _ Hpe) in Hex. injection Hex as <-.
    rewrite greater_numbers in Hkeep.
    rewrite Z.gtb_ltb in Hkeep. apply Z.ltb_ge in Hkeep. lia.
Qed.

(** An entry stays in the list as long as no later point that overlaps it
    has a greater priority. *)
Lemma mergeLoop_keeps prios p pp rest : forall merged out,
  prios !! source p = Some pp ->
  (forall q, q ∈ rest -> overlapsWith q p = true ->
     exists pq, prios !! source q = Some pq /\ pq <= pp) ->
  p ∈ merged ->
  mergeLoop prios rest merged = Ok out ->
  p ∈ out.
Proof.
  induction rest as [|q rest IH]; intros merged out Hpp Hrank Hin; simpl.
  - by intros [= <-].
  - destruct (mergeStep prios merged q) as [merged'|] eqn:Hstep; [|done].
    simpl. apply IH; [done| |].
    { intros q' Hq'. apply Hrank. by apply list_elem_of_further. }
    apply mergeStep_Ok in Hstep
      as [[_ ->]|(k & ov & cur & ex & Hk & Hov & _ & Hcur & Hex & [[Hgt ->]|[_ ->]])];
      [apply elem_of_app; by left| |done].
    destruct (decide (ov = p)) as [->|Hne].
    + destruct (Hrank q) as (pq & Hpq & Hle); [apply list_elem_of_here|done|].
      rewrite (readPriority_own _ _ _ Hpq) in Hcur. injection Hcur as <-.
      rewrite (readPriority_own _ _ _ Hpp) in Hex. injection Hex as <-.
      rewrite greater_numbers in Hgt. apply Z.gtb_lt in Hgt. lia.
    + apply list_elem_of_lookup in Hin as [i Hi].
      apply list_elem_of_lookup. exists i.
      rewrite list_lookup_insert_ne; [done|]. intros ->. congruence.
Qed.

(** C2 (as amended). For an input whose sources all have a priority and a
    point of it: when every other input point that overlaps the point has
    a source of strictly lower priority, or of equal priority while the
    point is visited first (it starts earlier, or at the same time and
    comes earlier in the collection), the output retains the point and
    holds no other point that overlaps it.  Two well-formed intervals one
    of which ends exactly when the other starts count as overlapping, so
    only one of them is kept. *)
Theorem mergeDataPoints_pair_priority before p after providerPriorities pp :
  sources_known providerPriorities (before ++ p :: after) ->
  providerPriorities !! source p = Some pp ->
  (forall q pq, q ∈ before -> q <> p -> overlapsWith q p = true ->
     providerPriorities !! source q = Some pq ->
     pq < pp \/ (pq = pp /\ start p < start q)) ->
  (forall q pq, q ∈ after -> q <> p -> overlapsWith q p = true ->
     providerPriorities !! source q = Some pq ->
     pq < pp \/ (pq = pp /\ start p <= start q)) ->
  exists out,
    mergeDataPoints (before ++ p :: after) providerPriorities = Ok out /\
    p ∈ out /\
    (forall q, q <> p -> overlapsWith q p = true -> q ∉ out) /\
    (forall q, q <> p -> well_formed p -> well_formed q ->
       end_ p = start q \/ end_ q = start p -> q ∉ out).
Proof.
  intros Hknown Hpp Hbefore Hafter.
  set (dataPoints := before ++ p :: after) in *.
  assert (Hperm : Permutation dataPoints (array_sort byStart dataPoints))
    by apply (array_sort_perm start).
  assert (Hsorted : StronglySorted start_le (array_sort byStart dataPoints))
    by apply (array_sort_sorted start).
  destruct (mergeLoop_total providerPriorities (array_sort byStart dataPoints) [])
    as [out Hout].
  { intros q Hq. apply Hknown. by rewrite Hperm. }
  { intros q Hq. inversion Hq. }
  assert (Hno : non_overlapping out).
  { eapply mergeLoop_non_overlapping;
      [exact Hsorted|apply non_overlapping_nil| |exact Hout].
    intros e q He. inversion He. }
  assert (Hp : p ∈ out).
  { destruct (array_sort_around p after before) as (l1 & l2 & Hsort & H1 & H2).
    fold dataPoints in Hsort. rewrite Hsort in Hout, Hperm.
    rewrite mergeLoop_app in Hout.
    destruct (mergeLoop providerPriorities l1 []) as [merged|] eqn:Hl1; [|done].
    simpl in Hout.
    destruct (mergeStep providerPriorities merged p) as [merged'|] eqn:Hstep; [|done].
    simpl in Hout.
    assert (Hrank : forall q, q ∈ l1 ++ p :: l2 -> q <> p -> overlapsWith q p = true ->
              exists pq, providerPriorities !! source q = Some pq /\
                (q ∈ l1 -> pq < pp) /\ pq <= pp).
    { intros q Hq Hne Hov.
      destruct (Hknown q) as [pq Hpq]; [by rewrite Hperm|].
      exists pq. split; [done|]. split.
      - intros Hl1q. destruct (H1 q Hl1q) as [[Hb Hle]|[Ha Hlt]].
        + destruct (Hbefore q pq Hb Hne Hov Hpq) as [?|[_ ?]]; lia.
        + destruct (Hafter q pq Ha Hne Hov Hpq) as [?|[_ ?]]; lia.
      - apply elem_of_app in Hq as [Hq|Hq].
        + destruct (H1 q Hq) as [[Hb Hle]|[Ha Hlt]].
          * destruct (Hbefore q pq Hb Hne Hov Hpq) as [?|[? _]]; lia.
          * destruct (Hafter q pq Ha Hne Hov Hpq) as [?|[? _]]; lia.
        + apply elem_of_cons in Hq as [->|Hq]; [done|].
          destruct (H2 q Hq) as [[Hb Hlt]|[Ha Hle]].
          * destruct (Hbefore q pq Hb Hne Hov Hpq) as [?|[? _]]; lia.
          * destruct (Hafter q pq Ha Hne Hov Hpq) as [?|[? _]]; lia. }
    apply (mergeLoop_keeps providerPriorities p pp l2 merged' out); [done| |
      |done].
    - intros q Hq Hov. destruct (decide (q = p)) as [->|Hne]; [by exists pp|].
      destruct (Hrank q) as (pq & Hpq & _ & Hle); [|done..|by exists pq].
      apply elem_of_app. right. by apply list_elem_of_further.
    - apply (mergeStep_enters providerPriorities merged p pp); [done| |done].
      intros e He Hne Hov.
      assert (Hel1 : e ∈ l1).
      { destruct (mergeLoop_elem_of _ _ _ _ Hl1 e He) as [H|H]; [inversion H|done]. }
      destruct (Hrank e) as (pe & Hpe & Hlt & _).
      + apply elem_of_app. by left.
      + done.
      + by rewrite overlapsWith_sym.
      + exists pe. split; [done|by apply Hlt]. }
  assert (Hrivals : forall q, q <> p -> overlapsWith q p = true -> q ∉ out).
  { intros q Hne Hov Hq.
    apply list_elem_of_lookup in Hq as [i Hi].
    apply list_elem_of_lookup in Hp as [j Hj].
    assert (Hij : i <> j) by (intros ->; congruence).
    specialize (Hno i j q p Hij Hi Hj). congruence. }
  exists out. rewrite mergeDataPoints_unfold. repeat split; try done.
  intros q Hne Hwp Hwq Htouch. apply Hrivals; [done|].
  apply overlapsWith_true. unfold well_formed in *. lia.
Qed.

Lemma mergeDataPoints_pair_priority_witness :
  exists out,
    mergeDataPoints ([chain_low; chain_mid] ++ chain_high :: []) table_chain = Ok out /\
    chain_high ∈ out /\
    (forall q, q <> chain_high -> overlapsWith q chain_high = true -> q ∉ out) /\
    (forall q, q <> chain_high -> well_formed chain_high -> well_formed q ->
       end_ chain_high = start q \/ end_ q = start chain_high -> q ∉ out).
Proof.
  apply (mergeDataPoints_pair_priority [chain_low; chain_mid] chain_high []
           table_chain 10).
  - intros q Hq. apply elem_of_cons in Hq as [->|Hq]; [by eexists|].
    apply elem_of_cons in Hq as [->|Hq]; [by eexists|].
    apply list_elem_of_singleton in Hq as ->. by eexists.
  - reflexivity.
  - intros q pq Hq _ Hov Hpq. left.
    apply elem_of_cons in Hq as [->|Hq]; [discriminate Hov|].
    apply list_elem_of_singleton in Hq as ->.
    vm_compute in Hpq. injection Hpq as <-. lia.
  - intros q pq Hq. inversion Hq.
Defined.

(** In a chain of three points the middle one beats the first and is then
    itself replaced: of the overlapping pair (low, mid) the output holds
    neither. *)
Lemma retains_higher_priority_counterexample :
  ~ retains_higher_priority_of_every_pair
      [chain_low; chain_mid; chain_high] table_chain.
Proof.
  intros H.
  assert (Hin : chain_mid ∈ [chain_high]).
  { apply (H [chain_high] chain_mid chain_low 5 1); try reflexivity; try lia.
    - apply list_elem_of_further, list_elem_of_here.
    - apply list_elem_of_here. }
  apply list_elem_of_singleton in Hin. discriminate Hin.
Qed.

(** ** Idempotence *)


Lemma ascending_StronglySorted l : ascending l -> StronglySorted start_le l.
Proof.
  induction l as [|x l IH]; intros Hasc; constructor.
  - apply IH. intros i j p e Hij Hi Hj. apply (Hasc (S i) (S j)); [lia|done..].
  - apply Forall_forall. intros y Hy. apply list_elem_of_lookup in Hy as [j Hj].
    apply (Hasc 0%nat (S j)); [lia|done..].
Qed.

(** For well-formed intervals the loop keeps its list in ascending order:
    an overwritten entry is followed by entries that start after it ends. *)
Lemma mergeStep_ascending prios merged point merged' :
  Forall well_formed merged ->
  non_overlapping merged ->
  ascending merged ->
  (forall e, e ∈ merged -> start e <= start point) ->
  mergeStep prios merged point = Ok merged' ->
  ascending merged'.
Proof.
  intros Hwf Hno Hasc Hstart Hstep.
  rewrite Forall_forall in Hwf.
  apply mergeStep_Ok in Hstep
    as [[_ ->]|(k & ov & cur & ex & Hk & Hov & _ & _ & _ & [[_ ->]|[_ ->]])];
    [| |done].
  - intros i j p e Hij Hi Hj.
    apply lookup_app_Some in Hj as [Hj|[Hlj Hj]].
    + apply lookup_lt_Some in Hj as Hlt.
      rewrite lookup_app_l in Hi by lia. by apply (Hasc i j).
    + apply list_lookup_singleton_Some in Hj as [_ <-].
      apply lookup_app_Some in Hi as [Hi|[Hli Hi]].
      * apply Hstart. by eapply list_elem_of_lookup_2.
      * apply list_lookup_singleton_Some in Hi as [_ <-]. lia.
  - apply overlapsWith_true in Hov.
    intros i j p e Hij Hi Hj.
    apply list_lookup_insert_Some in Hi as [(<- & <- & _)|[Hki Hi]];
    apply list_lookup_insert_Some in Hj as [(<- & <- & _)|[Hkj Hj]]; try lia.
    + assert (Hse := Hasc k j _ _ Hij Hk Hj).
      assert (H := Hno k j _ _ Hkj Hk Hj). apply overlapsWith_false in H.
      assert (well_formed e) by (apply Hwf; by eapply list_elem_of_lookup_2).
      unfold well_formed in *. lia.
    + apply Hstart. by eapply list_elem_of_lookup_2.
    + by apply (Hasc i j).
Qed.

Lemma mergeLoop_ascending prios sortedPoints : forall merged out,
  StronglySorted start_le sortedPoints ->
  Forall well_formed sortedPoints ->
  Forall well_formed merged ->
  non_overlapping merged ->
  ascending merged ->
  (forall e p, e ∈ merged -> p ∈ sortedPoints -> start e <= start p) ->
  mergeLoop prios sortedPoints merged = Ok out ->
  ascending out.
Proof.
  induction sortedPoints as [|point rest IH];
    intros merged out Hsorted Hwfp Hwfm Hno Hasc Hstart; simpl.
  - by intros [= <-].
  - apply StronglySorted_inv in Hsorted as [Hsorted Hall].
    apply Forall_cons in Hwfp as [Hwp Hwfp].
    destruct (mergeStep prios merged point) as [merged'|] eqn:Hstep; [|done].
    simpl. intros Hloop.
    assert (Hstart0 : forall e, e ∈ merged -> start e <= start point)
      by (intros e He; apply Hstart; [done|apply list_elem_of_here]).
    destruct (mergeStep_invariant _ _ _ _ Hno Hstart0 Hstep) as [Hno' Hfrom].
    apply (IH merged' out); try done.
    + apply Forall_forall. intros e He. destruct (Hfrom e He) as [He'| ->]; [|done].
      rewrite Forall_forall in Hwfm. by apply Hwfm.
    + by eapply mergeStep_ascending.
    + intros e p He Hp. destruct (Hfrom e He) as [He'| ->].
      * apply Hstart; [done|]. by apply list_elem_of_further.
      * rewrite Forall_forall in Hall. by apply Hall.
Qed.

(** Two lists in ascending order with the same entries are equal when the
    start time identifies the entry. *)
Lemma sorted_perm_unique (l1 : list DataPoint) : forall l2,
  StronglySorted start_le l1 ->
  StronglySorted start_le l2 ->
  Permutation l1 l2 ->
  (forall x y, x ∈ l1 -> y ∈ l1 -> start x = start y -> x = y) ->
  l1 = l2.
Proof.
  induction l1 as [|a l1 IH]; intros l2 Hs1 Hs2 Hperm Hinj.
  - by apply Permutation_nil in Hperm.
  - destruct l2 as [|b l2]; [by apply Permutation_sym, Permutation_nil in Hperm|].
    apply StronglySorted_inv in Hs1 as [Hs1 Hall1].
    apply StronglySorted_inv in Hs2 as [Hs2 Hall2].
    rewrite Forall_forall in Hall1, Hall2.
    assert (Hb : b ∈ a :: l1) by (rewrite Hperm; apply list_elem_of_here).
    assert (Ha : a ∈ b :: l2) by (rewrite <- Hperm; apply list_elem_of_here).
    assert (Hab : a = b).
    { apply Hinj; [apply list_elem_of_here|done|].
      apply elem_of_cons in Hb as [->|Hb]; [done|].
      apply elem_of_cons in Ha as [->|Ha]; [done|].
      specialize (Hall1 b Hb). specialize (Hall2 a Ha). unfold start_le in *. lia. }
    subst b. f_equal. apply IH; try done.
    + by apply Permutation_cons_inv in Hperm.
    + intros x y Hx Hy. apply Hinj; by apply list_elem_of_further.
Qed.

Lemma twice_perm l : Permutation (l ++ l) (twice l).
Proof.
  induction l as [|x l IH]; simpl; [done|].
  constructor. rewrite <- Permutation_middle. by constructor.
Qed.

Lemma twice_sorted l : StronglySorted start_le l -> StronglySorted start_le (twice l).
Proof.
  induction 1 as [|x l Hs IH Hall]; simpl; [constructor|].
  assert (Hall' : Forall (start_le x) (twice l)).
  { apply Forall_forall. intros y Hy. rewrite <- twice_perm in Hy.
    rewrite Forall_forall in Hall. apply elem_of_app in Hy as [Hy|Hy]; by apply Hall. }
  constructor; [by constructor|]. constructor; [unfold start_le; lia|done].
Qed.

Lemma array_find_app_none {A} (f : A -> bool) l1 l2 :
  (forall x, x ∈ l1 -> f x = false) ->
  array_find f (l1 ++ l2) = array_find f l2.
Proof.
  induction l1 as [|y l1 IH]; intros Hnone; simpl; [done|].
  rewrite (Hnone y) by apply list_elem_of_here.
  apply IH. intros x Hx. apply Hnone. by apply list_elem_of_further.
Qed.

(** The loop over a list visited twice in a row, entry by entry, whose
    points lie apart from each other and from the list built so far: each
    first visit appends, each second visit changes nothing. *)
Lemma mergeLoop_twice prios suffix : forall merged,
  non_overlapping (merged ++ suffix) ->
  Forall well_formed suffix ->
  sources_known prios suffix ->
  mergeLoop prios (twice suffix) merged = Ok (merged ++ suffix).
Proof.
  induction suffix as [|x suffix IH]; intros merged Hno Hwf Hknown; simpl.
  - by rewrite app_nil_r.
  - apply Forall_cons in Hwf as [Hwx Hwf].
    assert (Hapart : forall e, e ∈ merged -> overlapsWith x e = false).
    { intros e He. apply list_elem_of_lookup in He as [i Hi].
      apply lookup_lt_Some in Hi as Hlt.
      apply (Hno (length merged) i); [lia| |by apply lookup_app_l_Some].
      by rewrite list_lookup_middle. }
    assert (Hself : overlapsWith x x = true)
      by (apply overlapsWith_true; unfold well_formed in Hwx; lia).
    destruct (Hknown x) as [c Hc]; [apply list_elem_of_here|].
    assert (Hfirst : mergeStep prios merged x = Ok (merged ++ [x])).
    { unfold mergeStep. by rewrite (proj2 (array_find_None _ _) Hapart). }
    assert (Hsecond : mergeStep prios (merged ++ [x]) x = Ok (merged ++ [x])).
    { unfold mergeStep. rewrite array_find_app_none by done. simpl.
      rewrite Hself, (readPriority_own _ _ _ Hc), greater_numbers.
      by rewrite Z.gtb_ltb, Z.ltb_irrefl. }
    rewrite Hfirst. simpl. rewrite Hsecond. simpl.
    rewrite IH; [by rewrite <- app_assoc| |done|].
    + by rewrite <- app_assoc.
    + intros p Hp. apply Hknown. by apply list_elem_of_further.
Qed.

(** C3 (as amended). For every collection of well-formed data points
    (none ends before it starts) whose sources all have a priority in the
    table: when the merge returns a list, merging that list concatenated
    with itself, with the same table, returns the same list. *)
Theorem mergeDataPoints_idempotent dataPoints providerPriorities out :
  Forall well_formed dataPoints ->
  sources_known providerPriorities dataPoints ->
  mergeDataPoints dataPoints providerPriorities = Ok out ->
  mergeDataPoints (out ++ out) providerPriorities = Ok out.
Proof.
  intros Hwf Hknown. rewrite !mergeDataPoints_unfold. intros Hout.
  set (sorted := array_sort byStart dataPoints) in *.
  assert (Hperm : Permutation dataPoints sorted) by apply (array_sort_perm start).
  assert (Hsorted : StronglySorted start_le sorted) by apply (array_sort_sorted start).
  assert (Hfrom : forall e, e ∈ out -> e ∈ dataPoints).
  { intros e He. destruct (mergeLoop_elem_of _ _ _ _ Hout e He) as [H|H].
    - inversion H.
    - by rewrite Hperm. }
  assert (Hno : non_overlapping out).
  { eapply mergeLoop_non_overlapping; [exact Hsorted|apply non_overlapping_nil| |exact Hout].
    intros e p He. inversion He. }
  assert (Hasc : ascending out).
  { eapply mergeLoop_ascending; [exact Hsorted| | | | | |exact Hout].
    - by rewrite <- Hperm.
    - constructor.
    - apply non_overlapping_nil.
    - intros i j p e _ H. by rewrite lookup_nil in H.
    - intros e p He. inversion He. }
  assert (Hwf_out : Forall well_formed out).
  { apply Forall_forall. intros e He. rewrite Forall_forall in Hwf. auto. }
  assert (Hsort : array_sort byStart (out ++ out) = twice out).
  { symmetry. apply sorted_perm_unique.
    - by apply twice_sorted, ascending_StronglySorted.
    - apply (array_sort_sorted start).
    - rewrite <- twice_perm. apply (array_sort_perm start).
    - intros x y Hx Hy Hxy.
      rewrite <- twice_perm in Hx, Hy.
      assert (Hx' : x ∈ out) by (apply elem_of_app in Hx; tauto).
      assert (Hy' : y ∈ out) by (apply elem_of_app in Hy; tauto).
      rewrite Forall_forall in Hwf_out.
      assert (Hwx := Hwf_out x Hx'). assert (Hwy := Hwf_out y Hy').
      apply list_elem_of_lookup in Hx' as [i Hi].
      apply list_elem_of_lookup in Hy' as [j Hj].
      destruct (decide (i = j)) as [->|Hij]; [congruence|].
      assert (H := Hno i j x y Hij Hi Hj). apply overlapsWith_false in H.
      unfold well_formed in *. lia. }
  rewrite Hsort. apply (mergeLoop_twice providerPriorities out []); [done..|].
  intros p Hp. auto.
Qed.

Lemma mergeDataPoints_idempotent_witness :
  Forall well_formed [fever_A; fever_B] /\
  sources_known table_AB [fever_A; fever_B] /\
  mergeDataPoints [fever_A; fever_B] table_AB = Ok [fever_A] /\
  mergeDataPoints ([fever_A] ++ [fever_A]) table_AB = Ok [fever_A].
Proof.
  assert (Hwf : Forall well_formed [fever_A; fever_B]).
  { repeat constructor; unfold well_formed, fever_A, fever_B, hours; simpl; lia. }
  assert (Hknown : sources_known table_AB [fever_A; fever_B]).
  { intros p Hp. apply elem_of_cons in Hp as [->|Hp]; [by eexists|].
    apply list_elem_of_singleton in Hp as ->. by eexists. }
  assert (Hout : mergeDataPoints [fever_A; fever_B] table_AB = Ok [fever_A])
    by reflexivity.
  split; [exact Hwf|]. split; [exact Hknown|]. split; [exact Hout|].
  exact (mergeDataPoints_idempotent [fever_A; fever_B] table_AB [fever_A]
           Hwf Hknown Hout).
Defined.

(** A single point of a source without priority merges to itself, but the
    merge of that result with itself throws. *)
Lemma idempotent_counterexample : ~ idempotent_on [test_point] ∅.
Proof.
  intros H. specialize (H [test_point] eq_refl). discriminate H.
Qed.

(** Well-formedness is needed as well: an interval that ends before it
    starts does not overlap itself, so both copies are kept. *)
Lemma idempotent_needs_well_formed :
  mergeDataPoints [backwards_point] table_AB = Ok [backwards_point] /\
  mergeDataPoints ([backwards_point] ++ [backwards_point]) table_AB
    = Ok [backwards_point; backwards_point].
Proof. split; reflexivity. Qed.

(** ** Missing priorities *)

Lemma readPriority_None prios key :
  readPriority prios key = None <-> prios !! key = None /\ inherited key = None.
Proof.
  unfold readPriority. destruct (prios !! key) as [n|]; [split; [done|by intros [? _]]|].
  destruct (inherited key); simpl; split; try done. by intros [_ ?].
Qed.

(** C4 (failing input). The loop has merged the points before a point
    without error and the point overlaps an entry of the output list.
    When the source of the point or of the entry is absent from the table
    and names no member of [Object.prototype], [mergeDataPoints] throws
    [PRIORITY_ERROR]: whatever points come after, none is merged and no
    list is returned.  When the source of the point is absent from the
    table and names such a member ([constructor], [toString], ...), the
    read gives the inherited member and not [undefined]: nothing is
    thrown, the point is left out as if it had the lower priority, and the
    loop goes on with the points after it. *)
Theorem mergeDataPoints_priority_guard
    dataPoints providerPriorities before point after merged overlapping :
  array_sort byStart (map withDateObjects dataPoints) = before ++ point :: after ->
  mergeLoop providerPriorities before [] = Ok merged ->
  array_find (overlapsWith point) merged = Some overlapping ->
  ((providerPriorities !! source point = None /\ inherited (source point) = None) \/
   (providerPriorities !! source overlapping = None /\
    inherited (source overlapping) = None) ->
   mergeDataPoints dataPoints providerPriorities
   = Throw (HealthDataError PRIORITY_ERROR "Provider priority not found")) /\
  (providerPriorities !! source point = None ->
   is_Some (inherited (source point)) ->
   is_Some (providerPriorities !! source overlapping) ->
   mergeDataPoints dataPoints providerPriorities
   = mergeLoop providerPriorities after merged).
Proof.
  intros Hsorted Hbefore Hfind.
  rewrite mergeDataPoints_unfold. rewrite map_withDateObjects in Hsorted.
  rewrite Hsorted, mergeLoop_app, Hbefore. simpl.
  unfold mergeStep. rewrite Hfind. split.
  - intros Hmissing.
    destruct Hmissing as [H|H]; apply readPriority_None in H; rewrite H; [done|].
    by destruct (readPriority providerPriorities (source point)).
  - intros Habsent [text Htext] [n Hn].
    unfold readPriority. rewrite Habsent, Htext, Hn. reflexivity.
Qed.

Lemma mergeDataPoints_priority_guard_witness :
  table_A !! source inherited_point = None /\
  inherited (source inherited_point) = Some (native "Object") /\
  mergeDataPoints [long_sleep_A; inherited_point] table_A = Ok [long_sleep_A].
Proof.
  split; [reflexivity|]. split; [reflexivity|].
  apply (proj2 (mergeDataPoints_priority_guard [long_sleep_A; inherited_point] table_A
                  [long_sleep_A] inherited_point [] [long_sleep_A] long_sleep_A
                  eq_refl eq_refl eq_refl)).
  - reflexivity.
  - exists (native "Object"). reflexivity.
  - exists 10. reflexivity.
Defined.

(** The guard at work: a source that is absent from the table and names
    nothing inherited ends the merge. *)
Lemma mergeDataPoints_priority_error_unknown :
  mergeDataPoints [sleep_later; sleep_unknown; sleep_A] table_AB
  = Throw (HealthDataError PRIORITY_ERROR "Provider priority not found").
Proof. reflexivity. Qed.

(** ** Listeners *)

Lemma add_events_nil st : add_events [] st = st.
Proof. destruct st. unfold add_events. simpl. by rewrite app_nil_r. Qed.

Lemma add_events_app evs1 evs2 st :
  add_events evs2 (add_events evs1 st) = add_events (evs1 ++ evs2) st.
Proof. unfold add_events. simpl. by rewrite app_assoc. Qed.

(** The loop of [notifyCallbacks] over callbacks that all return. *)
Lemma notify_loop_all_return metric data callbacks : forall st,
  Forall (fun c => react c metric data = Ok tt) callbacks ->
  for_of callbacks (fun callback =>
      emit (Delivered (lid callback) metric data) ;;
      settle (react callback metric data)) st
  = (add_events (map (delivery metric data) callbacks) st, Ok tt).
Proof.
  induction callbacks as [|c callbacks IH]; intros st Hall; simpl.
  - by rewrite add_events_nil.
  - apply Forall_cons in Hall as [Hc Hall].
    unfold mbind, M_bind at 1. unfold mbind, M_bind at 1. simpl.
    unfold settle. rewrite Hc. rewrite IH by done.
    by rewrite add_events_app.
Qed.

(** The loop over callbacks of which one throws after the ones before it
    returned: the callbacks behind it are not called. *)
Lemma notify_loop_first_throw metric data before l after e : forall st,
  Forall (fun c => react c metric data = Ok tt) before ->
  react l metric data = Throw e ->
  for_of (before ++ l :: after) (fun callback =>
      emit (Delivered (lid callback) metric data) ;;
      settle (react callback metric data)) st
  = (add_events (map (delivery metric data) (before ++ [l])) st, Throw e).
Proof.
  induction before as [|c before IH]; intros st Hall Hl; simpl.
  - unfold mbind, M_bind at 1. unfold mbind, M_bind at 1. simpl.
    unfold settle. by rewrite Hl.
  - apply Forall_cons in Hall as [Hc Hall].
    unfold mbind, M_bind at 1. unfold mbind, M_bind at 1. simpl.
    unfold settle. rewrite Hc. rewrite IH by done.
    by rewrite add_events_app.
Qed.

Lemma notifyCallbacks_unfold metric data st :
  notifyCallbacks metric data st =
  for_of (dataCallbacks st) (fun callback =>
      emit (Delivered (lid callback) metric data) ;;
      settle (react callback metric data)) st.
Proof. reflexivity. Qed.

Lemma subscribe_fresh callback st :
  lid callback ∉ map lid (dataCallbacks st) ->
  (subscribeToProviderUpdates callback st).1 =
  mkManager (providers st) (enabledProviders st) (providerSubscriptions st)
    (dataCallbacks st ++ [callback]) (pollingIntervals st) (trace st).
Proof.
  intros Hfresh. unfold subscribeToProviderUpdates, set_dataCallbacks, modify. simpl.
  by rewrite bool_decide_false.
Qed.

(** Subscribing callbacks that are not yet in the set appends them, in the
    order of the calls, and touches nothing else. *)
Lemma subscribeAll_appends callbacks : forall st,
  NoDup (map lid (dataCallbacks st) ++ map lid callbacks) ->
  subscribeAll callbacks st =
  mkManager (providers st) (enabledProviders st) (providerSubscriptions st)
    (dataCallbacks st ++ callbacks) (pollingIntervals st) (trace st).
Proof.
  induction callbacks as [|c callbacks IH]; intros st Hnodup.
  - unfold subscribeAll. simpl. rewrite app_nil_r. by destruct st.
  - change (subscribeAll (c :: callbacks) st)
      with (subscribeAll callbacks (subscribeToProviderUpdates c st).1).
    assert (Hfresh : lid c ∉ map lid (dataCallbacks st)).
    { apply NoDup_app in Hnodup as (_ & Hdisj & _). intros Hin.
      apply (Hdisj _ Hin). apply list_elem_of_here. }
    rewrite subscribe_fresh by done. rewrite IH; simpl.
    + by rewrite <- app_assoc.
    + rewrite map_app. simpl. by rewrite <- app_assoc.
Qed.

(** C5 (as amended). After callbacks have been subscribed one by one,
    [notifyCallbacks] calls them in the order of their subscription.  When
    all of them return, each is called once and the notification returns.
    When one of them throws, the ones subscribed before it have been
    called, the exception leaves [notifyCallbacks], and the ones subscribed
    after it are not called. *)
Theorem notifyCallbacks_registration_order st callbacks metric data :
  dataCallbacks st = [] ->
  NoDup (map lid callbacks) ->
  (Forall (fun c => react c metric data = Ok tt) callbacks ->
   notifyCallbacks metric data (subscribeAll callbacks st)
   = (add_events (map (delivery metric data) callbacks) (subscribeAll callbacks st),
      Ok tt)) /\
  (forall before l after e,
     callbacks = before ++ l :: after ->
     Forall (fun c => react c metric data = Ok tt) before ->
     react l metric data = Throw e ->
     notifyCallbacks metric data (subscribeAll callbacks st)
     = (add_events (map (delivery metric data) (before ++ [l]))
          (subscribeAll callbacks st),
        Throw e)).
Proof.
  intros Hempty Hnodup.
  assert (Hcbs : dataCallbacks (subscribeAll callbacks st) = callbacks).
  { rewrite subscribeAll_appends; simpl; by rewrite Hempty. }
  split.
  - intros Hall. rewrite notifyCallbacks_unfold, Hcbs.
    by apply notify_loop_all_return.
  - intros before l after e Hsplit Hall Hl.
    rewrite notifyCallbacks_unfold, Hcbs, Hsplit.
    by apply notify_loop_first_throw.
Qed.

Lemma notifyCallbacks_registration_order_witness :
  dataCallbacks empty_manager = [] /\
  NoDup (map lid [throwing_listener; quiet_listener]) /\
  notifyCallbacks sleep one_sleep_sample two_listeners
  = (add_events [Delivered 1 sleep one_sleep_sample] two_listeners,
     Throw (PlainError "listener failed")).
Proof.
  assert (H1 : dataCallbacks empty_manager = []) by reflexivity.
  assert (H2 : NoDup (map lid [throwing_listener; quiet_listener])).
  { simpl. apply NoDup_cons_2; [|apply NoDup_cons_2; [|apply NoDup_nil_2]].
    - intros Hin. apply list_elem_of_singleton in Hin. discriminate Hin.
    - intros Hin. inversion Hin. }
  split; [exact H1|]. split; [exact H2|].
  exact (proj2 (notifyCallbacks_registration_order empty_manager
                  [throwing_listener; quiet_listener] sleep one_sleep_sample H1 H2)
           [] throwing_listener [quiet_listener] (PlainError "listener failed")
           eq_refl (List.Forall_nil _) eq_refl).
Defined.

(** The first of two callbacks throws: the second is not called. *)
Lemma delivers_to_every_listener_counterexample :
  ~ delivers_to_every_listener two_listeners sleep one_sleep_sample.
Proof.
  unfold delivers_to_every_listener. intros H. vm_compute in H. discriminate H.
Qed.

(** ** Teardown *)

Lemma map_delete_filter {V} (k : string) (m : list (string * V)) :
  map_delete k m = filter (fun kv => kv.1 <> k) m.
Proof. reflexivity. Qed.

Lemma filter_all {A} (P : A -> Prop) `{!forall x, Decision (P x)} (l : list A) :
  (forall x, x ∈ l -> P x) -> filter P l = l.
Proof.
  induction l as [|x l IH]; intros Hall; [done|].
  rewrite filter_cons_True by (apply Hall, list_elem_of_here).
  f_equal. apply IH. intros y Hy. by apply Hall, list_elem_of_further.
Qed.

Lemma bind_Ok {A B} (m : M A) (k : A -> M B) st st' a :
  m st = (st', Ok a) -> (m ≫= k) st = k a st'.
Proof. intros H. unfold mbind, M_bind. by rewrite H. Qed.

Lemma bind_Throw {A B} (m : M A) (k : A -> M B) st st' e :
  m st = (st', Throw e) -> (m ≫= k) st = (st', Throw e).
Proof. intros H. unfold mbind, M_bind. by rewrite H. Qed.

(** The loop of [stopPollingForProvider] over a list of entries that holds
    every timer of the provider still in the map. *)
Lemma stop_loop providerId entries : forall st,
  (forall entry, entry ∈ pollingIntervals st -> timer_of providerId entry ->
     entry.1 ∈ entries.*1) ->
  for_of entries (fun '(key, interval) =>
      if String.prefix (providerId +:+ "-") key then
        emit (IntervalCleared key interval) ;;
        set_pollingIntervals (map_delete key)
      else mret tt) st
  = (mkManager (providers st) (enabledProviders st) (providerSubscriptions st)
       (dataCallbacks st)
       (filter (fun entry => ~ timer_of providerId entry) (pollingIntervals st))
       (trace st ++ map cleared (filter (timer_of providerId) entries)),
     Ok tt).
Proof.
  set (body := fun '(key, interval) => _).
  induction entries as [|[key interval] entries IH]; intros st Hcover.
  - simpl. unfold mret, M_ret. f_equal. rewrite app_nil_r.
    destruct st as [ps en subs cbs timers tr]; simpl in *. f_equal.
    symmetry. apply filter_all.
    intros entry Hentry Htimer. specialize (Hcover entry Hentry Htimer).
    inversion Hcover.
  - cbn [for_of].
    destruct (String.prefix (providerId +:+ "-") key) eqn:Hkey.
    + erewrite bind_Ok; cycle 1.
      { unfold body. rewrite Hkey. reflexivity. }
      rewrite IH.
      * cbn [providers enabledProviders providerSubscriptions dataCallbacks
             pollingIntervals trace add_events].
        f_equal. f_equal.
        -- rewrite map_delete_filter. apply list_filter_filter_l.
           intros entry Hno Heq. apply Hno. unfold timer_of. by rewrite Heq.
        -- rewrite filter_cons_True by done. cbn [map]. by rewrite <- app_assoc.
      * cbn [pollingIntervals add_events]. intros entry Hentry Htimer.
        rewrite map_delete_filter in Hentry.
        apply list_elem_of_filter in Hentry as [Hne Hentry].
        specialize (Hcover entry Hentry Htimer). cbn [fmap list_fmap] in Hcover.
        apply elem_of_cons in Hcover as [?|?]; done.
    + erewrite bind_Ok; cycle 1.
      { unfold body. rewrite Hkey. reflexivity. }
      rewrite IH.
      * f_equal. f_equal. rewrite filter_cons_False; [done|].
        unfold timer_of. cbn [fst]. by rewrite Hkey.
      * intros entry Hentry Htimer.
        specialize (Hcover entry Hentry Htimer). cbn [fmap list_fmap] in Hcover.
        apply elem_of_cons in Hcover as [Heq|?]; [|done].
        unfold timer_of in Htimer. rewrite Heq in Htimer. cbn [fst] in Htimer. congruence.
Qed.

Lemma stopPollingForProvider_spec providerId st :
  stopPollingForProvider providerId st = (stopped providerId st, Ok tt).
Proof.
  unfold stopPollingForProvider, stopped.
  unfold mbind at 1, M_bind at 1, gets. cbn beta iota.
  rewrite stop_loop; [done|].
  intros entry Hentry _. apply list_elem_of_fmap. by exists entry.
Qed.

(** C6 (as amended). When the stored cleanup function of the provider
    throws, [disableProvider] throws (the error itself if it is typed,
    [CLEANUP_ERROR] otherwise) right after the call: no timer is cleared,
    the maps are as they were and [cleanUp] is not called.  For a
    registered provider without a stored cleanup function it clears and
    removes the timers of the provider, calls [cleanUp] once and settles as
    [cleanUp] does; with a stored cleanup function that returns, it first
    invokes and forgets that function and then does the same. *)
Theorem disableProvider_outcomes st providerId :
  (forall error,
     map_get providerId (providerSubscriptions st) = Some (Throw error) ->
     disableProvider providerId st
     = (add_events [CleanupFnInvoked providerId] st,
        Throw (if isTrackleError error then error
               else HealthDataError CLEANUP_ERROR
                      ("Failed to clean up provider " +:+ providerId)))) /\
  (forall provider,
     map_get providerId (providerSubscriptions st) = None ->
     map_get providerId (providers st) = Some provider ->
     disableProvider providerId st
     = (add_events [CleanUpCalled providerId] (stopped providerId st),
        cleanUp provider)) /\
  (forall provider,
     map_get providerId (providerSubscriptions st) = Some (Ok tt) ->
     map_get providerId (providers st) = Some provider ->
     disableProvider providerId st
     = (add_events [CleanUpCalled providerId]
          (stopped providerId (released providerId st)),
        cleanUp provider)).
Proof.
  split; [|split].
  - intros error Hsub. unfold disableProvider.
    erewrite bind_Ok by reflexivity. cbn beta. rewrite Hsub.
    erewrite bind_Throw; [reflexivity|].
    unfold try_catch. erewrite bind_Ok by reflexivity.
    erewrite bind_Throw by reflexivity.
    by destruct (isTrackleError error).
  - intros provider Hsub Hprov. unfold disableProvider.
    erewrite bind_Ok by reflexivity. cbn beta. rewrite Hsub.
    erewrite bind_Ok by reflexivity.
    erewrite bind_Ok by apply stopPollingForProvider_spec.
    erewrite bind_Ok by reflexivity. cbn beta.
    change (providers (stopped providerId st)) with (providers st). rewrite Hprov.
    erewrite bind_Ok by reflexivity. reflexivity.
  - intros provider Hsub Hprov. unfold disableProvider.
    erewrite bind_Ok by reflexivity. cbn beta. rewrite Hsub.
    erewrite bind_Ok; cycle 1.
    { unfold try_catch. erewrite bind_Ok by reflexivity.
      erewrite bind_Ok by reflexivity. reflexivity. }
    erewrite bind_Ok by apply stopPollingForProvider_spec.
    erewrite bind_Ok by reflexivity. cbn beta.
    change (providers (stopped providerId _)) with (providers st).
    rewrite Hprov.
    erewrite bind_Ok by reflexivity. reflexivity.
Qed.

Lemma disableProvider_outcomes_witness :
  (map_get "apple-health" (providerSubscriptions failing_teardown)
     = Some (Throw (PlainError "unsubscribe failed")) /\
   disableProvider "apple-health" failing_teardown
     = (add_events [CleanupFnInvoked "apple-health"] failing_teardown,
        Throw (HealthDataError CLEANUP_ERROR
                 "Failed to clean up provider apple-health"))) /\
  (map_get "fitbit" (providerSubscriptions polling_only) = None /\
   map_get "fitbit" (providers polling_only) = Some fitbit_like /\
   disableProvider "fitbit" polling_only
     = (add_events [CleanUpCalled "fitbit"] (stopped "fitbit" polling_only), Ok tt)).
Proof.
  split.
  - split; [reflexivity|].
    exact (proj1 (disableProvider_outcomes failing_teardown "apple-health")
             (PlainError "unsubscribe failed") eq_refl).
  - split; [reflexivity|]. split; [reflexivity|].
    exact (proj1 (proj2 (disableProvider_outcomes polling_only "fitbit"))
             fitbit_like eq_refl eq_refl).
Defined.

(** What the teardown of [polling_only] does, step by step: the two timers
    of "fitbit" are cleared, the one of "apple-health" stays. *)
Lemma disableProvider_polling_only :
  trace (disableProvider "fitbit" polling_only).1
    = [IntervalCleared "fitbit-sleep" 3; IntervalCleared "fitbit-illness" 4;
       CleanUpCalled "fitbit"] /\
  pollingIntervals (disableProvider "fitbit" polling_only).1
    = [("apple-health-sleep", 7%nat)].
Proof. split; reflexivity. Qed.

(** The cleanup function of "apple-health" throws: its sleep timer keeps
    running and [cleanUp] is not called. *)
Lemma disable_is_best_effort_counterexample :
  ~ disable_is_best_effort failing_teardown "apple-health".
Proof.
  intros H. destruct (H (PlainError "unsubscribe failed") eq_refl) as [_ Htimers].
  vm_compute in Htimers. discriminate Htimers.
Qed.

(** ** Registration *)

(** C7 (as amended). [registerProvider] first asks the provider whether it
    is available.  For an unavailable provider it returns without error and
    leaves the manager as it is.  For an available provider whose id is
    already registered it throws a plain [Error] (not a [HealthDataError])
    and leaves the manager, with the entry registered before, as it is. *)
Theorem registerProvider_checks st provider now :
  (isAvailable provider = Ok false ->
   registerProvider provider now st = (st, Ok tt)) /\
  (isAvailable provider = Ok true ->
   map_has (id provider) (providers st) = true ->
   registerProvider provider now st
   = (st, Throw (PlainError
                   ("Provider with id " +:+ id provider +:+ " is already registered"))) /\
   isTrackleError (PlainError
                   ("Provider with id " +:+ id provider +:+ " is already registered"))
   = false).
Proof.
  split.
  - intros Havail. unfold registerProvider.
    erewrite bind_Ok by (unfold settle; rewrite Havail; reflexivity). reflexivity.
  - intros Havail Hhas. split; [|reflexivity]. unfold registerProvider.
    erewrite bind_Ok by (unfold settle; rewrite Havail; reflexivity). cbn beta iota.
    erewrite bind_Ok by reflexivity. cbn beta. by rewrite Hhas.
Qed.

Lemma registerProvider_checks_witness :
  (isAvailable absent_provider = Ok false /\
   registerProvider absent_provider 0 apple_registered = (apple_registered, Ok tt)) /\
  (isAvailable apple_like = Ok true /\
   map_has (id apple_like) (providers apple_registered) = true /\
   registerProvider apple_like 5 apple_registered
   = (apple_registered,
      Throw (PlainError "Provider with id apple-health is already registered"))).
Proof.
  split.
  - split; [reflexivity|].
    exact (proj1 (registerProvider_checks apple_registered absent_provider 0) eq_refl).
  - split; [reflexivity|]. split; [reflexivity|].
    exact (proj1 (proj2 (registerProvider_checks apple_registered apple_like 5)
                    eq_refl eq_refl)).
Defined.

(** Registering "apple-health" a second time throws a plain [Error]. *)
Lemma duplicate_raises_typed_error_counterexample :
  ~ duplicate_raises_typed_error apple_registered apple_like 5.
Proof.
  intros H. destruct (H eq_refl eq_refl) as (error & Hthrow & Htyped).
  vm_compute in Hthrow. injection Hthrow as <-. discriminate Htyped.
Qed.

(** ** Bulk consolidation *)

(** A fetch that throws ends the collection: a typed error as it is, any
    other as [DATA_FETCH_ERROR]. *)
Lemma collectDataPoints_failure metric startDate endDate before provider after error :
  forall allDataPoints,
  Forall (fun p => exists data, getData p metric startDate endDate = Ok data) before ->
  getData provider metric startDate endDate = Throw error ->
  collectDataPoints (before ++ provider :: after) metric startDate endDate allDataPoints
  = Throw (if isTrackleError error then error
           else HealthDataError DATA_FETCH_ERROR "Failed to fetch health data").
Proof.
  induction before as [|p before IH]; intros allDataPoints Hbefore Hfail; simpl.
  - rewrite Hfail. by destruct (isTrackleError error).
  - apply Forall_cons in Hbefore as [[data ->] Hbefore]. by apply IH.
Qed.

(** The loop throws the error of the first requested metric whose
    consolidation throws. *)
Lemma consolidateLoop_failure st startDate endDate now before failing after error :
  forall result_,
  Forall (fun m => exists stored,
            consolidateMetric st m startDate endDate now = Ok stored) before ->
  consolidateMetric st failing startDate endDate now = Throw error ->
  consolidateLoop st (before ++ failing :: after) startDate endDate now result_
  = Throw error.
Proof.
  induction before as [|m before IH]; intros result_ Hbefore Hfail; simpl.
  - by rewrite Hfail.
  - apply Forall_cons in Hbefore as [[stored ->] Hbefore]. simpl. by apply IH.
Qed.

(** Among requested metrics one of which fails there is a first that
    fails. *)
Lemma first_failing_metric st startDate endDate now metrics : forall metric error,
  metric ∈ metrics ->
  consolidateMetric st metric startDate endDate now = Throw error ->
  exists before failing after error',
    metrics = before ++ failing :: after /\
    Forall (fun m => exists stored,
              consolidateMetric st m startDate endDate now = Ok stored) before /\
    consolidateMetric st failing startDate endDate now = Throw error'.
Proof.
  induction metrics as [|m metrics IH]; intros metric error Hin Hfail.
  - inversion Hin.
  - destruct (consolidateMetric st m startDate endDate now) as [stored|e] eqn:Hm.
    + apply elem_of_cons in Hin as [->|Hin]; [congruence|].
      destruct (IH metric error Hin Hfail) as (before & failing & after & e' & -> & Hb & Hf).
      exists (m :: before), failing, after, e'. split; [done|]. split; [|done].
      constructor; [by exists stored|done].
    + exists [], m, metrics, e. split; [done|]. split; [constructor|done].
Qed.

(** C8 (as amended). When the consolidation of one requested metric throws,
    the bulk consolidation of the whole call throws, and what it throws is
    the error of the first requested metric whose consolidation throws,
    which is the error of that metric when no other requested metric
    fails.  No metric is returned, and [syncHealthData] answers with the
    message of the error, an empty [healthData] and the previous
    [lastSync]. *)
Theorem consolidation_failure_aborts_call st metrics metric lastSync now error :
  metric ∈ metrics ->
  consolidateMetric st metric lastSync now now = Throw error ->
  exists before failing after error',
    metrics = before ++ failing :: after /\
    Forall (fun m => exists stored,
              consolidateMetric st m lastSync now now = Ok stored) before /\
    consolidateMetric st failing lastSync now now = Throw error' /\
    ((forall m, m ∈ metrics -> m <> metric ->
        exists stored, consolidateMetric st m lastSync now now = Ok stored) ->
     failing = metric /\ error' = error) /\
    consolidateHealthMetrics st metrics lastSync now now = Throw error' /\
    syncHealthData st metrics lastSync now
    = {| sync_error := Some (error_message error'); sync_isLoading := false;
         sync_healthData := []; sync_lastSync := lastSync |}.
Proof.
  intros Hin Hfail.
  destruct (first_failing_metric st lastSync now now metrics metric error Hin Hfail)
    as (before & failing & after & error' & Hsplit & Hbefore & Hfailing).
  exists before, failing, after, error'.
  assert (Hloop : consolidateHealthMetrics st metrics lastSync now now = Throw error').
  { unfold consolidateHealthMetrics. rewrite Hsplit. by apply consolidateLoop_failure. }
  repeat split; try done.
  - destruct (decide (failing = metric)) as [->|Hne]; [done|].
    destruct (H failing) as [stored Hstored]; [|done|congruence].
    rewrite Hsplit. apply elem_of_app. right. apply list_elem_of_here.
  - destruct (decide (failing = metric)) as [->|Hne]; [congruence|].
    destruct (H failing) as [stored Hstored]; [|done|congruence].
    rewrite Hsplit. apply elem_of_app. right. apply list_elem_of_here.
  - unfold syncHealthData. by rewrite Hloop.
Qed.

Lemma consolidation_failure_aborts_call_witness :
  exists before failing after error',
    [sleep; illness] = before ++ failing :: after /\
    Forall (fun m => exists stored,
              consolidateMetric fitbit_enabled m 0 (hours 24) (hours 24) = Ok stored)
           before /\
    consolidateMetric fitbit_enabled failing 0 (hours 24) (hours 24) = Throw error' /\
    ((forall m, m ∈ [sleep; illness] -> m <> illness ->
        exists stored,
          consolidateMetric fitbit_enabled m 0 (hours 24) (hours 24) = Ok stored) ->
     failing = illness /\
     error' = HealthDataError DATA_FETCH_ERROR "Failed to fetch health data") /\
    consolidateHealthMetrics fitbit_enabled [sleep; illness] 0 (hours 24) (hours 24)
      = Throw error' /\
    syncHealthData fitbit_enabled [sleep; illness] 0 (hours 24)
    = {| sync_error := Some (error_message error'); sync_isLoading := false;
         sync_healthData := []; sync_lastSync := 0 |}.
Proof.
  apply (consolidation_failure_aborts_call fitbit_enabled [sleep; illness] illness
           0 (hours 24)
           (HealthDataError DATA_FETCH_ERROR "Failed to fetch health data")).
  - apply list_elem_of_further, list_elem_of_here.
  - reflexivity.
Defined.

(** The sleep fetch of "fitbit" works and its illness fetch fails: the
    sleep sample is not returned. *)
Lemma failure_spares_other_metrics_counterexample :
  ~ failure_spares_other_metrics fitbit_enabled [sleep; illness]
      0 (hours 24) (hours 24).
Proof.
  intros H.
  destruct (H sleep
              (mkSample [mkDataPoint (hours 4) (hours 8) "fitbit" (SleepDetail [])]
                 category (hours 24))
              (list_elem_of_here _ _) eq_refl) as (data & Hdata & _).
  vm_compute in Hdata. discriminate Hdata.
Qed.

(** The guard of the bulk path: a stored sample has points. *)
Lemma consolidateMetric_stores_points st metric startDate endDate now s :
  consolidateMetric st metric startDate endDate now = Ok (Some s) ->
  value s <> [].
Proof.
  unfold consolidateMetric.
  destruct (collectDataPoints _ _ _ _ _) as [allDataPoints|]; [|done]. simpl.
  destruct (mergeCollected _ _) as [merged|]; [|done]. simpl.
  destruct merged as [|p merged]; simpl; [done|]. by intros [= <-].
Qed.

(** ** Empty samples *)

(** The guard of the polling path: a fetched sample without points is not
    handed to the callbacks. *)
Lemma pollData_skips_empty provider metric startDate now data st :
  getData provider metric startDate now = Ok data ->
  value data = [] ->
  pollData provider metric startDate now st = (st, Ok tt).
Proof.
  intros Hdata Hempty. unfold pollData, try_catch.
  erewrite bind_Ok by (unfold settle; rewrite Hdata; reflexivity).
  unfold hasValidData. by rewrite Hempty.
Qed.

(** C9 (failing input). A sample without points fails [hasValidData], and
    a polling tick that fetches it notifies nobody; pushed through the
    realtime callback, the same sample is delivered to the subscribed
    callback, and [mergeMetricData] without an existing sample returns it
    as the sample to store. *)
Theorem realtime_push_forwards_empty_sample :
  hasValidData sleep empty_sample = false /\
  pollData idle_provider sleep 0 (hours 9) one_enabled = (one_enabled, Ok tt) /\
  streamCallback sleep empty_sample one_enabled
    = (add_events [Delivered 2 sleep empty_sample] one_enabled, Ok tt) /\
  mergeMetricData one_enabled None empty_sample (hours 9) = Ok empty_sample.
Proof. repeat split. Qed.

(** ** Priority tables of the two merge paths *)

(** After [priorities[key] = n] a read of the key gives a value, and so
    does every read that gave one before. *)
Lemma readPriority_write key n (acc : gmap string Z) :
  is_Some (readPriority (writePriority key n acc) key).
Proof.
  unfold writePriority. destruct (decide (key = "__proto__")) as [->|Hne].
  - unfold readPriority. destruct (acc !! "__proto__"); by eexists.
  - rewrite (readPriority_own _ _ n); [by eexists|]. apply lookup_insert_eq.
Qed.

Lemma readPriority_write_other key n (acc : gmap string Z) k :
  is_Some (readPriority acc k) ->
  is_Some (readPriority (writePriority key n acc) k).
Proof.
  intros Hk. destruct (decide (key = k)) as [->|Hne]; [apply readPriority_write|].
  unfold writePriority. destruct (decide (key = "__proto__")); [done|].
  unfold readPriority in *. by rewrite lookup_insert_ne.
Qed.

Lemma priorityTable_readable ps : forall (acc : gmap string Z) k,
  is_Some (readPriority acc k) \/ (exists provider, provider ∈ ps /\ id provider = k) ->
  is_Some (readPriority
             (foldl (fun priorities provider =>
                       writePriority (id provider) (priority provider) priorities)
                    acc ps) k).
Proof.
  induction ps as [|p ps IH]; intros acc k Hk; simpl.
  - destruct Hk as [?|(provider & Hin & _)]; [done|inversion Hin].
  - apply IH. destruct Hk as [Hacc|(provider & Hin & Hid)].
    + left. by apply readPriority_write_other.
    + apply elem_of_cons in Hin as [->|Hin].
      * left. rewrite Hid. apply readPriority_write.
      * right. by exists provider.
Qed.

Lemma mergeDataPoints_readable dataPoints prios :
  sources_readable prios dataPoints ->
  exists out, mergeDataPoints dataPoints prios = Ok out.
Proof.
  intros Hknown. rewrite mergeDataPoints_unfold. apply mergeLoop_readable.
  - intros p Hp. apply Hknown. apply list_elem_of_In.
    eapply Permutation_in; [symmetry; apply (array_sort_perm start)|].
    by apply list_elem_of_In.
  - intros p Hp. inversion Hp.
Qed.

Lemma mergeDataPoints_total dataPoints prios :
  sources_known prios dataPoints ->
  exists out, mergeDataPoints dataPoints prios = Ok out.
Proof. intros Hknown. by apply mergeDataPoints_readable, sources_known_readable. Qed.

(** A read of the table of the incremental path gives a value for the id
    of every registered provider. *)
Lemma getProviderPriorities_registered st points :
  sources_registered st points ->
  sources_readable (getProviderPriorities st) points.
Proof.
  intros Hreg p Hp. destruct (Hreg p Hp) as (provider & Hin & Hid).
  unfold getProviderPriorities, priorityTable.
  apply priorityTable_readable. right. by exists provider.
Qed.

(** The points the bulk path collects carry the id of the provider they
    were fetched from. *)
Lemma collectDataPoints_sources metric startDate endDate ps : forall allDataPoints out,
  collectDataPoints ps metric startDate endDate allDataPoints = Ok out ->
  forall p, p ∈ out ->
    p ∈ allDataPoints \/ exists provider, provider ∈ ps /\ id provider = source p.
Proof.
  induction ps as [|provider ps IH]; intros allDataPoints out; simpl.
  - intros [= <-] p Hp. by left.
  - destruct (getData provider metric startDate endDate) as [data|e]; cycle 1.
    { by destruct (isTrackleError e). }
    intros Hout p Hp. destruct (IH _ _ Hout p Hp) as [Hacc|(q & Hq & Hid)].
    + destruct (hasValidData metric data); [|by left].
      apply elem_of_app in Hacc as [?|Hnew]; [by left|].
      apply list_elem_of_fmap in Hnew as (p0 & -> & _).
      right. exists provider. split; [apply list_elem_of_here|done].
    + right. exists q. split; [by apply list_elem_of_further|done].
Qed.

(** A collection that throws throws what a fetch threw: a typed error as
    it is, any other as [DATA_FETCH_ERROR]. *)
Lemma collectDataPoints_Throw metric startDate endDate ps : forall allDataPoints error,
  collectDataPoints ps metric startDate endDate allDataPoints = Throw error ->
  exists provider cause,
    provider ∈ ps /\
    getData provider metric startDate endDate = Throw cause /\
    error = (if isTrackleError cause then cause
             else HealthDataError DATA_FETCH_ERROR "Failed to fetch health data").
Proof.
  induction ps as [|provider ps IH]; intros allDataPoints error; simpl; [done|].
  destruct (getData provider metric startDate endDate) as [data|e] eqn:Hdata.
  - intros Hrest. destruct (IH _ _ Hrest) as (q & cause & Hq & Hcause & ->).
    exists q, cause. split; [by apply list_elem_of_further|done].
  - intros Hthrow. exists provider, e. split; [apply list_elem_of_here|].
    split; [done|]. destruct (isTrackleError e); by injection Hthrow as <-.
Qed.

(** Inside a bulk consolidation the merge cannot miss a priority: when the
    consolidation of a metric throws, the error comes from a fetch. *)
Lemma consolidateMetric_error_from_fetch st metric startDate endDate now error :
  consolidateMetric st metric startDate endDate now = Throw error ->
  collectDataPoints (getProvidersForMetric st metric) metric startDate endDate []
    = Throw error.
Proof.
  unfold consolidateMetric.
  destruct (collectDataPoints _ _ _ _ _) as [allDataPoints|e] eqn:Hcollect;
    [|by intros [= <-]].
  simpl. unfold mergeCollected.
  destruct (mergeDataPoints_readable (array_sort byStart allDataPoints)
              (priorityTable (getProvidersForMetric st metric))) as [out Hout].
  - intros p Hp.
    assert (Hp' : p ∈ allDataPoints).
    { apply list_elem_of_In.
      eapply Permutation_in; [symmetry; apply (array_sort_perm start)|].
      by apply list_elem_of_In. }
    destruct (collectDataPoints_sources _ _ _ _ _ _ Hcollect p Hp')
      as [Hnil|(provider & Hin & Hid)]; [inversion Hnil|].
    apply priorityTable_readable. right. by exists provider.
  - rewrite Hout. simpl. by destruct (0 <? length out)%nat.
Qed.

(** C10 (as amended). The incremental path looks priorities up in the
    table of all registered providers, enabled or not: when every point of
    the existing and of the new sample carries the id of a registered
    provider, [mergeMetricData] returns a sample and throws no
    [PRIORITY_ERROR].  The bulk path builds its table from the enabled
    providers of the metric only, and it gives every point it collects the
    id of the provider the point was fetched from, so its merge cannot
    miss a priority either: whatever a bulk consolidation throws is what a
    fetch of one of those providers threw, as it is when typed and as
    [DATA_FETCH_ERROR] otherwise. *)
Theorem mergeMetricData_knows_registered_sources st existing newData now :
  sources_registered st (points_of existing ++ value newData) ->
  (exists merged, mergeMetricData st existing newData now = Ok merged) /\
  (forall metric startDate endDate error,
     consolidateMetric st metric startDate endDate now = Throw error ->
     exists provider cause,
       provider ∈ getProvidersForMetric st metric /\
       getData provider metric startDate endDate = Throw cause /\
       error = (if isTrackleError cause then cause
                else HealthDataError DATA_FETCH_ERROR "Failed to fetch health data")).
Proof.
  intros Hreg. split.
  - destruct existing as [existing|]; simpl in *; [|by eexists].
    destruct (mergeDataPoints_readable (value existing ++ value newData)
                (getProviderPriorities st)) as [merged ->].
    + by apply getProviderPriorities_registered.
    + by eexists.
  - intros metric startDate endDate error Hthrow.
    apply consolidateMetric_error_from_fetch in Hthrow.
    by apply collectDataPoints_Throw in Hthrow.
Qed.

Lemma mergeMetricData_knows_registered_sources_witness :
  sources_registered one_enabled
    (points_of (Some stored_apple) ++ value incoming_fitbit) /\
  exists merged,
    mergeMetricData one_enabled (Some stored_apple) incoming_fitbit (hours 11)
    = Ok merged.
Proof.
  assert (Hreg : sources_registered one_enabled
                   (points_of (Some stored_apple) ++ value incoming_fitbit)).
  { intros p Hp. simpl in Hp.
    apply elem_of_cons in Hp as [->|Hp];
      [|apply list_elem_of_singleton in Hp as ->].
    - exists apple_like. split; [apply list_elem_of_here|done].
    - exists fitbit_like.
      split; [apply list_elem_of_further, list_elem_of_here|done]. }
  split; [exact Hreg|].
  exact (proj1 (mergeMetricData_knows_registered_sources one_enabled
                  (Some stored_apple) incoming_fitbit (hours 11) Hreg)).
Defined.

(** No bulk consolidation whose fetches return throws [PRIORITY_ERROR]:
    with every fetch returning, the consolidation returns. *)
Lemma bulk_merge_can_miss_a_priority_counterexample :
  ~ bulk_merge_can_miss_a_priority.
Proof.
  intros (st & metric & startDate & endDate & now & message & Hfetch & Hthrow).
  apply consolidateMetric_error_from_fetch, collectDataPoints_Throw in Hthrow
    as (provider & cause & Hin & Hcause & _).
  destruct (Hfetch provider Hin) as [data Hdata]. congruence.
Qed.

(* ================================================================= *)
(** * Further properties of the merge *)

(** ** What the output is made of *)

Lemma mergeStep_submseteq prios merged point merged' :
  mergeStep prios merged point = Ok merged' ->
  merged' ⊆+ merged ++ [point] /\ (length merged <= length merged')%nat.
Proof.
  intros Hstep.
  apply mergeStep_Ok in Hstep
    as [[_ ->]|(k & ov & cur & ex & Hk & _ & _ & _ & _ & [[_ ->]|[_ ->]])].
  - split; [done|]. rewrite length_app. lia.
  - split; [|by rewrite length_insert].
    rewrite insert_take_drop by (by eapply lookup_lt_Some).
    rewrite <- Permutation_middle, <- Permutation_cons_append.
    apply submseteq_skip. rewrite <- delete_take_drop. apply submseteq_delete.
  - split; [|done]. by apply submseteq_inserts_r.
Qed.

Lemma mergeLoop_submseteq prios sortedPoints : forall merged out,
  mergeLoop prios sortedPoints merged = Ok out ->
  out ⊆+ merged ++ sortedPoints /\ (length merged <= length out)%nat.
Proof.
  induction sortedPoints as [|point rest IH]; intros merged out; simpl.
  - intros [= <-]. by rewrite app_nil_r.
  - destruct (mergeStep prios merged point) as [merged'|] eqn:Hstep; [|done].
    simpl. intros Hloop.
    destruct (mergeStep_submseteq _ _ _ _ Hstep) as [Hsub Hlen].
    destruct (IH _ _ Hloop) as [Hsub' Hlen']. split; [|lia].
    etrans; [exact Hsub'|].
    rewrite (cons_middle point merged rest), app_assoc.
    by apply submseteq_skips_r.
Qed.

(** X1. The output of the merge is a sub-multiset of its input: every
    entry is an input point, unchanged, and no input point is used more
    often than it occurs; in particular the output is not longer than the
    input. *)
Theorem mergeDataPoints_selects_inputs dataPoints providerPriorities out :
  mergeDataPoints dataPoints providerPriorities = Ok out ->
  out ⊆+ dataPoints /\
  (forall p, p ∈ out -> p ∈ dataPoints) /\
  (length out <= length dataPoints)%nat.
Proof.
  rewrite mergeDataPoints_unfold. intros Hout.
  apply mergeLoop_submseteq in Hout as [Hsub _]. simpl in Hsub.
  assert (Hsub' : out ⊆+ dataPoints).
  { etrans; [exact Hsub|]. apply Permutation_submseteq.
    symmetry. apply (array_sort_perm start). }
  split; [done|]. split.
  - intros p Hp. by eapply elem_of_submseteq.
  - by apply submseteq_length.
Qed.

Lemma mergeDataPoints_selects_inputs_witness :
  mergeDataPoints [chain_low; chain_mid; chain_high] table_chain = Ok [chain_high] /\
  [chain_high] ⊆+ [chain_low; chain_mid; chain_high].
Proof.
  assert (H : mergeDataPoints [chain_low; chain_mid; chain_high] table_chain
              = Ok [chain_high]) by reflexivity.
  split; [exact H|].
  exact (proj1 (mergeDataPoints_selects_inputs _ _ _ H)).
Defined.

(** A merge that returns, of an input that is not empty, returns a list
    that is not empty: the first point visited is appended and no later
    step shortens the list. *)
Theorem mergeDataPoints_keeps_something dataPoints providerPriorities out :
  dataPoints <> [] ->
  mergeDataPoints dataPoints providerPriorities = Ok out ->
  out <> [].
Proof.
  intros Hne. rewrite mergeDataPoints_unfold.
  destruct (array_sort byStart dataPoints) as [|point rest] eqn:Hsorted.
  - assert (Hperm : Permutation dataPoints (array_sort byStart dataPoints))
      by apply (array_sort_perm start).
    rewrite Hsorted in Hperm. by apply Permutation_nil_r in Hperm.
  - change (mergeLoop providerPriorities (point :: rest) [])
      with (mergeLoop providerPriorities rest [point]).
    intros Hloop.
    apply mergeLoop_submseteq in Hloop as [_ Hlen]. simpl in Hlen.
    destruct out; [simpl in Hlen; lia|done].
Qed.

Lemma mergeDataPoints_keeps_something_witness :
  [fever_A; fever_B] <> [] /\
  mergeDataPoints [fever_A; fever_B] table_AB = Ok [fever_A] /\
  [fever_A] <> [].
Proof.
  assert (H1 : [fever_A; fever_B] <> []) by discriminate.
  assert (H2 : mergeDataPoints [fever_A; fever_B] table_AB = Ok [fever_A])
    by reflexivity.
  split; [exact H1|]. split; [exact H2|].
  exact (mergeDataPoints_keeps_something _ _ _ H1 H2).
Defined.

(** ** The merged timeline *)

Lemma mergeDataPoints_output_facts dataPoints prios out :
  Forall well_formed dataPoints ->
  mergeDataPoints dataPoints prios = Ok out ->
  non_overlapping out /\ ascending out /\ Forall well_formed out.
Proof.
  intros Hwf. rewrite mergeDataPoints_unfold. intros Hout.
  set (sorted := array_sort byStart dataPoints) in *.
  assert (Hperm : Permutation dataPoints sorted) by apply (array_sort_perm start).
  assert (Hsorted : StronglySorted start_le sorted) by apply (array_sort_sorted start).
  split; [|split].
  - eapply mergeLoop_non_overlapping; [exact Hsorted|apply non_overlapping_nil| |exact Hout].
    intros e p He. inversion He.
  - eapply mergeLoop_ascending; [exact Hsorted| | | | | |exact Hout].
    + by rewrite <- Hperm.
    + constructor.
    + apply non_overlapping_nil.
    + intros i j p e _ H. by rewrite lookup_nil in H.
    + intros e p He. inversion He.
  - apply Forall_forall. intros e He.
    destruct (mergeLoop_elem_of _ _ _ _ Hout e He) as [H|H]; [inversion H|].
    rewrite Forall_forall in Hwf. apply Hwf. by rewrite Hperm.
Qed.

(** X3. For well-formed input (no point ends before it starts) the output
    is a timeline in order: every entry ends strictly before the next one,
    and any later one, starts. *)
Theorem mergeDataPoints_timeline dataPoints providerPriorities out :
  Forall well_formed dataPoints ->
  mergeDataPoints dataPoints providerPriorities = Ok out ->
  forall (i j : nat) (p e : DataPoint),
    (i < j)%nat -> out !! i = Some p -> out !! j = Some e ->
    end_ p < start e.
Proof.
  intros Hwf Hout i j p e Hij Hi Hj.
  destruct (mergeDataPoints_output_facts _ _ _ Hwf Hout) as (Hno & Hasc & Hwfo).
  assert (Hse := Hasc i j p e Hij Hi Hj).
  assert (H := Hno i j p e ltac:(lia) Hi Hj). apply overlapsWith_false in H.
  rewrite Forall_forall in Hwfo.
  assert (Hwe : well_formed e) by (apply Hwfo; by eapply list_elem_of_lookup_2).
  unfold well_formed in Hwe. lia.
Qed.

Lemma mergeDataPoints_timeline_witness :
  Forall well_formed [sleep_later; sleep_A] /\
  mergeDataPoints [sleep_later; sleep_A] table_AB = Ok [sleep_A; sleep_later] /\
  end_ sleep_A < start sleep_later.
Proof.
  assert (Hwf : Forall well_formed [sleep_later; sleep_A]).
  { repeat constructor; unfold well_formed, sleep_later, sleep_A, hours; simpl; lia. }
  assert (Hout : mergeDataPoints [sleep_later; sleep_A] table_AB
                 = Ok [sleep_A; sleep_later]) by reflexivity.
  split; [exact Hwf|]. split; [exact Hout|].
  exact (mergeDataPoints_timeline _ _ _ Hwf Hout 0%nat 1%nat sleep_A sleep_later
           ltac:(lia) eq_refl eq_refl).
Defined.

Lemma non_overlapping_cons x l :
  non_overlapping (x :: l) <->
  (forall y, y ∈ l -> overlapsWith x y = false) /\ non_overlapping l.
Proof.
  split.
  - intros Hno. split.
    + intros y Hy. apply list_elem_of_lookup in Hy as [j Hj].
      by apply (Hno 0%nat (S j)).
    + intros i j p e Hij Hi Hj. apply (Hno (S i) (S j)); [lia|done..].
  - intros [Hx Hl] [|i] [|j] p e Hij Hi Hj; simpl in *.
    + done.
    + injection Hi as <-. apply Hx. by eapply list_elem_of_lookup_2.
    + injection Hj as <-. rewrite overlapsWith_sym. apply Hx.
      by eapply list_elem_of_lookup_2.
    + apply (Hl i j); [lia|done..].
Qed.

Lemma non_overlapping_perm l l' :
  Permutation l l' -> non_overlapping l -> non_overlapping l'.
Proof.
  induction 1 as [|x l l' Hperm IH|x y l|l l' l'' _ IH1 _ IH2]; [done| | |auto].
  - rewrite !non_overlapping_cons. intros [Hx Hl]. split; [|auto].
    intros y Hy. apply Hx. by rewrite Hperm.
  - rewrite !non_overlapping_cons. intros (Hy & Hx & Hl).
    split; [|split; [|done]].
    + intros z Hz. apply elem_of_cons in Hz as [->|Hz]; [|auto].
      rewrite overlapsWith_sym. apply Hy. apply list_elem_of_here.
    + intros z Hz. apply Hy. by apply list_elem_of_further.
Qed.

(** The loop over points that lie apart from each other and from the list
    built so far only appends. *)
Lemma mergeLoop_apart prios points : forall merged,
  non_overlapping (merged ++ points) ->
  mergeLoop prios points merged = Ok (merged ++ points).
Proof.
  induction points as [|x points IH]; intros merged Hno; simpl.
  - by rewrite app_nil_r.
  - assert (Hapart : forall e, e ∈ merged -> overlapsWith x e = false).
    { intros e He. apply list_elem_of_lookup in He as [i Hi].
      apply lookup_lt_Some in Hi as Hlt.
      apply (Hno (length merged) i); [lia| |by apply lookup_app_l_Some].
      by rewrite list_lookup_middle. }
    unfold mergeStep. rewrite (proj2 (array_find_None _ _) Hapart). simpl.
    rewrite IH; by rewrite <- app_assoc.
Qed.

(** X4. When no two input points overlap, the merge returns all of them in
    ascending order of their start times (ties in collection order),
    whatever the priority table holds: it is never consulted, so nothing is
    thrown even for unknown sources. *)
Theorem mergeDataPoints_apart dataPoints providerPriorities :
  non_overlapping dataPoints ->
  mergeDataPoints dataPoints providerPriorities
  = Ok (array_sort byStart dataPoints).
Proof.
  intros Hno. rewrite mergeDataPoints_unfold.
  apply (mergeLoop_apart providerPriorities (array_sort byStart dataPoints) []).
  simpl. eapply non_overlapping_perm; [apply (array_sort_perm start)|done].
Qed.

Lemma mergeDataPoints_apart_witness :
  non_overlapping [sleep_later; test_point] /\
  mergeDataPoints [sleep_later; test_point] ∅ = Ok [test_point; sleep_later].
Proof.
  assert (Hno : non_overlapping [sleep_later; test_point]).
  { apply non_overlapping_cons. split.
    - intros y Hy. apply list_elem_of_singleton in Hy as ->. reflexivity.
    - apply non_overlapping_cons. split; [|apply non_overlapping_nil].
      intros y Hy. inversion Hy. }
  split; [exact Hno|].
  exact (mergeDataPoints_apart [sleep_later; test_point] ∅ Hno).
Defined.

Lemma array_sort_sorted_id l :
  StronglySorted start_le l -> array_sort byStart l = l.
Proof.
  induction 1 as [|x l Hs IH Hall]; simpl; [done|]. rewrite IH.
  destruct l as [|y l]; simpl; [done|].
  apply Forall_cons in Hall as [Hxy _]. unfold byStart, start_le in *.
  destruct (0 <? start x - start y) eqn:E; [|done]. lia.
Qed.

(** X5. Merging is idempotent on its own output: for well-formed input,
    merging the returned list again returns it unchanged, with any
    priority table (also one that knows none of the sources). *)
Theorem mergeDataPoints_fixpoint dataPoints providerPriorities otherPriorities out :
  Forall well_formed dataPoints ->
  mergeDataPoints dataPoints providerPriorities = Ok out ->
  mergeDataPoints out otherPriorities = Ok out.
Proof.
  intros Hwf Hout.
  destruct (mergeDataPoints_output_facts _ _ _ Hwf Hout) as (Hno & Hasc & _).
  rewrite mergeDataPoints_unfold.
  rewrite array_sort_sorted_id by (by apply ascending_StronglySorted).
  by apply (mergeLoop_apart otherPriorities out []).
Qed.

Lemma mergeDataPoints_fixpoint_witness :
  Forall well_formed [chain_low; chain_mid; chain_high] /\
  mergeDataPoints [chain_low; chain_mid; chain_high] table_chain = Ok [chain_high] /\
  mergeDataPoints [chain_high] ∅ = Ok [chain_high].
Proof.
  assert (Hwf : Forall well_formed [chain_low; chain_mid; chain_high]).
  { repeat constructor; unfold well_formed; simpl; lia. }
  assert (Hout : mergeDataPoints [chain_low; chain_mid; chain_high] table_chain
                 = Ok [chain_high]) by reflexivity.
  split; [exact Hwf|]. split; [exact Hout|].
  exact (mergeDataPoints_fixpoint _ table_chain ∅ _ Hwf Hout).
Defined.

Lemma start_inj_NoDup (l : list DataPoint) :
  NoDup (map start l) ->
  forall x y, x ∈ l -> y ∈ l -> start x = start y -> x = y.
Proof.
  induction l as [|a l IH]; intros Hnd x y Hx Hy Hxy; [inversion Hx|].
  simpl in Hnd. apply NoDup_cons in Hnd as [Ha Hnd].
  assert (Hstart : forall z, z ∈ l -> start z ∈ map start l).
  { intros z Hz. apply list_elem_of_fmap. by exists z. }
  apply elem_of_cons in Hx as [->|Hx]; apply elem_of_cons in Hy as [->|Hy]; auto.
  - exfalso. apply Ha. rewrite Hxy. by apply Hstart.
  - exfalso. apply Ha. rewrite <- Hxy. by apply Hstart.
Qed.

(** X6. The order of the input matters only through ties of the start
    time: two collections with the same points, all of different start
    times, merge to the same result (the same list or the same error). *)
Theorem mergeDataPoints_order_independent dataPoints dataPoints' providerPriorities :
  Permutation dataPoints dataPoints' ->
  NoDup (map start dataPoints) ->
  mergeDataPoints dataPoints providerPriorities
  = mergeDataPoints dataPoints' providerPriorities.
Proof.
  intros Hperm Hnd. rewrite !mergeDataPoints_unfold. f_equal.
  apply sorted_perm_unique.
  - apply (array_sort_sorted start).
  - apply (array_sort_sorted start).
  - rewrite <- (array_sort_perm start dataPoints), Hperm.
    apply (array_sort_perm start).
  - intros x y Hx Hy. apply (start_inj_NoDup dataPoints Hnd).
    + by rewrite (array_sort_perm start dataPoints).
    + by rewrite (array_sort_perm start dataPoints).
Qed.

Lemma mergeDataPoints_order_independent_witness :
  Permutation [chain_low; chain_mid; chain_high] [chain_high; chain_low; chain_mid] /\
  NoDup (map start [chain_low; chain_mid; chain_high]) /\
  mergeDataPoints [chain_low; chain_mid; chain_high] table_chain
  = mergeDataPoints [chain_high; chain_low; chain_mid] table_chain.
Proof.
  assert (Hperm : Permutation [chain_low; chain_mid; chain_high]
                              [chain_high; chain_low; chain_mid]).
  { symmetry. apply (Permutation_cons_append [chain_low; chain_mid] chain_high). }
  assert (Hnd : NoDup (map start [chain_low; chain_mid; chain_high])).
  { simpl. apply NoDup_cons_2; [|apply NoDup_cons_2; [|apply NoDup_cons_2; [|apply NoDup_nil_2]]].
    - intros Hin. apply elem_of_cons in Hin as [Hin|Hin]; [discriminate Hin|].
      apply list_elem_of_singleton in Hin. discriminate Hin.
    - intros Hin. apply list_elem_of_singleton in Hin. discriminate Hin.
    - intros Hin. inversion Hin. }
  split; [exact Hperm|]. split; [exact Hnd|].
  exact (mergeDataPoints_order_independent _ _ table_chain Hperm Hnd).
Defined.

(** ** Why a point is left out *)

Lemma outranked_mono prios points points' p :
  (forall q, q ∈ points -> q ∈ points') ->
  outranked prios points p -> outranked prios points' p.
Proof.
  intros Hsub (q & pp & pq & Hq & H). exists q, pp, pq. split; [auto|done].
Qed.

Lemma mergeLoop_outranked prios points : forall seen merged out,
  NoDup (seen ++ points) ->
  (forall q, q ∈ seen ++ points -> inherited (source q) = None) ->
  (forall e, e ∈ merged -> e ∈ seen) ->
  (forall p, p ∈ seen -> p ∉ merged -> outranked prios seen p) ->
  mergeLoop prios points merged = Ok out ->
  forall p, p ∈ seen ++ points -> p ∉ out -> outranked prios (seen ++ points) p.
Proof.
  induction points as [|point rest IH];
    intros seen merged out Hnd Hplain Hsub Hinv; simpl.
  - intros [= <-] p Hp Hout. rewrite app_nil_r in *. by apply Hinv.
  - destruct (mergeStep prios merged point) as [merged'|] eqn:Hstep; [|done].
    simpl. intros Hloop.
    rewrite (cons_middle point seen rest), app_assoc in Hnd, Hplain |- *.
    assert (Hnumbers : forall ov cur ex,
              ov ∈ merged ->
              readPriority prios (source point) = Some cur ->
              readPriority prios (source ov) = Some ex ->
              exists c e, cur = JsNumber c /\ ex = JsNumber e /\
                prios !! source point = Some c /\ prios !! source ov = Some e).
    { intros ov cur ex Hov Hcur Hex.
      apply readPriority_plain in Hcur as (c & -> & Hc).
      2:{ apply Hplain, elem_of_app. left. apply elem_of_app. right.
          apply list_elem_of_here. }
      apply readPriority_plain in Hex as (e & -> & He).
      2:{ apply Hplain, elem_of_app. left. apply elem_of_app. left. by apply Hsub. }
      by exists c, e. }
    assert (Hfresh : point ∉ seen).
    { apply NoDup_app in Hnd as (Hnd & _ & _).
      apply NoDup_app in Hnd as (_ & Hdisj & _).
      intros Hin. apply (Hdisj _ Hin). apply list_elem_of_here. }
    assert (Hfrom : forall e, e ∈ merged' -> e ∈ merged \/ e = point).
    { intros e He. apply mergeStep_submseteq in Hstep as [Hs _].
      apply (elem_of_submseteq _ _ _ He) in Hs.
      apply elem_of_app in Hs as [?|Hs]; [by left|].
      right. by apply list_elem_of_singleton in Hs. }
    apply (IH (seen ++ [point]) merged' out Hnd Hplain); [| |done].
    + intros e He. apply elem_of_app. destruct (Hfrom e He) as [?| ->]; [auto|].
      right. apply list_elem_of_here.
    + intros p Hp Hnot.
      assert (Hmono : outranked prios seen p -> outranked prios (seen ++ [point]) p).
      { apply outranked_mono. intros q Hq. apply elem_of_app. by left. }
      apply mergeStep_Ok in Hstep
        as [[_ ->]|(k & ov & cur & ex & Hk & Hov & _ & Hcur & Hex & [[Hlt ->]|[Hle ->]])].
      * apply elem_of_app in Hp as [Hp|Hp].
        -- apply Hmono, Hinv; [done|]. intros Hin. apply Hnot, elem_of_app. by left.
        -- exfalso. apply Hnot, elem_of_app. by right.
      * apply elem_of_app in Hp as [Hp|Hp].
        -- destruct (decide (p ∈ merged)) as [Hin|Hout]; [|by apply Hmono, Hinv].
           apply list_elem_of_lookup in Hin as [i Hi].
           destruct (decide (i = k)) as [->|Hik].
           ++ assert (p = ov) by congruence. subst p.
              destruct (Hnumbers ov cur ex) as (c & e & -> & -> & Hc & He);
                [by eapply list_elem_of_lookup_2|done..|].
              rewrite greater_numbers in Hlt. apply Z.gtb_lt in Hlt.
              exists point, e, c. split; [apply elem_of_app; right; apply list_elem_of_here|].
              split; [congruence|]. repeat split; try done. lia.
           ++ exfalso. apply Hnot. apply list_elem_of_lookup. exists i.
              by rewrite list_lookup_insert_ne.
        -- apply list_elem_of_singleton in Hp as ->. exfalso. apply Hnot.
           apply list_elem_of_lookup. exists k.
           apply list_lookup_insert_eq. by eapply lookup_lt_Some.
      * apply elem_of_app in Hp as [Hp|Hp]; [by apply Hmono, Hinv|].
        apply list_elem_of_singleton in Hp as ->.
        assert (Hovs : ov ∈ seen) by (apply Hsub; by eapply list_elem_of_lookup_2).
        destruct (Hnumbers ov cur ex) as (c & e & -> & -> & Hc & He);
          [by eapply list_elem_of_lookup_2|done..|].
        rewrite greater_numbers, Z.gtb_ltb in Hle. apply Z.ltb_ge in Hle.
        exists ov, c, e. split; [apply elem_of_app; by left|].
        split; [congruence|]. rewrite overlapsWith_sym. by repeat split.
Qed.

(** X7. A point is left out only for a rival: when the points of the input
    are all different, no source names a member of [Object.prototype]
    (which would be read in place of a missing priority) and the merge
    returns, every input point that is not in the output is overlapped by
    another input point whose source has a priority greater than or equal
    to its own. *)
Theorem mergeDataPoints_left_out_for_a_rival dataPoints providerPriorities out p :
  NoDup dataPoints ->
  (forall q, q ∈ dataPoints -> inherited (source q) = None) ->
  mergeDataPoints dataPoints providerPriorities = Ok out ->
  p ∈ dataPoints ->
  p ∉ out ->
  exists q pp pq,
    q ∈ dataPoints /\ q <> p /\ overlapsWith q p = true /\
    providerPriorities !! source p = Some pp /\
    providerPriorities !! source q = Some pq /\
    pp <= pq.
Proof.
  intros Hnd Hplain. rewrite mergeDataPoints_unfold. intros Hout Hp Hnot.
  assert (Hperm : Permutation dataPoints (array_sort byStart dataPoints))
    by apply (array_sort_perm start).
  apply (outranked_mono providerPriorities (array_sort byStart dataPoints)).
  { intros q Hq. by rewrite Hperm. }
  apply (mergeLoop_outranked providerPriorities (array_sort byStart dataPoints)
           [] [] out); simpl; try done.
  - by rewrite <- Hperm.
  - intros q Hq. apply Hplain. by rewrite Hperm.
  - by rewrite <- Hperm.
Qed.

Lemma mergeDataPoints_left_out_for_a_rival_witness :
  NoDup [chain_low; chain_mid; chain_high] /\
  (forall q, q ∈ [chain_low; chain_mid; chain_high] -> inherited (source q) = None) /\
  mergeDataPoints [chain_low; chain_mid; chain_high] table_chain = Ok [chain_high] /\
  chain_mid ∈ [chain_low; chain_mid; chain_high] /\
  (chain_mid ∉ [chain_high]) /\
  exists q pp pq,
    q ∈ [chain_low; chain_mid; chain_high] /\ q <> chain_mid /\
    overlapsWith q chain_mid = true /\
    table_chain !! source chain_mid = Some pp /\
    table_chain !! source q = Some pq /\
    pp <= pq.
Proof.
  assert (Hnd : NoDup [chain_low; chain_mid; chain_high]).
  { apply NoDup_cons_2; [|apply NoDup_cons_2; [|apply NoDup_cons_2; [|apply NoDup_nil_2]]].
    - intros Hin. apply elem_of_cons in Hin as [Hin|Hin]; [discriminate Hin|].
      apply list_elem_of_singleton in Hin. discriminate Hin.
    - intros Hin. apply list_elem_of_singleton in Hin. discriminate Hin.
    - intros Hin. inversion Hin. }
  assert (Hout : mergeDataPoints [chain_low; chain_mid; chain_high] table_chain
                 = Ok [chain_high]) by reflexivity.
  assert (Hin : chain_mid ∈ [chain_low; chain_mid; chain_high])
    by apply list_elem_of_further, list_elem_of_here.
  assert (Hnot : chain_mid ∉ [chain_high]).
  { intros H. apply list_elem_of_singleton in H. discriminate H. }
  assert (Hplain : forall q, q ∈ [chain_low; chain_mid; chain_high] ->
                     inherited (source q) = None).
  { intros q Hq. apply elem_of_cons in Hq as [->|Hq]; [reflexivity|].
    apply elem_of_cons in Hq as [->|Hq]; [reflexivity|].
    apply list_elem_of_singleton in Hq as ->. reflexivity. }
  split; [exact Hnd|]. split; [exact Hplain|]. split; [exact Hout|].
  split; [exact Hin|]. split; [exact Hnot|].
  exact (mergeDataPoints_left_out_for_a_rival _ _ _ _ Hnd Hplain Hout Hin Hnot).
Defined.

(* ================================================================= *)
(** * Further properties of the provider manager *)

(** ** The maps *)

Lemma map_get_None {V} (k : string) (m : list (string * V)) :
  map_get k m = None <-> k ∉ m.*1.
Proof.
  induction m as [|[k' v] m IH]; simpl.
  - split; [intros _ H; inversion H|done].
  - destruct (decide (k' = k)) as [->|Hne].
    + split; [done|]. intros H. exfalso. apply H. apply list_elem_of_here.
    + rewrite IH. rewrite not_elem_of_cons. simpl. split; [by split|by intros [_ ?]].
Qed.

Lemma map_get_Some_elem_of {V} (k : string) (v : V) (m : list (string * V)) :
  map_get k m = Some v -> (k, v) ∈ m.
Proof.
  induction m as [|[k' v'] m IH]; simpl; [done|].
  destruct (decide (k' = k)) as [->|Hne].
  - intros [= ->]. apply list_elem_of_here.
  - intros H. apply list_elem_of_further. auto.
Qed.

Lemma map_set_fresh {V} (k : string) (v : V) (m : list (string * V)) :
  map_get k m = None -> map_set k v m = m ++ [(k, v)].
Proof.
  induction m as [|[k' v'] m IH]; simpl; [done|].
  destruct (decide (k' = k)); [done|]. intros H. by rewrite IH.
Qed.

Lemma map_get_set {V} (k k' : string) (v : V) (m : list (string * V)) :
  map_get k' (map_set k v m) = if decide (k = k') then Some v else map_get k' m.
Proof.
  induction m as [|[k0 v0] m IH]; simpl.
  - destruct (decide (k = k')); done.
  - destruct (decide (k0 = k)) as [->|Hne]; simpl.
    + destruct (decide (k = k')); done.
    + rewrite IH. destruct (decide (k0 = k')) as [->|]; [|done].
      by rewrite decide_False.
Qed.

Lemma map_set_keys {V} (k : string) (v : V) (m : list (string * V)) :
  is_Some (map_get k m) -> (map_set k v m).*1 = m.*1.
Proof.
  induction m as [|[k0 v0] m IH]; simpl; [by intros [? ?]|].
  destruct (decide (k0 = k)) as [->|Hne]; simpl; [done|].
  intros H. f_equal. by apply IH.
Qed.

(** ** Polling timers *)

Lemma stopped_stopped providerId st :
  stopped providerId (stopped providerId st) = stopped providerId st.
Proof.
  unfold stopped. simpl. f_equal.
  - apply list_filter_filter_l. auto.
  - assert (H : filter (timer_of providerId)
             (filter (fun entry => ~ timer_of providerId entry) (pollingIntervals st)) = []).
    { induction (pollingIntervals st) as [|entry l IH]; [done|].
      rewrite (filter_cons (fun entry => ~ timer_of providerId entry)).
      destruct (decide (~ timer_of providerId entry)); [|done].
      by rewrite filter_cons_False. }
    rewrite H. simpl. by rewrite app_nil_r.
Qed.

(** X8. [stopPollingForProvider] never throws.  It clears, in the order of
    the map, the timers whose key starts with the provider id followed by
    "-", removes exactly those and keeps the others in their order.
    Calling it again clears nothing and changes nothing. *)
Theorem stopPollingForProvider_idempotent providerId st :
  stopPollingForProvider providerId st = (stopped providerId st, Ok tt) /\
  stopPollingForProvider providerId (stopped providerId st)
  = (stopped providerId st, Ok tt).
Proof.
  split; [apply stopPollingForProvider_spec|].
  by rewrite stopPollingForProvider_spec, stopped_stopped.
Qed.

(** ** The registry *)

(** What [registerProvider] does to the provider map of an available
    provider that is not registered yet: the provider is appended, whatever
    happens to its realtime stream afterwards. *)
Lemma registerProvider_providers st provider now :
  isAvailable provider = Ok true ->
  map_has (id provider) (providers st) = false ->
  providers (registerProvider provider now st).1
  = providers st ++ [(id provider, provider)].
Proof.
  intros Havail Hhas. unfold registerProvider.
  erewrite bind_Ok by (unfold settle; rewrite Havail; reflexivity). cbn beta iota.
  erewrite bind_Ok by reflexivity. cbn beta. rewrite Hhas.
  erewrite bind_Ok by reflexivity.
  assert (Hget : map_get (id provider) (providers st) = None).
  { unfold map_has in Hhas. by destruct (map_get (id provider) (providers st)). }
  destruct (realtime_supported (config provider)).
  - unfold initializeProviderStream, try_catch.
    erewrite bind_Ok by reflexivity.
    destruct (onData provider now now) as [fn|e] eqn:Hon.
    + erewrite bind_Ok by reflexivity.
      simpl. by apply map_set_fresh.
    + erewrite bind_Throw by reflexivity.
      destruct (isTrackleError e); simpl; by apply map_set_fresh.
  - simpl. by apply map_set_fresh.
Qed.

Lemma registerProvider_providers_same st provider now :
  isAvailable provider <> Ok true \/ map_has (id provider) (providers st) = true ->
  providers (registerProvider provider now st).1 = providers st.
Proof.
  intros Hcase. unfold registerProvider.
  destruct (isAvailable provider) as [[|]|e] eqn:Havail.
  - destruct Hcase as [?|Hhas]; [done|].
    erewrite bind_Ok by reflexivity. cbn beta iota.
    erewrite bind_Ok by reflexivity. cbn beta. by rewrite Hhas.
  - erewrite bind_Ok by reflexivity. reflexivity.
  - erewrite bind_Throw by reflexivity. reflexivity.
Qed.

(** X9. [registerProvider] keeps the registry a map keyed by provider id:
    when no id is registered twice and every entry is stored under the id
    of its provider, the same holds after the call, whether it returned or
    threw. *)
Theorem registerProvider_keeps_registry st provider now :
  registry_ok st ->
  registry_ok (registerProvider provider now st).1.
Proof.
  intros [Hnd Hkeys].
  destruct (isAvailable provider) as [[|]|e] eqn:Havail;
    [destruct (map_has (id provider) (providers st)) eqn:Hhas|..].
  - unfold registry_ok. rewrite registerProvider_providers_same by auto. by split.
  - unfold registry_ok. rewrite registerProvider_providers by done.
    assert (Hget : id provider ∉ (providers st).*1).
    { apply map_get_None. unfold map_has in Hhas.
      by destruct (map_get (id provider) (providers st)). }
    split.
    + rewrite fmap_app. apply NoDup_app. split; [done|]. split.
      * intros k Hk Hk'. apply list_elem_of_singleton in Hk'. by subst k.
      * apply NoDup_singleton.
    + intros k p Hin. apply elem_of_app in Hin as [Hin|Hin]; [by apply Hkeys|].
      apply list_elem_of_singleton in Hin. by injection Hin as -> ->.
  - unfold registry_ok. rewrite registerProvider_providers_same; [by split|].
    left. congruence.
  - unfold registry_ok. rewrite registerProvider_providers_same; [by split|].
    left. congruence.
Qed.

Lemma registerProvider_keeps_registry_witness :
  registry_ok empty_manager /\ registry_ok apple_registered.
Proof.
  assert (H : registry_ok empty_manager).
  { split; [apply NoDup_nil_2|]. intros k p Hin. inversion Hin. }
  split; [exact H|].
  exact (registerProvider_keeps_registry empty_manager apple_like 0 H).
Defined.

(** X10. An available provider that is not registered yet is appended to
    the registry even when its realtime stream cannot be started: the call
    then throws (the typed error of [onData], or [SUBSCRIPTION_ERROR]) and
    the provider stays registered, without a stored cleanup function.
    Without realtime support the call returns and touches nothing else. *)
Theorem registerProvider_registers_before_streaming st provider now :
  isAvailable provider = Ok true ->
  map_has (id provider) (providers st) = false ->
  getAllProviders (registerProvider provider now st).1
  = getAllProviders st ++ [provider] /\
  (realtime_supported (config provider) = false ->
   registerProvider provider now st
   = (mkManager (providers st ++ [(id provider, provider)]) (enabledProviders st)
        (providerSubscriptions st) (dataCallbacks st) (pollingIntervals st)
        (trace st), Ok tt)) /\
  (forall error,
     realtime_supported (config provider) = true ->
     onData provider now now = Throw error ->
     (registerProvider provider now st).2
     = Throw (if isTrackleError error then error
              else HealthDataError SUBSCRIPTION_ERROR
                     ("Failed to initialize data stream for provider " +:+ id provider)) /\
     providerSubscriptions (registerProvider provider now st).1
     = providerSubscriptions st).
Proof.
  intros Havail Hhas.
  assert (Hget : map_get (id provider) (providers st) = None).
  { unfold map_has in Hhas. by destruct (map_get (id provider) (providers st)). }
  split; [|split].
  - unfold getAllProviders. rewrite registerProvider_providers by done.
    by rewrite map_app.
  - intros Hrt. unfold registerProvider.
    erewrite bind_Ok by (unfold settle; rewrite Havail; reflexivity). cbn beta iota.
    erewrite bind_Ok by reflexivity. cbn beta. rewrite Hhas.
    erewrite bind_Ok by reflexivity. rewrite Hrt.
    unfold mret, M_ret, set_providers, modify. simpl. by rewrite map_set_fresh.
  - intros error Hrt Hon. unfold registerProvider.
    erewrite bind_Ok by (unfold settle; rewrite Havail; reflexivity). cbn beta iota.
    erewrite bind_Ok by reflexivity. cbn beta. rewrite Hhas.
    erewrite bind_Ok by reflexivity. rewrite Hrt.
    unfold initializeProviderStream, try_catch.
    erewrite bind_Ok by reflexivity.
    erewrite bind_Throw by (unfold settle; rewrite Hon; reflexivity).
    by destruct (isTrackleError error).
Qed.

Lemma registerProvider_registers_before_streaming_witness :
  isAvailable fitbit_like = Ok true /\
  map_has (id fitbit_like) (providers apple_registered) = false /\
  getAllProviders (registerProvider fitbit_like 3 apple_registered).1
  = getAllProviders apple_registered ++ [fitbit_like].
Proof.
  split; [reflexivity|]. split; [reflexivity|].
  exact (proj1 (registerProvider_registers_before_streaming apple_registered
                  fitbit_like 3 eq_refl eq_refl)).
Defined.

Lemma writePriority_other key n (acc : gmap string Z) k :
  key <> k -> writePriority key n acc !! k = acc !! k.
Proof.
  intros Hne. unfold writePriority. destruct (decide (key = "__proto__")); [done|].
  by rewrite lookup_insert_ne.
Qed.

Lemma writePriority_proto key n (acc : gmap string Z) :
  writePriority key n acc !! "__proto__" = acc !! "__proto__".
Proof.
  unfold writePriority. destruct (decide (key = "__proto__")) as [->|Hne]; [done|].
  by rewrite lookup_insert_ne.
Qed.

Lemma priorityTable_other ps : forall (acc : gmap string Z) k,
  k ∉ map id ps ->
  foldl (fun priorities provider =>
           writePriority (id provider) (priority provider) priorities) acc ps !! k
  = acc !! k.
Proof.
  induction ps as [|a ps IH]; intros acc k Hk; simpl; [done|].
  simpl in Hk. apply not_elem_of_cons in Hk as [Hne Hk].
  rewrite IH by done. by rewrite writePriority_other.
Qed.

Lemma priorityTable_proto ps : forall (acc : gmap string Z),
  foldl (fun priorities provider =>
           writePriority (id provider) (priority provider) priorities) acc ps
    !! "__proto__"
  = acc !! "__proto__".
Proof.
  induction ps as [|a ps IH]; intros acc; simpl; [done|].
  by rewrite IH, writePriority_proto.
Qed.

Lemma priorityTable_member ps : forall (acc : gmap string Z) provider,
  NoDup (map id ps) ->
  provider ∈ ps ->
  id provider <> "__proto__" ->
  foldl (fun priorities p => writePriority (id p) (priority p) priorities) acc ps
    !! id provider
  = Some (priority provider).
Proof.
  induction ps as [|a ps IH]; intros acc provider Hnd Hin Hplain; [inversion Hin|].
  simpl in *. apply NoDup_cons in Hnd as [Ha Hnd].
  apply elem_of_cons in Hin as [->|Hin]; [|by apply IH].
  rewrite priorityTable_other by done. unfold writePriority.
  rewrite decide_False by done. by rewrite lookup_insert_eq.
Qed.

Lemma registry_ok_ids st :
  registry_ok st -> NoDup (map id (getAllProviders st)).
Proof.
  intros [Hnd Hkeys]. unfold getAllProviders.
  assert (Heq : map id (map snd (providers st)) = (providers st).*1).
  { induction (providers st) as [|[k p] l IH]; [done|]. simpl.
    rewrite (Hkeys k p) by apply list_elem_of_here. f_equal.
    apply IH.
    - simpl in Hnd. by apply NoDup_cons in Hnd as [_ ?].
    - intros k' p' Hin. apply Hkeys. by apply list_elem_of_further. }
  by rewrite Heq.
Qed.

(** X11. In a registry keyed by provider id, the priority table of the
    incremental path maps the id of every registered provider to the
    priority of that provider, and holds no other key.  The one id that
    gets no entry is [__proto__]: the assignment under that key is taken
    by the setter inherited from [Object.prototype], which ignores a
    number. *)
Theorem getProviderPriorities_exact st :
  registry_ok st ->
  (forall provider, provider ∈ getAllProviders st ->
     id provider <> "__proto__" ->
     getProviderPriorities st !! id provider = Some (priority provider)) /\
  (forall k, (forall provider, provider ∈ getAllProviders st -> id provider <> k) ->
     getProviderPriorities st !! k = None) /\
  getProviderPriorities st !! "__proto__" = None.
Proof.
  intros Hok. split; [|split].
  - intros provider Hin Hplain. unfold getProviderPriorities, priorityTable.
    apply priorityTable_member; [by apply registry_ok_ids|done..].
  - intros k Hk. unfold getProviderPriorities, priorityTable.
    rewrite priorityTable_other; [apply lookup_empty|].
    intros Hin. apply list_elem_of_fmap in Hin as (p & -> & Hp). by apply (Hk p).
  - unfold getProviderPriorities, priorityTable.
    rewrite priorityTable_proto. apply lookup_empty.
Qed.

Lemma getProviderPriorities_exact_witness :
  registry_ok one_enabled /\
  getProviderPriorities one_enabled !! id fitbit_like = Some (priority fitbit_like) /\
  getProviderPriorities one_enabled !! "google-health" = None.
Proof.
  assert (Hok : registry_ok one_enabled).
  { split.
    - simpl. apply NoDup_cons_2; [|apply NoDup_cons_2; [|apply NoDup_nil_2]].
      + intros Hin. apply list_elem_of_singleton in Hin. discriminate Hin.
      + intros Hin. inversion Hin.
    - intros k p Hin. simpl in Hin.
      apply elem_of_cons in Hin as [Hin|Hin]; [by injection Hin as -> ->|].
      apply list_elem_of_singleton in Hin. by injection Hin as -> ->. }
  split; [exact Hok|]. split.
  - apply (proj1 (getProviderPriorities_exact one_enabled Hok) fitbit_like).
    + apply list_elem_of_further, list_elem_of_here.
    + discriminate.
  - apply (proj1 (proj2 (getProviderPriorities_exact one_enabled Hok)) "google-health").
    intros p Hp. simpl in Hp.
    apply elem_of_cons in Hp as [->|Hp]; [discriminate|].
    apply list_elem_of_singleton in Hp as ->. discriminate.
Defined.

(** ** Providers of a metric *)

Lemma array_sort_ext {A} (cmp1 cmp2 : A -> A -> Z) l :
  (forall a b, cmp1 a b = cmp2 a b) ->
  array_sort cmp1 l = array_sort cmp2 l.
Proof.
  intros Hext. induction l as [|x l IH]; simpl; [done|]. rewrite IH.
  generalize (array_sort cmp2 l). intros l'.
  induction l' as [|y l' IH']; simpl; [done|]. by rewrite Hext, IH'.
Qed.

Lemma list_filter_bool {A} (f : A -> bool) (P : A -> Prop)
    `{!forall x, Decision (P x)} (l : list A) :
  (forall x, f x = true <-> P x) ->
  List.filter f l = filter P l.
Proof.
  intros Hf. induction l as [|x l IH]; simpl; [done|].
  rewrite filter_cons, IH. destruct (f x) eqn:E.
  - rewrite decide_True; [done|]. by apply Hf.
  - rewrite decide_False; [done|]. rewrite <- Hf. congruence.
Qed.

Lemma eligible_filter st metric :
  List.filter
    (fun provider =>
       includes metric (getSupportedMetrics provider) &&
       includes (id provider) (enabledProviders st))
    (map snd (providers st))
  = filter (eligible st metric) (getAllProviders st).
Proof.
  apply list_filter_bool. intros p. unfold eligible, includes.
  rewrite andb_true_iff, !bool_decide_eq_true. done.
Qed.

Lemma getProvidersForMetric_unfold st metric :
  getProvidersForMetric st metric
  = array_sort (fun a b => - priority a - - priority b)
      (filter (eligible st metric) (getAllProviders st)).
Proof.
  unfold getProvidersForMetric. rewrite eligible_filter.
  apply array_sort_ext. intros a b. lia.
Qed.

Lemma StronglySorted_weaken {A} (R R' : A -> A -> Prop) l :
  (forall a b, R a b -> R' a b) ->
  StronglySorted R l -> StronglySorted R' l.
Proof.
  intros Himpl. induction 1 as [|x l Hs IH Hall]; constructor; [done|].
  eapply Forall_impl; [exact Hall|]. auto.
Qed.

(** X12. [getProvidersForMetric] returns exactly the registered providers
    that support the metric and whose id is in the enabled set, in
    descending order of priority. *)
Theorem getProvidersForMetric_sorted st metric :
  (forall provider,
     provider ∈ getProvidersForMetric st metric <->
     provider ∈ getAllProviders st /\
     metric ∈ getSupportedMetrics provider /\
     id provider ∈ enabledProviders st) /\
  StronglySorted (fun a b => priority b <= priority a)
    (getProvidersForMetric st metric).
Proof.
  rewrite getProvidersForMetric_unfold. split.
  - intros p.
    rewrite <- (array_sort_perm (fun p => - priority p)
                  (filter (eligible st metric) (getAllProviders st))).
    rewrite list_elem_of_filter. unfold eligible. tauto.
  - eapply StronglySorted_weaken;
      [|apply (array_sort_sorted (fun p => - priority p))].
    intros a b ?. simpl in *. lia.
Qed.

(** The sort is stable: the elements of one key keep their order. *)
Lemma sort_insert_stable {A} (key : A -> Z) (k : Z) x l :
  filter (fun a => key a = k) (sort_insert (fun a b => key a - key b) x l)
  = filter (fun a => key a = k) (x :: l).
Proof.
  induction l as [|y l IH]; simpl; [done|].
  destruct (0 <? key x - key y) eqn:E; [|done]. apply Z.ltb_lt in E.
  rewrite (filter_cons _ y), IH, !filter_cons.
  destruct (decide (key y = k)), (decide (key x = k)); try done. lia.
Qed.

Lemma array_sort_stable {A} (key : A -> Z) (k : Z) l :
  filter (fun a => key a = k) (array_sort (fun a b => key a - key b) l)
  = filter (fun a => key a = k) l.
Proof.
  induction l as [|x l IH]; simpl; [done|].
  rewrite sort_insert_stable, !filter_cons, IH. done.
Qed.

(** X13. Among the providers of a metric, those of equal priority come in
    the order of their registration: the sort by priority is stable. *)
Theorem getProvidersForMetric_stable st metric (k : Z) :
  filter (fun provider => priority provider = k) (getProvidersForMetric st metric)
  = filter (fun provider =>
              priority provider = k /\
              metric ∈ getSupportedMetrics provider /\
              id provider ∈ enabledProviders st)
      (getAllProviders st).
Proof.
  rewrite getProvidersForMetric_unfold.
  transitivity (filter (fun p => - priority p = - k)
                  (array_sort (fun a b => - priority a - - priority b)
                     (filter (eligible st metric) (getAllProviders st)))).
  { apply list_filter_iff. intros p. lia. }
  rewrite (array_sort_stable (fun p => - priority p)).
  rewrite list_filter_filter. apply list_filter_iff.
  intros p. unfold eligible. split; [intros (? & ? & ?)|intros (? & ? & ?)];
    repeat split; try done; lia.
Qed.

(** ** Realtime streams and listeners *)

(** X14. A successful [initializeProviderStream] stores the cleanup
    function that [onData] returned under the provider id, in place of the
    one stored before, which is not invoked; the entries of the other
    providers stay as they are, and the only call made is [onData]. *)
Theorem initializeProviderStream_replaces st provider startDate now cleanupFn :
  onData provider startDate now = Ok cleanupFn ->
  initializeProviderStream provider startDate now st
  = (add_events [OnDataCalled (id provider) startDate now]
       (with_subscriptions
          (map_set (id provider) cleanupFn (providerSubscriptions st)) st),
     Ok tt) /\
  map_get (id provider)
    (providerSubscriptions (initializeProviderStream provider startDate now st).1)
  = Some cleanupFn /\
  (forall k, k <> id provider ->
     map_get k
       (providerSubscriptions (initializeProviderStream provider startDate now st).1)
     = map_get k (providerSubscriptions st)).
Proof.
  intros Hon.
  assert (Hrun : initializeProviderStream provider startDate now st
    = (add_events [OnDataCalled (id provider) startDate now]
         (with_subscriptions
            (map_set (id provider) cleanupFn (providerSubscriptions st)) st),
       Ok tt)).
  { unfold initializeProviderStream, try_catch.
    erewrite bind_Ok by reflexivity.
    erewrite bind_Ok by (unfold settle; rewrite Hon; reflexivity).
    reflexivity. }
  split; [exact Hrun|]. rewrite Hrun. simpl. split.
  - rewrite map_get_set. by rewrite decide_True.
  - intros k Hk. rewrite map_get_set. by rewrite decide_False.
Qed.

Lemma initializeProviderStream_replaces_witness :
  onData apple_like 7 9 = Ok (Ok tt) /\
  initializeProviderStream apple_like 7 9 failing_teardown
  = (add_events [OnDataCalled "apple-health" 7 9]
       (with_subscriptions [("apple-health", Ok tt)] failing_teardown),
     Ok tt).
Proof.
  split; [reflexivity|].
  exact (proj1 (initializeProviderStream_replaces failing_teardown apple_like 7 9
                  (Ok tt) eq_refl)).
Defined.

(** Subscribing a callback twice is the same as subscribing it once:
    the set of callbacks holds it once, at the place of its first
    subscription. *)
Theorem subscribeToProviderUpdates_idempotent st callback :
  subscribeToProviderUpdates callback (subscribeToProviderUpdates callback st).1
  = ((subscribeToProviderUpdates callback st).1, Ok tt).
Proof.
  unfold subscribeToProviderUpdates, set_dataCallbacks, modify. simpl.
  destruct (bool_decide (lid callback ∈ map lid (dataCallbacks st))) eqn:E.
  - rewrite E. by destruct st.
  - rewrite bool_decide_true; [done|].
    rewrite map_app. apply elem_of_app. right. apply list_elem_of_here.
Qed.

(** X16. The function returned by [subscribeToProviderUpdates] undoes the
    subscription: when the callback was not subscribed before and other
    callbacks are, calling it leaves the manager as it was before the
    subscription. *)
Theorem unsubscribe_undoes_subscribe st callback :
  lid callback ∉ map lid (dataCallbacks st) ->
  dataCallbacks st <> [] ->
  unsubscribe callback (subscribeToProviderUpdates callback st).1 = (st, Ok tt).
Proof.
  intros Hfresh Hne. rewrite subscribe_fresh by done.
  unfold unsubscribe.
  erewrite bind_Ok by reflexivity. erewrite bind_Ok by reflexivity. cbn beta.
  assert (Hfilter : filter (fun c => lid c <> lid callback)
                      (dataCallbacks st ++ [callback]) = dataCallbacks st).
  { rewrite filter_app, filter_cons_False by auto. simpl. rewrite app_nil_r.
    apply filter_all. intros c Hc Heq. apply Hfresh. rewrite <- Heq.
    apply list_elem_of_fmap. by exists c. }
  simpl. rewrite Hfilter.
  destruct (dataCallbacks st) as [|c cs] eqn:Hcbs; [done|]. simpl.
  unfold mret, M_ret. f_equal. destruct st; simpl in *. by rewrite Hcbs.
Qed.

Lemma unsubscribe_undoes_subscribe_witness :
  (lid throwing_listener ∉ map lid (dataCallbacks one_enabled)) /\
  dataCallbacks one_enabled <> [] /\
  unsubscribe throwing_listener
    (subscribeToProviderUpdates throwing_listener one_enabled).1
  = (one_enabled, Ok tt).
Proof.
  assert (H1 : lid throwing_listener ∉ map lid (dataCallbacks one_enabled)).
  { intros Hin. apply list_elem_of_singleton in Hin. discriminate Hin. }
  assert (H2 : dataCallbacks one_enabled <> []) by discriminate.
  split; [exact H1|]. split; [exact H2|].
  exact (unsubscribe_undoes_subscribe one_enabled throwing_listener H1 H2).
Defined.

(** The loop of [cleanupAllSubscriptions] over cleanup functions that all
    return. *)
Lemma cleanup_loop_all_return subscriptions : forall st,
  Forall (fun entry => entry.2 = Ok tt) subscriptions ->
  for_of subscriptions (fun '(providerId, cleanup) =>
      emit (CleanupFnInvoked providerId) ;;
      settle cleanup) st
  = (add_events (map cleanup_call subscriptions) st, Ok tt).
Proof.
  set (body := fun '(providerId, cleanup) => _).
  induction subscriptions as [|[k c] subscriptions IH]; intros st Hall; simpl.
  - by rewrite add_events_nil.
  - apply Forall_cons in Hall as [Hc Hall]. simpl in Hc. subst c.
    erewrite bind_Ok; cycle 1.
    { unfold body. erewrite bind_Ok by reflexivity. reflexivity. }
    rewrite IH by done. by rewrite add_events_app.
Qed.

(** The loop over cleanup functions of which one throws after the ones
    before it returned. *)
Lemma cleanup_loop_first_throw before k e after : forall st,
  Forall (fun entry => entry.2 = Ok tt) before ->
  for_of (before ++ (k, Throw e) :: after) (fun '(providerId, cleanup) =>
      emit (CleanupFnInvoked providerId) ;;
      settle cleanup) st
  = (add_events (map cleanup_call (before ++ [(k, Throw e)])) st, Throw e).
Proof.
  set (body := fun '(providerId, cleanup) => _).
  induction before as [|[k0 c] before IH]; intros st Hall; simpl.
  - erewrite bind_Throw; [reflexivity|].
    unfold body. erewrite bind_Ok by reflexivity. reflexivity.
  - apply Forall_cons in Hall as [Hc Hall]. simpl in Hc. subst c.
    erewrite bind_Ok; cycle 1.
    { unfold body. erewrite bind_Ok by reflexivity. reflexivity. }
    rewrite IH by done. by rewrite add_events_app.
Qed.

Lemma cleanupAllSubscriptions_all_return st :
  Forall (fun entry => entry.2 = Ok tt) (providerSubscriptions st) ->
  cleanupAllSubscriptions st
  = (with_subscriptions []
       (add_events (map cleanup_call (providerSubscriptions st)) st), Ok tt).
Proof.
  intros Hall. unfold cleanupAllSubscriptions, try_catch.
  erewrite bind_Ok by reflexivity. cbn beta.
  erewrite bind_Ok by (by apply cleanup_loop_all_return).
  reflexivity.
Qed.

Lemma cleanupAllSubscriptions_first_throw st before k e after :
  providerSubscriptions st = before ++ (k, Throw e) :: after ->
  Forall (fun entry => entry.2 = Ok tt) before ->
  cleanupAllSubscriptions st
  = (add_events (map cleanup_call (before ++ [(k, Throw e)])) st,
     Throw (HealthDataError CLEANUP_ERROR "Failed to cleanup provider subscriptions")).
Proof.
  intros Hsubs Hall. unfold cleanupAllSubscriptions, try_catch.
  erewrite bind_Ok by reflexivity. cbn beta. rewrite Hsubs.
  erewrite bind_Throw by (by apply cleanup_loop_first_throw).
  reflexivity.
Qed.

(** X17. [cleanupAllSubscriptions] invokes the stored cleanup functions in
    the order of the map.  When all return, the map is emptied.  When one
    throws, the ones after it are not invoked, every entry stays stored,
    and the error thrown is [CLEANUP_ERROR] whatever the cleanup function
    threw, a typed error included. *)
Theorem cleanupAllSubscriptions_outcomes st :
  (Forall (fun entry => entry.2 = Ok tt) (providerSubscriptions st) ->
   cleanupAllSubscriptions st
   = (with_subscriptions []
        (add_events (map cleanup_call (providerSubscriptions st)) st), Ok tt)) /\
  (forall before k e after,
     providerSubscriptions st = before ++ (k, Throw e) :: after ->
     Forall (fun entry => entry.2 = Ok tt) before ->
     cleanupAllSubscriptions st
     = (add_events (map cleanup_call (before ++ [(k, Throw e)])) st,
        Throw (HealthDataError CLEANUP_ERROR
                 "Failed to cleanup provider subscriptions"))).
Proof.
  split.
  - apply cleanupAllSubscriptions_all_return.
  - intros. by eapply cleanupAllSubscriptions_first_throw.
Qed.

Lemma cleanupAllSubscriptions_outcomes_witness :
  providerSubscriptions failing_teardown
  = [] ++ ("apple-health", Throw (PlainError "unsubscribe failed")) :: [] /\
  cleanupAllSubscriptions failing_teardown
  = (add_events [CleanupFnInvoked "apple-health"] failing_teardown,
     Throw (HealthDataError CLEANUP_ERROR "Failed to cleanup provider subscriptions")).
Proof.
  split; [reflexivity|].
  exact (proj2 (cleanupAllSubscriptions_outcomes failing_teardown)
           [] "apple-health" (PlainError "unsubscribe failed") []
           eq_refl (List.Forall_nil _)).
Defined.

(** The two pieces of the teardown make up the whole: a call that is run
    on at once, with nothing in between, ends as the complete teardown
    does. *)
Lemma cleanupAllSubscriptions_split st :
  resumed (cleanupAllSubscriptions_called st) = cleanupAllSubscriptions st.
Proof.
  unfold resumed, cleanupAllSubscriptions_called, cleanupAllSubscriptions,
    cleanupAllSubscriptions_resumed, try_catch.
  erewrite (bind_Ok _ _ st) by reflexivity. cbn beta.
  destruct (providerSubscriptions st) as [|[k [[]|e]] others] eqn:Hsubs; simpl.
  - reflexivity.
  - erewrite bind_Ok by reflexivity. cbn beta. simpl. rewrite Hsubs. simpl.
    rewrite drop_0. reflexivity.
  - reflexivity.
Qed.

(** X18. Unsubscribing the only callback starts the teardown of the
    realtime subscriptions and returns without waiting for it; it never
    throws.  When it returns the set of callbacks is empty and, of the
    stored cleanup functions, only the first has been invoked, whatever
    that function did; every entry is still stored.  When the first
    function returned, the teardown is suspended from the second entry on;
    resumed with the manager as the call left it, it ends as the complete
    teardown does. *)
Theorem unsubscribe_last_listener st callback :
  map lid (dataCallbacks st) = [lid callback] ->
  (providerSubscriptions st = [] ->
   unsubscribe callback st = (with_callbacks [] st, Ok tt)) /\
  (forall providerId cleanup others,
     providerSubscriptions st = (providerId, cleanup) :: others ->
     unsubscribe callback st
     = (add_events [CleanupFnInvoked providerId] (with_callbacks [] st), Ok tt)) /\
  (forall providerId others,
     providerSubscriptions st = (providerId, Ok tt) :: others ->
     cleanupAllSubscriptions_called (with_callbacks [] st)
     = ((unsubscribe callback st).1, Suspended (cleanupAllSubscriptions_resumed 1)) /\
     cleanupAllSubscriptions_resumed 1 (unsubscribe callback st).1
     = cleanupAllSubscriptions (with_callbacks [] st)).
Proof.
  intros Honly.
  assert (Hrun : unsubscribe callback st
                 = ((cleanupAllSubscriptions_called (with_callbacks [] st)).1, Ok tt)).
  { unfold unsubscribe.
    erewrite bind_Ok by reflexivity. erewrite bind_Ok by reflexivity. cbn beta.
    destruct (dataCallbacks st) as [|c [|c' cs]] eqn:Hcbs; try done.
    injection Honly as Hlid. simpl.
    rewrite filter_cons_False by auto. reflexivity. }
  rewrite Hrun. split; [|split].
  - intros Hsubs. unfold cleanupAllSubscriptions_called. simpl. rewrite Hsubs.
    unfold with_callbacks. simpl. by rewrite Hsubs.
  - intros providerId cleanup others Hsubs.
    unfold cleanupAllSubscriptions_called. simpl. rewrite Hsubs.
    by destruct cleanup.
  - intros providerId others Hsubs.
    assert (Hcalled : cleanupAllSubscriptions_called (with_callbacks [] st)
              = (add_events [CleanupFnInvoked providerId] (with_callbacks [] st),
                 Suspended (cleanupAllSubscriptions_resumed 1))).
    { unfold cleanupAllSubscriptions_called. simpl. by rewrite Hsubs. }
    rewrite <- (cleanupAllSubscriptions_split (with_callbacks [] st)).
    rewrite Hcalled. by split.
Qed.

Lemma unsubscribe_last_listener_witness :
  map lid (dataCallbacks two_streams) = [lid quiet_listener] /\
  unsubscribe quiet_listener two_streams
  = (add_events [CleanupFnInvoked "apple-health"] (with_callbacks [] two_streams),
     Ok tt) /\
  cleanupAllSubscriptions_resumed 1 (unsubscribe quiet_listener two_streams).1
  = cleanupAllSubscriptions (with_callbacks [] two_streams).
Proof.
  split; [reflexivity|]. split.
  - exact (proj1 (proj2 (unsubscribe_last_listener two_streams quiet_listener eq_refl))
             "apple-health" (Ok tt) [("google-health", Ok tt)] eq_refl).
  - exact (proj2 (proj2 (proj2 (unsubscribe_last_listener two_streams quiet_listener
                                  eq_refl))
                    "apple-health" [("google-health", Ok tt)] eq_refl)).
Defined.

(** ** Polling ticks *)

(** X19. One polling tick.  A sample with points is delivered to every
    callback, in order, when they all return.  A fetch that throws
    delivers nothing and leaves the manager as it is.  Every failure of
    the tick, a throwing callback included, leaves the tick as the error
    itself when it is typed and as [POLLING_ERROR] otherwise. *)
Theorem pollData_outcomes provider metric startDate now st :
  (forall data,
     getData provider metric startDate now = Ok data ->
     value data <> [] ->
     Forall (fun c => react c metric data = Ok tt) (dataCallbacks st) ->
     pollData provider metric startDate now st
     = (add_events (map (delivery metric data) (dataCallbacks st)) st, Ok tt)) /\
  (forall error,
     getData provider metric startDate now = Throw error ->
     pollData provider metric startDate now st
     = (st, Throw (if isTrackleError error then error
                   else HealthDataError POLLING_ERROR
                          ("Failed to poll data for provider " +:+ id provider)))) /\
  (forall data before l after error,
     getData provider metric startDate now = Ok data ->
     value data <> [] ->
     dataCallbacks st = before ++ l :: after ->
     Forall (fun c => react c metric data = Ok tt) before ->
     react l metric data = Throw error ->
     pollData provider metric startDate now st
     = (add_events (map (delivery metric data) (before ++ [l])) st,
        Throw (if isTrackleError error then error
               else HealthDataError POLLING_ERROR
                      ("Failed to poll data for provider " +:+ id provider)))).
Proof.
  assert (Hvalid : forall data, value data <> [] -> hasValidData metric data = true).
  { intros data Hne. unfold hasValidData. by destruct (value data). }
  split; [|split].
  - intros data Hdata Hne Hall. unfold pollData, try_catch.
    erewrite bind_Ok by (unfold settle; rewrite Hdata; reflexivity).
    rewrite (Hvalid data Hne), notifyCallbacks_unfold.
    by rewrite notify_loop_all_return.
  - intros error Hdata. unfold pollData, try_catch.
    erewrite bind_Throw by (unfold settle; rewrite Hdata; reflexivity).
    by destruct (isTrackleError error).
  - intros data before l after error Hdata Hne Hcbs Hall Hl.
    unfold pollData, try_catch.
    erewrite bind_Ok by (unfold settle; rewrite Hdata; reflexivity).
    rewrite (Hvalid data Hne), notifyCallbacks_unfold, Hcbs.
    rewrite (notify_loop_first_throw _ _ _ _ _ error) by done.
    by destruct (isTrackleError error).
Qed.

Lemma pollData_outcomes_witness :
  getData fitbit_like illness 0 (hours 9) = Throw (PlainError "Network request failed") /\
  pollData fitbit_like illness 0 (hours 9) one_enabled
  = (one_enabled,
     Throw (HealthDataError POLLING_ERROR "Failed to poll data for provider fitbit")).
Proof.
  split; [reflexivity|].
  exact (proj1 (proj2 (pollData_outcomes fitbit_like illness 0 (hours 9) one_enabled))
           (PlainError "Network request failed") eq_refl).
Defined.

(** ** Teardown of an unknown provider *)

(** X20. [disableProvider] for an id that is neither registered nor has a
    stored cleanup function returns without error: it stops the timers
    whose key starts with the id and calls no [cleanUp]. *)
Theorem disableProvider_unknown st providerId :
  map_get providerId (providerSubscriptions st) = None ->
  map_get providerId (providers st) = None ->
  disableProvider providerId st = (stopped providerId st, Ok tt).
Proof.
  intros Hsub Hprov. unfold disableProvider.
  erewrite bind_Ok by reflexivity. cbn beta. rewrite Hsub.
  erewrite bind_Ok by reflexivity.
  erewrite bind_Ok by apply stopPollingForProvider_spec.
  erewrite bind_Ok by reflexivity. cbn beta.
  change (providers (stopped providerId st)) with (providers st).
  by rewrite Hprov.
Qed.

Lemma disableProvider_unknown_witness :
  map_get "garmin" (providerSubscriptions polling_only) = None /\
  map_get "garmin" (providers polling_only) = None /\
  disableProvider "garmin" polling_only = (stopped "garmin" polling_only, Ok tt).
Proof.
  split; [reflexivity|]. split; [reflexivity|].
  exact (disableProvider_unknown polling_only "garmin" eq_refl eq_refl).
Defined.

(** ** Enabling a provider *)

Lemma prefix_app (s t : string) : String.prefix s (s +:+ t) = true.
Proof.
  induction s as [|a s IH]; simpl; [by destruct t|].
  destruct (Ascii.ascii_dec a a); [exact IH|done].
Qed.

Lemma metric_name_inj m1 m2 : metric_name m1 = metric_name m2 -> m1 = m2.
Proof. destruct m1, m2; simpl; congruence. Qed.

Lemma app_prefix_inj (s t1 t2 : string) : s +:+ t1 = s +:+ t2 -> t1 = t2.
Proof. induction s as [|a s IH]; simpl; [done|]. intros [= H]. auto. Qed.

Section EnablingFacts.
Context (HEALTH_METRICS : list HealthMetric) (POLLING_INTERVAL : Z).
Context (init : HealthDataProvider -> result unit).
Context (requestPermissions : HealthDataProvider -> list HealthMetric -> result unit).
Context (setInterval : Manager -> string -> Z -> nat).

(** X21. [enableProvider] for an id that is not registered throws
    [PROVIDER_NOT_FOUND] and leaves the manager as it is: no provider
    method is called, no stream and no timer is started. *)
Theorem enableProvider_unknown st providerId queryStartDate now :
  map_get providerId (providers st) = None ->
  enableProvider HEALTH_METRICS POLLING_INTERVAL init requestPermissions setInterval
    providerId queryStartDate now st
  = (st, Throw (HealthDataError PROVIDER_NOT_FOUND
                  ("Provider " +:+ providerId +:+ " not found"))).
Proof.
  intros Hget. unfold enableProvider.
  erewrite bind_Ok by reflexivity. cbn beta. by rewrite Hget.
Qed.

(** X22. When [init] or, after it, [requestPermissions] fails,
    [enableProvider] throws that error if it is typed and
    [PROVIDER_INIT_FAILED] otherwise, and the manager is as before: no
    stream and no timer has been started. *)
Theorem enableProvider_init_failure st providerId provider queryStartDate now error :
  map_get providerId (providers st) = Some provider ->
  init provider = Throw error \/
    (init provider = Ok tt /\ requestPermissions provider HEALTH_METRICS = Throw error) ->
  enableProvider HEALTH_METRICS POLLING_INTERVAL init requestPermissions setInterval
    providerId queryStartDate now st
  = (st, Throw (if isTrackleError error then error
                else HealthDataError PROVIDER_INIT_FAILED
                       ("Failed to initialize provider " +:+ providerId))).
Proof.
  intros Hget Hfail. unfold enableProvider.
  erewrite bind_Ok by reflexivity. cbn beta. rewrite Hget. unfold try_catch.
  destruct Hfail as [Hinit|[Hinit Hperm]].
  - erewrite bind_Throw by (unfold settle; rewrite Hinit; reflexivity).
    by destruct (isTrackleError error).
  - erewrite bind_Ok by (unfold settle; rewrite Hinit; reflexivity).
    erewrite bind_Throw by (unfold settle; rewrite Hperm; reflexivity).
    by destruct (isTrackleError error).
Qed.
End EnablingFacts.

Lemma enableProvider_unknown_witness :
  map_get "garmin" (providers one_enabled) = None /\
  enableProvider [sleep; illness; stress] 300000 (fun _ => Ok tt) (fun _ _ => Ok tt)
    (fun _ _ _ => 0%nat) "garmin" 0 (hours 9) one_enabled
  = (one_enabled, Throw (HealthDataError PROVIDER_NOT_FOUND "Provider garmin not found")).
Proof.
  split; [reflexivity|].
  exact (enableProvider_unknown [sleep; illness; stress] 300000 (fun _ => Ok tt)
           (fun _ _ => Ok tt) (fun _ _ _ => 0%nat) one_enabled "garmin" 0 (hours 9)
           eq_refl).
Defined.

Lemma enableProvider_init_failure_witness :
  map_get "fitbit" (providers one_enabled) = Some fitbit_like /\
  enableProvider [sleep; illness; stress] 300000
    (fun _ => Throw (PlainError "prompt dismissed")) (fun _ _ => Ok tt)
    (fun _ _ _ => 0%nat) "fitbit" 0 (hours 9) one_enabled
  = (one_enabled,
     Throw (HealthDataError PROVIDER_INIT_FAILED "Failed to initialize provider fitbit")).
Proof.
  split; [reflexivity|].
  exact (enableProvider_init_failure [sleep; illness; stress] 300000
           (fun _ => Throw (PlainError "prompt dismissed")) (fun _ _ => Ok tt)
           (fun _ _ _ => 0%nat) one_enabled "fitbit" fitbit_like 0 (hours 9)
           (PlainError "prompt dismissed") eq_refl (or_introl eq_refl)).
Defined.

(** ** Starting the polling *)

Lemma string_app_assoc (s t u : string) : (s +:+ t) +:+ u = s +:+ t +:+ u.
Proof.
  induction s as [|a s IH]; [done|].
  change ((String a s +:+ t) +:+ u) with (String a ((s +:+ t) +:+ u)).
  change (String a s +:+ t +:+ u) with (String a (s +:+ t +:+ u)).
  by rewrite IH.
Qed.

Lemma timer_key_prefix providerId metric interval :
  timer_of providerId (providerId +:+ "-" +:+ metric_name metric, interval).
Proof.
  unfold timer_of. simpl. rewrite <- string_app_assoc. apply prefix_app.
Qed.

Section PollingFacts.
Context (POLLING_INTERVAL : Z) (setInterval : Manager -> string -> Z -> nat).

(** The loop of [startPollingForProvider] over metrics that have no timer
    yet: one entry per metric is appended. *)
Lemma start_loop provider metrics : forall st,
  NoDup metrics ->
  (forall metric, metric ∈ metrics ->
     id provider +:+ "-" +:+ metric_name metric ∉ (pollingIntervals st).*1) ->
  exists timers,
    for_of metrics (fun metric =>
      st ← gets (fun st => st);
      let interval :=
        setInterval st (id provider +:+ "-" +:+ metric_name metric)
          (if POLLING_INTERVAL <? polling_minIntervalMs (config provider)
           then polling_minIntervalMs (config provider)
           else POLLING_INTERVAL) in
      set_pollingIntervals
        (map_set (id provider +:+ "-" +:+ metric_name metric) interval)) st
    = (with_intervals (pollingIntervals st ++ timers) st, Ok tt) /\
    timers.*1 = map (fun metric => id provider +:+ "-" +:+ metric_name metric) metrics.
Proof.
  set (body := fun metric => _).
  induction metrics as [|metric metrics IH]; intros st Hnd Hfresh.
  - exists []. split; [|done]. simpl. unfold mret, M_ret. f_equal.
    rewrite app_nil_r. by destruct st.
  - apply NoDup_cons in Hnd as [Hm Hnd].
    set (key := id provider +:+ "-" +:+ metric_name metric).
    set (interval := setInterval st key
           (if POLLING_INTERVAL <? polling_minIntervalMs (config provider)
            then polling_minIntervalMs (config provider)
            else POLLING_INTERVAL)).
    assert (Hstep : body metric st
                    = (with_intervals (pollingIntervals st ++ [(key, interval)]) st,
                       Ok tt)).
    { unfold body. erewrite bind_Ok by reflexivity. cbn beta zeta.
      unfold set_pollingIntervals, modify, with_intervals. f_equal. f_equal.
      apply map_set_fresh. apply map_get_None. apply Hfresh. apply list_elem_of_here. }
    destruct (IH (with_intervals (pollingIntervals st ++ [(key, interval)]) st) Hnd)
      as (timers & Hrun & Hkeys).
    { intros m Hin. simpl. rewrite fmap_app. intros Hk.
      apply elem_of_app in Hk as [Hk|Hk].
      - revert Hk. apply Hfresh. by apply list_elem_of_further.
      - apply list_elem_of_singleton in Hk. simpl in Hk.
        apply app_prefix_inj, app_prefix_inj, metric_name_inj in Hk. by subst m. }
    exists ((key, interval) :: timers). split.
    + cbn [for_of]. erewrite bind_Ok by exact Hstep. rewrite Hrun.
      unfold with_intervals. simpl. by rewrite <- app_assoc.
    + change (((key, interval) :: timers).*1) with (key :: timers.*1).
      by rewrite Hkeys.
Qed.

Lemma startPollingForProvider_run st provider startDate :
  polling_supported (config provider) = true ->
  NoDup (getSupportedMetrics provider) ->
  exists timers,
    startPollingForProvider POLLING_INTERVAL setInterval provider startDate st
    = (with_intervals
         (pollingIntervals (stopped (id provider) st) ++ timers)
         (stopped (id provider) st), Ok tt) /\
    timers.*1 = map (fun metric => id provider +:+ "-" +:+ metric_name metric)
                  (getSupportedMetrics provider).
Proof.
  intros Hpoll Hnd. unfold startPollingForProvider. rewrite Hpoll. simpl.
  destruct (start_loop provider (getSupportedMetrics provider)
              (stopped (id provider) st) Hnd) as (timers & Hrun & Hkeys).
  { intros metric _ Hin. simpl in Hin.
    apply list_elem_of_fmap in Hin as ([k i] & Hk & Hin). simpl in Hk. subst k.
    apply list_elem_of_filter in Hin as [Hno _]. apply Hno.
    apply timer_key_prefix. }
  exists timers. split; [|done].
  erewrite bind_Ok by apply stopPollingForProvider_spec. exact Hrun.
Qed.

(** X23. For a provider with polling support whose supported metrics are
    all different, [startPollingForProvider] first clears and removes the
    timers whose key starts with the provider id, then appends one timer
    per supported metric, stored under [<id>-<metric>], in the order of the
    metrics, and returns. *)
Theorem startPollingForProvider_timers st provider startDate :
  polling_supported (config provider) = true ->
  NoDup (getSupportedMetrics provider) ->
  exists timers,
    startPollingForProvider POLLING_INTERVAL setInterval provider startDate st
    = (with_intervals
         (pollingIntervals (stopped (id provider) st) ++ timers)
         (stopped (id provider) st), Ok tt) /\
    timers.*1 = map (fun metric => id provider +:+ "-" +:+ metric_name metric)
                  (getSupportedMetrics provider).
Proof. apply startPollingForProvider_run. Qed.

Lemma timers_of_keys providerId (metrics : list HealthMetric)
    (timers : list (string * nat)) :
  timers.*1 = map (fun metric => providerId +:+ "-" +:+ metric_name metric) metrics ->
  filter (timer_of providerId) timers = timers /\
  filter (fun entry => ~ timer_of providerId entry) timers = [].
Proof.
  revert metrics. induction timers as [|[k i] timers IH]; intros metrics Hkeys; [done|].
  destruct metrics as [|m metrics]; [done|]. injection Hkeys as Hk Hkeys.
  assert (Ht : timer_of providerId (k, i)) by (subst k; apply timer_key_prefix).
  destruct (IH metrics Hkeys) as [IH1 IH2]. split.
  - rewrite filter_cons_True by done. by rewrite IH1.
  - rewrite filter_cons_False by auto. done.
Qed.

(** X24. Starting the polling of a provider again replaces its timers and
    adds none: the second call clears exactly the timers the first call
    created, and the keys of the map are the same after both calls. *)
Theorem startPollingForProvider_restart st provider startDate startDate' :
  polling_supported (config provider) = true ->
  NoDup (getSupportedMetrics provider) ->
  exists st1 st2 timers,
    startPollingForProvider POLLING_INTERVAL setInterval provider startDate st
      = (st1, Ok tt) /\
    startPollingForProvider POLLING_INTERVAL setInterval provider startDate' st1
      = (st2, Ok tt) /\
    filter (timer_of (id provider)) (pollingIntervals st1) = timers /\
    timers.*1 = map (fun metric => id provider +:+ "-" +:+ metric_name metric)
                  (getSupportedMetrics provider) /\
    trace st2 = trace st1 ++ map cleared timers /\
    (pollingIntervals st2).*1 = (pollingIntervals st1).*1.
Proof.
  intros Hpoll Hnd.
  destruct (startPollingForProvider_run st provider startDate Hpoll Hnd)
    as (timers1 & Hrun1 & Hkeys1).
  set (st1 := with_intervals
                (pollingIntervals (stopped (id provider) st) ++ timers1)
                (stopped (id provider) st)) in *.
  destruct (startPollingForProvider_run st1 provider startDate' Hpoll Hnd)
    as (timers2 & Hrun2 & Hkeys2).
  destruct (timers_of_keys _ _ _ Hkeys1) as [Hin Hout].
  assert (Hkept : filter (fun entry => ~ timer_of (id provider) entry)
                    (pollingIntervals st1)
                  = pollingIntervals (stopped (id provider) st)).
  { simpl. rewrite filter_app, Hout, app_nil_r.
    apply list_filter_filter_l. auto. }
  assert (Hmine : filter (timer_of (id provider)) (pollingIntervals st1) = timers1).
  { simpl. rewrite filter_app, Hin.
    assert (H : filter (timer_of (id provider))
               (filter (fun entry => ~ timer_of (id provider) entry)
                  (pollingIntervals st)) = []).
    { induction (pollingIntervals st) as [|entry l IH]; [done|].
      rewrite (filter_cons (fun entry => ~ timer_of (id provider) entry)).
      destruct (decide (~ timer_of (id provider) entry)); [|done].
      by rewrite filter_cons_False. }
    by rewrite H. }
  eexists st1, _, timers1. split; [exact Hrun1|]. split; [exact Hrun2|].
  split; [exact Hmine|]. split; [exact Hkeys1|]. split.
  - change (trace (stopped (id provider) st1)
            = trace st1 ++ map cleared timers1).
    unfold stopped at 1. cbn [trace]. by rewrite Hmine.
  - change ((filter (fun entry => ~ timer_of (id provider) entry)
               (pollingIntervals st1) ++ timers2).*1
            = (pollingIntervals (stopped (id provider) st) ++ timers1).*1).
    rewrite Hkept, !fmap_app. by rewrite Hkeys1, Hkeys2.
Qed.
End PollingFacts.

Lemma startPollingForProvider_timers_witness :
  polling_supported (config fitbit_like) = true /\
  NoDup (getSupportedMetrics fitbit_like) /\
  exists timers,
    startPollingForProvider 300000 (fun _ _ _ => 9%nat) fitbit_like 0 polling_only
    = (with_intervals
         (pollingIntervals (stopped (id fitbit_like) polling_only) ++ timers)
         (stopped (id fitbit_like) polling_only), Ok tt) /\
    timers.*1 = map (fun metric => id fitbit_like +:+ "-" +:+ metric_name metric)
                  (getSupportedMetrics fitbit_like).
Proof.
  assert (Hnd : NoDup (getSupportedMetrics fitbit_like)).
  { simpl. apply NoDup_cons_2; [|apply NoDup_cons_2; [|apply NoDup_nil_2]].
    - intros Hin. apply list_elem_of_singleton in Hin. discriminate Hin.
    - intros Hin. inversion Hin. }
  split; [reflexivity|]. split; [exact Hnd|].
  exact (startPollingForProvider_timers 300000 (fun _ _ _ => 9%nat) polling_only
           fitbit_like 0 eq_refl Hnd).
Defined.

Lemma startPollingForProvider_restart_witness :
  polling_supported (config fitbit_like) = true /\
  NoDup (getSupportedMetrics fitbit_like) /\
  exists st1 st2 timers,
    startPollingForProvider 300000 (fun _ _ _ => 9%nat) fitbit_like 0 polling_only
      = (st1, Ok tt) /\
    startPollingForProvider 300000 (fun _ _ _ => 9%nat) fitbit_like 5 st1
      = (st2, Ok tt) /\
    filter (timer_of (id fitbit_like)) (pollingIntervals st1) = timers /\
    timers.*1 = map (fun metric => id fitbit_like +:+ "-" +:+ metric_name metric)
                  (getSupportedMetrics fitbit_like) /\
    trace st2 = trace st1 ++ map cleared timers /\
    (pollingIntervals st2).*1 = (pollingIntervals st1).*1.
Proof.
  assert (Hnd : NoDup (getSupportedMetrics fitbit_like)).
  { simpl. apply NoDup_cons_2; [|apply NoDup_cons_2; [|apply NoDup_nil_2]].
    - intros Hin. apply list_elem_of_singleton in Hin. discriminate Hin.
    - intros Hin. inversion Hin. }
  split; [reflexivity|]. split; [exact Hnd|].
  exact (startPollingForProvider_restart 300000 (fun _ _ _ => 9%nat) polling_only
           fitbit_like 0 5 eq_refl Hnd).
Defined.

(** ** After a teardown *)

Lemma map_get_delete {V} (k : string) (m : list (string * V)) :
  map_get k (map_delete k m) = None.
Proof.
  apply map_get_None. intros Hin.
  apply list_elem_of_fmap in Hin as ([k' v] & Hk & Hin). simpl in Hk. subst k'.
  unfold map_delete in Hin. apply list_elem_of_filter in Hin as [Hne _]. by apply Hne.
Qed.

Lemma stopped_no_timers providerId st :
  filter (timer_of providerId) (pollingIntervals (stopped providerId st)) = [].
Proof.
  simpl. induction (pollingIntervals st) as [|entry l IH]; [done|].
  rewrite (filter_cons (fun entry => ~ timer_of providerId entry)).
  destruct (decide (~ timer_of providerId entry)); [|done].
  by rewrite filter_cons_False.
Qed.

(** X25. Whenever [disableProvider] returns, the provider has no stored
    cleanup function and no timer whose key starts with its id is left. *)
Theorem disableProvider_returns_clean st providerId st' :
  disableProvider providerId st = (st', Ok tt) ->
  map_get providerId (providerSubscriptions st') = None /\
  filter (timer_of providerId) (pollingIntervals st') = [].
Proof.
  unfold disableProvider.
  erewrite bind_Ok by reflexivity. cbn beta.
  destruct (map_get providerId (providerSubscriptions st)) as [[[]|e]|] eqn:Hsub.
  - erewrite bind_Ok; cycle 1.
    { unfold try_catch. erewrite bind_Ok by reflexivity.
      erewrite bind_Ok by reflexivity. reflexivity. }
    erewrite bind_Ok by apply stopPollingForProvider_spec.
    erewrite bind_Ok by reflexivity. cbn beta.
    change (providers (stopped providerId _)) with (providers st).
    destruct (map_get providerId (providers st)) as [provider|].
    + erewrite bind_Ok by reflexivity. unfold settle.
      intros [= <- _]. split; [apply map_get_delete|].
      apply (stopped_no_timers providerId
               (set_providerSubscriptions (map_delete providerId)
                  (add_events [CleanupFnInvoked providerId] st)).1).
    + intros [= <-]. split; [apply map_get_delete|].
      apply (stopped_no_timers providerId
               (set_providerSubscriptions (map_delete providerId)
                  (add_events [CleanupFnInvoked providerId] st)).1).
  - destruct (isTrackleError e) eqn:Htyped.
    + erewrite bind_Throw; [done|].
      unfold try_catch. erewrite bind_Ok by reflexivity.
      erewrite bind_Throw by reflexivity. rewrite Htyped. reflexivity.
    + erewrite bind_Throw; [done|].
      unfold try_catch. erewrite bind_Ok by reflexivity.
      erewrite bind_Throw by reflexivity. rewrite Htyped. reflexivity.
  - erewrite bind_Ok by reflexivity.
    erewrite bind_Ok by apply stopPollingForProvider_spec.
    erewrite bind_Ok by reflexivity. cbn beta.
    change (providers (stopped providerId st)) with (providers st).
    destruct (map_get providerId (providers st)) as [provider|].
    + erewrite bind_Ok by reflexivity. unfold settle.
      intros [= <- _]. split; [exact Hsub|apply stopped_no_timers].
    + intros [= <-]. split; [exact Hsub|apply stopped_no_timers].
Qed.

Lemma disableProvider_returns_clean_witness :
  disableProvider "fitbit" polling_only
  = (add_events [CleanUpCalled "fitbit"] (stopped "fitbit" polling_only), Ok tt) /\
  map_get "fitbit"
    (providerSubscriptions
       (add_events [CleanUpCalled "fitbit"] (stopped "fitbit" polling_only))) = None /\
  filter (timer_of "fitbit")
    (pollingIntervals
       (add_events [CleanUpCalled "fitbit"] (stopped "fitbit" polling_only))) = [].
Proof.
  assert (H : disableProvider "fitbit" polling_only
              = (add_events [CleanUpCalled "fitbit"] (stopped "fitbit" polling_only),
                 Ok tt)) by reflexivity.
  split; [exact H|].
  exact (disableProvider_returns_clean polling_only "fitbit" _ H).
Defined.

(** ** What the methods leave alone *)

Lemma preserves_ret {A} (a : A) : preserves_registry (mret a : M A).
Proof. by intros st. Qed.

Lemma preserves_throw {A} e : preserves_registry (throw e : M A).
Proof. by intros st. Qed.

Lemma preserves_settle {A} (r : result A) : preserves_registry (settle r).
Proof. by intros st. Qed.

Lemma preserves_gets {A} (f : Manager -> A) : preserves_registry (gets f).
Proof. by intros st. Qed.

Lemma preserves_emit ev : preserves_registry (emit ev).
Proof. by intros st. Qed.

Lemma preserves_set_subscriptions f : preserves_registry (set_providerSubscriptions f).
Proof. by intros st. Qed.

Lemma preserves_set_callbacks f : preserves_registry (set_dataCallbacks f).
Proof. by intros st. Qed.

Lemma preserves_set_intervals f : preserves_registry (set_pollingIntervals f).
Proof. by intros st. Qed.

Lemma preserves_bind {A B} (m : M A) (k : A -> M B) :
  preserves_registry m -> (forall a, preserves_registry (k a)) ->
  preserves_registry (m ≫= k).
Proof.
  intros Hm Hk st. unfold mbind, M_bind. specialize (Hm st).
  destruct (m st) as [st' [a|e]]; simpl in *; [|done].
  destruct (Hk a st') as [H1 H2]. destruct Hm as [H3 H4]. split; congruence.
Qed.

Lemma preserves_try_catch {A} (body : M A) handler :
  preserves_registry body -> (forall e, preserves_registry (handler e)) ->
  preserves_registry (try_catch body handler).
Proof.
  intros Hb Hh st. unfold try_catch. specialize (Hb st).
  destruct (body st) as [st' [a|e]]; simpl in *; [done|].
  destruct (Hh e st') as [H1 H2]. destruct Hb as [H3 H4]. split; congruence.
Qed.

Lemma preserves_for_of {A} (xs : list A) (body : A -> M unit) :
  (forall x, preserves_registry (body x)) ->
  preserves_registry (for_of xs body).
Proof.
  intros Hbody. induction xs as [|x xs IH]; simpl.
  - apply preserves_ret.
  - apply preserves_bind; [apply Hbody|]. intros _. exact IH.
Qed.

Lemma preserves_void_cleanup : preserves_registry (void cleanupAllSubscriptions_called).
Proof.
  intros st. unfold void, cleanupAllSubscriptions_called. simpl.
  destruct (providerSubscriptions st) as [|[k [[]|e]] rest]; done.
Qed.

Lemma preserves_rethrow {A} (wrapped : JsError) e :
  preserves_registry (if isTrackleError e then throw e else throw wrapped : M A).
Proof. destruct (isTrackleError e); apply preserves_throw. Qed.

Lemma preserves_notifyCallbacks metric data :
  preserves_registry (notifyCallbacks metric data).
Proof.
  apply preserves_bind; [apply preserves_gets|]. intros callbacks.
  apply preserves_for_of. intros callback.
  apply preserves_bind; [apply preserves_emit|]. intros _. apply preserves_settle.
Qed.

Lemma preserves_initializeProviderStream provider startDate now :
  preserves_registry (initializeProviderStream provider startDate now).
Proof.
  apply preserves_try_catch.
  - apply preserves_bind; [apply preserves_emit|]. intros _.
    apply preserves_bind; [apply preserves_settle|]. intros fn.
    apply preserves_set_subscriptions.
  - intros e. apply preserves_rethrow.
Qed.

Lemma preserves_stopPollingForProvider providerId :
  preserves_registry (stopPollingForProvider providerId).
Proof.
  apply preserves_bind; [apply preserves_gets|]. intros entries.
  apply preserves_for_of. intros [key interval].
  destruct (String.prefix (providerId +:+ "-") key); [|apply preserves_ret].
  apply preserves_bind; [apply preserves_emit|]. intros _.
  apply preserves_set_intervals.
Qed.

Lemma preserves_disableProvider providerId :
  preserves_registry (disableProvider providerId).
Proof.
  apply preserves_bind; [apply preserves_gets|]. intros cleanup.
  apply preserves_bind.
  { destruct cleanup as [cleanup|]; [|apply preserves_ret].
    apply preserves_try_catch.
    - apply preserves_bind; [apply preserves_emit|]. intros _.
      apply preserves_bind; [apply preserves_settle|]. intros _.
      apply preserves_set_subscriptions.
    - intros e. apply preserves_rethrow. }
  intros _. apply preserves_bind; [apply preserves_stopPollingForProvider|].
  intros _. apply preserves_bind; [apply preserves_gets|]. intros provider.
  destruct provider as [provider|]; [|apply preserves_ret].
  apply preserves_bind; [apply preserves_emit|]. intros _. apply preserves_settle.
Qed.

Lemma preserves_pollData provider metric startDate now :
  preserves_registry (pollData provider metric startDate now).
Proof.
  apply preserves_try_catch.
  - apply preserves_bind; [apply preserves_settle|]. intros data.
    destruct (hasValidData metric data);
      [apply preserves_notifyCallbacks|apply preserves_ret].
  - intros e. apply preserves_rethrow.
Qed.

Lemma preserves_cleanupAllSubscriptions :
  preserves_registry cleanupAllSubscriptions.
Proof.
  apply preserves_try_catch; [|intros e; apply preserves_throw].
  apply preserves_bind; [apply preserves_gets|]. intros subscriptions.
  apply preserves_bind; [|intros _; apply preserves_set_subscriptions].
  apply preserves_for_of. intros [providerId cleanup].
  apply preserves_bind; [apply preserves_emit|]. intros _. apply preserves_settle.
Qed.

Lemma preserves_unsubscribe callback : preserves_registry (unsubscribe callback).
Proof.
  apply preserves_bind; [apply preserves_set_callbacks|]. intros _.
  apply preserves_bind; [apply preserves_gets|]. intros callbacks.
  destruct (length callbacks =? 0)%nat; [|apply preserves_ret].
  apply preserves_void_cleanup.
Qed.

Lemma preserves_finalize : preserves_registry finalize.
Proof.
  apply preserves_bind; [apply preserves_void_cleanup|]. intros _.
  apply preserves_bind; [apply preserves_gets|]. intros intervals.
  apply preserves_bind; [|intros _; apply preserves_set_intervals].
  apply preserves_for_of. intros [key interval]. apply preserves_emit.
Qed.

Section FrameFacts.
Context (HEALTH_METRICS : list HealthMetric) (POLLING_INTERVAL : Z).
Context (init : HealthDataProvider -> result unit).
Context (requestPermissions : HealthDataProvider -> list HealthMetric -> result unit).
Context (setInterval : Manager -> string -> Z -> nat).

Lemma preserves_startPollingForProvider provider startDate :
  preserves_registry
    (startPollingForProvider POLLING_INTERVAL setInterval provider startDate).
Proof.
  unfold startPollingForProvider.
  destruct (negb (polling_supported (config provider))); [apply preserves_ret|].
  apply preserves_bind; [apply preserves_stopPollingForProvider|]. intros _.
  apply preserves_for_of. intros metric.
  apply preserves_bind; [apply preserves_gets|]. intros st.
  apply preserves_set_intervals.
Qed.

Lemma preserves_enableProvider providerId queryStartDate now :
  preserves_registry
    (enableProvider HEALTH_METRICS POLLING_INTERVAL init requestPermissions
       setInterval providerId queryStartDate now).
Proof.
  apply preserves_bind; [apply preserves_gets|]. intros provider.
  destruct provider as [provider|]; [|apply preserves_throw].
  apply preserves_try_catch; [|intros e; apply preserves_rethrow].
  apply preserves_bind; [apply preserves_settle|]. intros _.
  apply preserves_bind; [apply preserves_settle|]. intros _.
  apply preserves_bind.
  { destruct (realtime_supported (config provider));
      [apply preserves_initializeProviderStream|apply preserves_ret]. }
  intros _. destruct (polling_supported (config provider));
    [apply preserves_startPollingForProvider|apply preserves_ret].
Qed.

(** X26. Of the methods of the manager only [registerProvider] changes the
    provider map, and none writes the enabled set: enabling, disabling,
    starting and stopping the polling, a polling tick, a notification,
    starting a stream, the teardown of the subscriptions, unsubscribing
    and [finalize] leave both as they are, whether they return or throw. *)
Theorem manager_methods_preserve_registry :
  (forall providerId queryStartDate now,
     preserves_registry
       (enableProvider HEALTH_METRICS POLLING_INTERVAL init requestPermissions
          setInterval providerId queryStartDate now)) /\
  (forall providerId, preserves_registry (disableProvider providerId)) /\
  (forall provider startDate,
     preserves_registry
       (startPollingForProvider POLLING_INTERVAL setInterval provider startDate)) /\
  (forall providerId, preserves_registry (stopPollingForProvider providerId)) /\
  (forall provider metric startDate now,
     preserves_registry (pollData provider metric startDate now)) /\
  (forall metric data, preserves_registry (notifyCallbacks metric data)) /\
  (forall provider startDate now,
     preserves_registry (initializeProviderStream provider startDate now)) /\
  preserves_registry cleanupAllSubscriptions /\
  (forall callback, preserves_registry (unsubscribe callback)) /\
  preserves_registry finalize.
Proof.
  repeat split; intros;
    first [ apply preserves_enableProvider | apply preserves_disableProvider
          | apply preserves_startPollingForProvider
          | apply preserves_stopPollingForProvider | apply preserves_pollData
          | apply preserves_notifyCallbacks
          | apply preserves_initializeProviderStream
          | apply preserves_cleanupAllSubscriptions | apply preserves_unsubscribe
          | apply preserves_finalize ].
Qed.
End FrameFacts.

(** ** Toggling a provider *)

Lemma getProvidersForMetric_elem_of st metric provider :
  provider ∈ getProvidersForMetric st metric <->
  provider ∈ getAllProviders st /\ eligible st metric provider.
Proof.
  rewrite getProvidersForMetric_unfold.
  rewrite <- (array_sort_perm (fun p => - priority p)
                (filter (eligible st metric) (getAllProviders st))).
  rewrite list_elem_of_filter. tauto.
Qed.

Section ToggleFacts.
Context (HEALTH_METRICS : list HealthMetric) (POLLING_INTERVAL : Z).
Context (init : HealthDataProvider -> result unit).
Context (requestPermissions : HealthDataProvider -> list HealthMetric -> result unit).
Context (setInterval : Manager -> string -> Z -> nat).

(** X27. Toggling a provider.  When the teardown returns, the id is
    removed from the enabled set (every copy of it), the error is reset,
    and the provider, still registered, no longer takes part in the bulk
    consolidation of any metric.  When enabling returns, the id is appended
    to the enabled set and a registered provider takes part in the
    consolidation of every metric it supports.  When either throws, the
    enabled set is as before, and the error field takes the message of a
    typed error and keeps its value on an untyped one. *)
Theorem toggleProvider_outcomes st st' provider startDate now error :
  (disableProvider (id provider) st = (st', Ok tt) ->
   exists st'',
     toggleProvider HEALTH_METRICS POLLING_INTERVAL init requestPermissions
       setInterval provider false startDate now st error = (st'', None) /\
     enabledProviders st''
       = filter (fun p => p <> id provider) (enabledProviders st) /\
     providers st'' = providers st /\
     forall metric, provider ∉ getProvidersForMetric st'' metric) /\
  (enableProvider HEALTH_METRICS POLLING_INTERVAL init requestPermissions
     setInterval (id provider) startDate now st = (st', Ok tt) ->
   exists st'',
     toggleProvider HEALTH_METRICS POLLING_INTERVAL init requestPermissions
       setInterval provider true startDate now st error = (st'', None) /\
     enabledProviders st'' = enabledProviders st ++ [id provider] /\
     providers st'' = providers st /\
     forall metric,
       provider ∈ getAllProviders st ->
       metric ∈ getSupportedMetrics provider ->
       provider ∈ getProvidersForMetric st'' metric) /\
  (forall (enabled : bool) e,
     (if enabled
      then enableProvider HEALTH_METRICS POLLING_INTERVAL init requestPermissions
             setInterval (id provider) startDate now st
      else disableProvider (id provider) st) = (st', Throw e) ->
     toggleProvider HEALTH_METRICS POLLING_INTERVAL init requestPermissions
       setInterval provider enabled startDate now st error
     = (st', if isTrackleError e then Some (error_message e) else error) /\
     enabledProviders st' = enabledProviders st).
Proof.
  split; [|split].
  - intros Hrun.
    destruct (preserves_disableProvider (id provider) st) as [Hp He].
    rewrite Hrun in Hp, He. simpl in Hp, He.
    exists (set_enabledProviders (filter (fun p => p <> id provider)) st').1.
    split; [unfold toggleProvider; rewrite Hrun; reflexivity|].
    simpl. rewrite He, Hp. split; [done|]. split; [done|].
    intros metric Hin. apply getProvidersForMetric_elem_of in Hin as [_ [_ Hen]].
    simpl in Hen.
    apply list_elem_of_filter in Hen as [Hne _]. by apply Hne.
  - intros Hrun.
    destruct (preserves_enableProvider HEALTH_METRICS POLLING_INTERVAL init
                requestPermissions setInterval (id provider) startDate now st)
      as [Hp He].
    rewrite Hrun in Hp, He. simpl in Hp, He.
    exists (set_enabledProviders (fun prev => prev ++ [id provider]) st').1.
    split; [unfold toggleProvider; rewrite Hrun; reflexivity|].
    simpl. rewrite He, Hp. split; [done|]. split; [done|].
    intros metric Hreg Hsup. apply getProvidersForMetric_elem_of. split.
    + exact Hreg.
    + split; [done|]. simpl. apply elem_of_app. right.
      apply list_elem_of_here.
  - intros enabled e Hrun. destruct enabled.
    + destruct (preserves_enableProvider HEALTH_METRICS POLLING_INTERVAL init
                  requestPermissions setInterval (id provider) startDate now st)
        as [_ He].
      rewrite Hrun in He. simpl in He. split; [|done].
      unfold toggleProvider. rewrite Hrun. by destruct (isTrackleError e).
    + destruct (preserves_disableProvider (id provider) st) as [_ He].
      rewrite Hrun in He. simpl in He. split; [|done].
      unfold toggleProvider. rewrite Hrun. by destruct (isTrackleError e).
Qed.
End ToggleFacts.

Lemma toggleProvider_outcomes_witness :
  disableProvider (id apple_like) failing_teardown
  = (add_events [CleanupFnInvoked "apple-health"] failing_teardown,
     Throw (HealthDataError CLEANUP_ERROR "Failed to clean up provider apple-health")) /\
  toggleProvider [sleep; illness; stress] 300000 (fun _ => Ok tt) (fun _ _ => Ok tt)
    (fun _ _ _ => 0%nat) apple_like false 0 (hours 9) failing_teardown None
  = (add_events [CleanupFnInvoked "apple-health"] failing_teardown,
     Some "Failed to clean up provider apple-health") /\
  enabledProviders (add_events [CleanupFnInvoked "apple-health"] failing_teardown)
  = enabledProviders failing_teardown.
Proof.
  assert (H : disableProvider (id apple_like) failing_teardown
    = (add_events [CleanupFnInvoked "apple-health"] failing_teardown,
       Throw (HealthDataError CLEANUP_ERROR "Failed to clean up provider apple-health")))
    by reflexivity.
  split; [exact H|].
  exact (proj2 (proj2 (toggleProvider_outcomes [sleep; illness; stress] 300000
                         (fun _ => Ok tt) (fun _ _ => Ok tt) (fun _ _ _ => 0%nat)
                         failing_teardown _ apple_like 0 (hours 9) None))
           false _ H).
Defined.

(** ** Shutdown *)

Lemma clear_loop intervals : forall st,
  for_of intervals (fun '(key, interval) => emit (IntervalCleared key interval)) st
  = (add_events (map cleared intervals) st, Ok tt).
Proof.
  set (body := fun '(key, interval) => _).
  induction intervals as [|[key interval] intervals IH]; intros st; simpl.
  - by rewrite add_events_nil.
  - erewrite bind_Ok by reflexivity. rewrite IH. by rewrite add_events_app.
Qed.

Lemma cleanupAllSubscriptions_intervals st :
  pollingIntervals (cleanupAllSubscriptions st).1 = pollingIntervals st.
Proof.
  assert (Hloop : forall subscriptions st0,
    pollingIntervals
      (for_of subscriptions (fun '(providerId, cleanup) =>
         emit (CleanupFnInvoked providerId) ;; settle cleanup) st0).1
    = pollingIntervals st0).
  { set (body := fun '(providerId, cleanup) => _).
    induction subscriptions as [|[k c] subscriptions IH]; intros st0; [done|].
    cbn [for_of]. destruct c as [[]|e].
    - erewrite bind_Ok; cycle 1.
      { unfold body. erewrite bind_Ok by reflexivity. reflexivity. }
      by rewrite IH.
    - erewrite (bind_Throw _ _ st0 (add_events [CleanupFnInvoked k] st0) e);
        [done|].
      unfold body. erewrite bind_Ok by reflexivity. reflexivity. }
  unfold cleanupAllSubscriptions, try_catch.
  erewrite bind_Ok by reflexivity. cbn beta.
  specialize (Hloop (providerSubscriptions st) st).
  unfold mbind at 1, M_bind at 1.
  destruct (for_of _ _ st) as [st1 [[]|e]]; simpl in *; done.
Qed.

(** X28. [finalize] never throws and does not wait for the teardown of the
    realtime subscriptions.  When it returns, every polling timer has been
    cleared once, in the order of the map, and the map of timers is empty;
    of the stored cleanup functions only the first has been invoked,
    before the timers were cleared, and every subscription is still
    stored.  The cleanup functions after the first are invoked when the
    suspended teardown is resumed, that is after the timers were cleared;
    when they all return, the map of subscriptions is then emptied. *)
Theorem finalize_clears_timers st :
  finalize st
  = (with_intervals []
       (add_events (map cleared (pollingIntervals st))
          (cleanupAllSubscriptions_called st).1),
     Ok tt) /\
  pollingIntervals (finalize st).1 = [] /\
  (providerSubscriptions st = [] ->
   trace (finalize st).1 = trace st ++ map cleared (pollingIntervals st)) /\
  (forall providerId cleanup others,
     providerSubscriptions st = (providerId, cleanup) :: others ->
     trace (finalize st).1
     = trace st ++ CleanupFnInvoked providerId :: map cleared (pollingIntervals st) /\
     providerSubscriptions (finalize st).1 = providerSubscriptions st) /\
  (forall providerId others,
     providerSubscriptions st = (providerId, Ok tt) :: others ->
     Forall (fun entry => entry.2 = Ok tt) others ->
     cleanupAllSubscriptions_resumed 1 (finalize st).1
     = (with_subscriptions []
          (add_events (map cleanup_call others) (finalize st).1), Ok tt)).
Proof.
  assert (Hintervals : pollingIntervals (cleanupAllSubscriptions_called st).1
                       = pollingIntervals st).
  { unfold cleanupAllSubscriptions_called.
    by destruct (providerSubscriptions st) as [|[k [[]|e]] others]. }
  assert (Hrun : finalize st
            = (with_intervals []
                 (add_events (map cleared (pollingIntervals st))
                    (cleanupAllSubscriptions_called st).1), Ok tt)).
  { unfold finalize.
    erewrite bind_Ok by reflexivity.
    erewrite bind_Ok by reflexivity. cbn beta.
    erewrite bind_Ok by apply clear_loop.
    by rewrite Hintervals. }
  rewrite Hrun. split; [done|]. split; [done|]. split; [|split].
  - intros Hsubs. unfold cleanupAllSubscriptions_called. rewrite Hsubs. done.
  - intros providerId cleanup others Hsubs.
    unfold cleanupAllSubscriptions_called. rewrite Hsubs.
    destruct cleanup; simpl; by rewrite <- app_assoc.
  - intros providerId others Hsubs Hall.
    assert (Hstored : providerSubscriptions
                        (with_intervals []
                           (add_events (map cleared (pollingIntervals st))
                              (cleanupAllSubscriptions_called st).1))
                      = providerSubscriptions st).
    { unfold cleanupAllSubscriptions_called. by rewrite Hsubs. }
    cbn [fst].
    unfold cleanupAllSubscriptions_resumed, try_catch.
    erewrite bind_Ok by reflexivity. cbn beta. rewrite Hstored, Hsubs.
    cbn [drop]. rewrite drop_0.
    erewrite bind_Ok by (by apply cleanup_loop_all_return).
    reflexivity.
Qed.

Lemma finalize_clears_timers_witness :
  trace (finalize two_streams).1
  = [CleanupFnInvoked "apple-health";
     IntervalCleared "apple-health-sleep" 1; IntervalCleared "apple-health-illness" 2] /\
  trace (cleanupAllSubscriptions_resumed 1 (finalize two_streams).1).1
  = [CleanupFnInvoked "apple-health";
     IntervalCleared "apple-health-sleep" 1; IntervalCleared "apple-health-illness" 2;
     CleanupFnInvoked "google-health"].
Proof.
  split.
  - exact (proj1 (proj1 (proj2 (proj2 (proj2 (finalize_clears_timers two_streams))))
                    "apple-health" (Ok tt) [("google-health", Ok tt)] eq_refl)).
  - exact (f_equal (fun r => trace r.1)
             (proj2 (proj2 (proj2 (proj2 (finalize_clears_timers two_streams))))
                "apple-health" [("google-health", Ok tt)] eq_refl
                (List.Forall_cons _ ("google-health", Ok tt) [] eq_refl
                   (List.Forall_nil _)))).
Defined.

(* ================================================================= *)
(** * Further properties of the bulk consolidation *)

Lemma collectDataPoints_total metric startDate endDate ps : forall allDataPoints,
  (forall p, p ∈ ps -> exists data, getData p metric startDate endDate = Ok data) ->
  exists out, collectDataPoints ps metric startDate endDate allDataPoints = Ok out.
Proof.
  induction ps as [|p ps IH]; intros allDataPoints Hfetch; simpl; [by eexists|].
  destruct (Hfetch p) as [data ->]; [apply list_elem_of_here|].
  apply IH. intros q Hq. apply Hfetch. by apply list_elem_of_further.
Qed.

Lemma collectDataPoints_grows metric startDate endDate ps : forall allDataPoints out,
  collectDataPoints ps metric startDate endDate allDataPoints = Ok out ->
  (length allDataPoints <= length out)%nat.
Proof.
  induction ps as [|p ps IH]; intros allDataPoints out; simpl.
  - by intros [= <-].
  - destruct (getData p metric startDate endDate) as [data|e]; cycle 1.
    { by destruct (isTrackleError e). }
    intros Hout. apply IH in Hout.
    destruct (hasValidData metric data); [|done].
    rewrite length_app in Hout. lia.
Qed.

Lemma collectDataPoints_nil metric startDate endDate ps : forall allDataPoints,
  collectDataPoints ps metric startDate endDate allDataPoints = Ok [] ->
  forall p data, p ∈ ps ->
    getData p metric startDate endDate = Ok data -> value data = [].
Proof.
  induction ps as [|q ps IH]; intros allDataPoints Hout p data Hp Hdata;
    [inversion Hp|].
  simpl in Hout.
  destruct (getData q metric startDate endDate) as [dq|e] eqn:Hq; cycle 1.
  { by destruct (isTrackleError e). }
  apply elem_of_cons in Hp as [->|Hp]; [|by eapply IH].
  assert (data = dq) by congruence. subst dq.
  apply collectDataPoints_grows in Hout. simpl in Hout.
  unfold hasValidData in Hout. destruct (value data) as [|pt pts]; [done|].
  simpl in Hout. rewrite length_app in Hout. simpl in Hout. lia.
Qed.

Lemma mergeDataPoints_nil dataPoints prios :
  mergeDataPoints dataPoints prios = Ok [] -> dataPoints = [].
Proof.
  rewrite mergeDataPoints_unfold.
  destruct (array_sort byStart dataPoints) as [|point rest] eqn:Hsorted.
  - intros _.
    assert (Hperm : Permutation dataPoints (array_sort byStart dataPoints))
      by apply (array_sort_perm start).
    rewrite Hsorted in Hperm. by apply Permutation_nil_r in Hperm.
  - change (mergeLoop prios (point :: rest) [])
      with (mergeLoop prios rest [point]).
    intros Hloop. apply mergeLoop_submseteq in Hloop as [_ Hlen].
    simpl in Hlen. lia.
Qed.

(** X29. The bulk consolidation of a metric when every fetch succeeds.  It
    returns, and the merge inside cannot throw.  A stored sample has
    points, no two of which overlap, carries type [category] and the
    current time, and each of its points names as source one of the
    enabled providers of the metric, whatever source the provider had
    written.  Nothing is stored only when every fetched sample was
    empty. *)
Theorem consolidateMetric_outcome st metric startDate endDate now :
  (forall p, p ∈ getProvidersForMetric st metric ->
     exists data, getData p metric startDate endDate = Ok data) ->
  exists stored,
    consolidateMetric st metric startDate endDate now = Ok stored /\
    match stored with
    | Some s =>
        value s <> [] /\ type_ s = category /\ timestamp s = now /\
        non_overlapping (value s) /\
        forall point, point ∈ value s ->
          exists provider,
            provider ∈ getProvidersForMetric st metric /\
            source point = id provider
    | None =>
        forall p data, p ∈ getProvidersForMetric st metric ->
          getData p metric startDate endDate = Ok data -> value data = []
    end.
Proof.
  intros Hfetch. unfold consolidateMetric.
  set (ps := getProvidersForMetric st metric) in *.
  destruct (collectDataPoints_total metric startDate endDate ps [] Hfetch)
    as [collected Hcollect].
  rewrite Hcollect. simpl.
  assert (Hsrc : forall point, point ∈ collected ->
            exists provider, provider ∈ ps /\ source point = id provider).
  { intros point Hpoint.
    destruct (collectDataPoints_sources _ _ _ _ _ _ Hcollect point Hpoint)
      as [Hnil|(provider & Hin & Hid)]; [inversion Hnil|].
    by exists provider. }
  assert (Hperm : Permutation collected (array_sort byStart collected))
    by apply (array_sort_perm start).
  unfold mergeCollected.
  destruct (mergeDataPoints_readable (array_sort byStart collected) (priorityTable ps))
    as [merged Hmerged].
  { intros point Hpoint. rewrite <- Hperm in Hpoint.
    destruct (Hsrc point Hpoint) as (provider & Hin & Hid).
    apply priorityTable_readable. right. by exists provider. }
  rewrite Hmerged. simpl.
  destruct (decide (merged = [])) as [->|Hne].
  - eexists. split; [done|]. simpl.
    apply mergeDataPoints_nil in Hmerged.
    assert (collected = []).
    { rewrite Hmerged in Hperm. by apply Permutation_nil_r in Hperm. }
    subst collected. intros p data. by apply (collectDataPoints_nil _ _ _ _ _ Hcollect).
  - assert (Hlen : (0 <? length merged)%nat = true) by (by destruct merged).
    rewrite Hlen. eexists. split; [done|]. simpl.
    split; [done|]. split; [done|]. split; [done|].
    rewrite mergeDataPoints_unfold in Hmerged. split.
    + eapply mergeLoop_non_overlapping;
        [apply (array_sort_sorted start)|apply non_overlapping_nil| |exact Hmerged].
      intros e p He. inversion He.
    + intros pt Hpt.
      destruct (mergeLoop_elem_of _ _ _ _ Hmerged pt Hpt) as [H|H]; [inversion H|].
      assert (Hperm2 : Permutation (array_sort byStart collected)
                         (array_sort byStart (array_sort byStart collected)))
        by apply (array_sort_perm start).
      apply Hsrc. by rewrite Hperm, Hperm2.
Qed.

Lemma consolidateMetric_outcome_witness :
  (forall p, p ∈ getProvidersForMetric fitbit_enabled sleep ->
     exists data, getData p sleep 0 (hours 24) = Ok data) /\
  exists stored,
    consolidateMetric fitbit_enabled sleep 0 (hours 24) (hours 24) = Ok stored /\
    match stored with
    | Some s =>
        value s <> [] /\ type_ s = category /\ timestamp s = hours 24 /\
        non_overlapping (value s) /\
        forall point, point ∈ value s ->
          exists provider,
            provider ∈ getProvidersForMetric fitbit_enabled sleep /\
            source point = id provider
    | None =>
        forall p data, p ∈ getProvidersForMetric fitbit_enabled sleep ->
          getData p sleep 0 (hours 24) = Ok data -> value data = []
    end.
Proof.
  assert (H : forall p, p ∈ getProvidersForMetric fitbit_enabled sleep ->
                exists data, getData p sleep 0 (hours 24) = Ok data).
  { intros p Hp. apply list_elem_of_singleton in Hp as ->. by eexists. }
  split; [exact H|].
  exact (consolidateMetric_outcome fitbit_enabled sleep 0 (hours 24) (hours 24) H).
Defined.

Lemma healthData_set_spec metric s (h : HealthData) :
  NoDup h.*1 ->
  NoDup (healthData_set metric s h).*1 /\
  forall m' s',
    (m', s') ∈ healthData_set metric s h <->
    (m' = metric /\ s' = s) \/ (m' <> metric /\ (m', s') ∈ h).
Proof.
  induction h as [|[m0 s0] h IH]; intros Hnd.
  - split; [apply NoDup_singleton|]. intros m' s'. simpl.
    rewrite list_elem_of_singleton. split.
    + intros [= -> ->]. by left.
    + intros [[-> ->]|[_ H]]; [done|inversion H].
  - simpl in Hnd. apply NoDup_cons in Hnd as [Hm0 Hnd].
    destruct (IH Hnd) as [IHnd IHin]. simpl.
    destruct (decide (m0 = metric)) as [->|Hne].
    + split; [by apply NoDup_cons_2|]. intros m' s'.
      rewrite !elem_of_cons. split.
      * intros [[= -> ->]|Hin]; [by left|]. right. split; [|by right].
        intros ->. apply Hm0. apply list_elem_of_fmap. by exists (metric, s').
      * intros [[-> ->]|[Hne' [[= -> ->]|Hin]]]; [by left|done|by right].
    + split.
      * simpl. apply NoDup_cons_2; [|done]. intros Hin.
        apply list_elem_of_fmap in Hin as ([m1 s1] & Hm1 & Hin). simpl in Hm1. subst m1.
        apply IHin in Hin as [[-> _]|[_ Hin]]; [done|].
        apply Hm0. apply list_elem_of_fmap. by exists (m0, s1).
      * intros m' s'. rewrite !elem_of_cons, IHin. split.
        -- intros [[= -> ->]|[[-> ->]|[Hne' Hin]]]; [right|by left|right]; split; auto.
        -- intros [[-> ->]|[Hne' [[= -> ->]|Hin]]]; [right; by left|by left|].
           right. right. by split.
Qed.

Lemma consolidateLoop_entries st startDate endDate now metrics :
  forall seen (result_ data : HealthData),
  NoDup result_.*1 ->
  (forall m s, (m, s) ∈ result_ <->
     m ∈ seen /\ consolidateMetric st m startDate endDate now = Ok (Some s)) ->
  consolidateLoop st metrics startDate endDate now result_ = Ok data ->
  NoDup data.*1 /\
  forall m s, (m, s) ∈ data <->
    m ∈ seen ++ metrics /\ consolidateMetric st m startDate endDate now = Ok (Some s).
Proof.
  induction metrics as [|metric metrics IH]; intros seen result_ data Hnd Hinv; simpl.
  - intros [= <-]. rewrite app_nil_r. by split.
  - destruct (consolidateMetric st metric startDate endDate now)
      as [stored|e] eqn:Hmetric; [|done].
    simpl. intros Hloop.
    rewrite (cons_middle metric seen metrics), app_assoc.
    destruct stored as [s0|].
    + destruct (healthData_set_spec metric s0 result_ Hnd) as [Hnd' Hin'].
      apply (IH (seen ++ [metric]) _ data Hnd'); [|done].
      intros m s. rewrite Hin', Hinv, elem_of_app, list_elem_of_singleton. split.
      * intros [[-> ->]|[Hne [Hseen Hc]]]; [by split; [right|]|]. split; [by left|done].
      * intros [[Hseen| ->] Hc].
        -- destruct (decide (m = metric)) as [->|Hne]; [left|right; by split].
           split; [done|congruence].
        -- left. split; [done|congruence].
    + apply (IH (seen ++ [metric]) _ data Hnd); [|done].
      intros m s. rewrite Hinv, elem_of_app, list_elem_of_singleton. split.
      * intros [Hseen Hc]. split; [by left|done].
      * intros [[Hseen| ->] Hc]; [by split|congruence].
Qed.

(** X30. What a bulk consolidation returns holds exactly one entry for each
    requested metric whose consolidation stored a sample, with that sample,
    and nothing else: no metric appears twice, also when it was requested
    more than once, and a metric without points is absent. *)
Theorem consolidateHealthMetrics_entries st metrics startDate endDate now data :
  consolidateHealthMetrics st metrics startDate endDate now = Ok data ->
  NoDup data.*1 /\
  forall metric s,
    (metric, s) ∈ data <->
    metric ∈ metrics /\
    consolidateMetric st metric startDate endDate now = Ok (Some s).
Proof.
  intros Hdata.
  apply (consolidateLoop_entries st startDate endDate now metrics [] [] data);
    [apply NoDup_nil_2| |exact Hdata].
  intros m s. split; [intros H; inversion H|intros [H _]; inversion H].
Qed.

Lemma consolidateHealthMetrics_entries_witness :
  consolidateHealthMetrics one_enabled [sleep; sleep; stress] 0 (hours 24) (hours 24)
  = Ok [(sleep, mkSample [mkDataPoint (hours 0) (hours 4) "apple-health" (SleepDetail [])]
                  category (hours 24))] /\
  NoDup [(sleep, mkSample [mkDataPoint (hours 0) (hours 4) "apple-health" (SleepDetail [])]
                   category (hours 24))].*1.
Proof.
  assert (H : consolidateHealthMetrics one_enabled [sleep; sleep; stress]
                0 (hours 24) (hours 24)
              = Ok [(sleep, mkSample [mkDataPoint (hours 0) (hours 4) "apple-health"
                                        (SleepDetail [])] category (hours 24))])
    by reflexivity.
  split; [exact H|].
  exact (proj1 (consolidateHealthMetrics_entries _ _ _ _ _ _ H)).
Defined.

(** ** Sleep sessions of the Apple Health provider *)

Lemma latest_end_spec (stages : list SleepStage) : forall init,
  let latest := foldl (fun latestEnd stage =>
                  if stage_end stage >? latestEnd then stage_end stage else latestEnd)
                  init stages in
  init <= latest /\
  (forall stage, stage ∈ stages -> stage_end stage <= latest) /\
  (latest = init \/ exists stage, stage ∈ stages /\ stage_end stage = latest).
Proof.
  induction stages as [|s stages IH]; intros init; simpl.
  - split; [lia|]. split; [|by left].
    intros stage Hin. by apply elem_of_nil in Hin.
  - destruct (IH (if stage_end s >? init then stage_end s else init))
      as (Hle & Hall & Hatt).
    assert (Hs : init <= (if stage_end s >? init then stage_end s else init) /\
                 stage_end s <= (if stage_end s >? init then stage_end s else init))
      by (destruct (Z.gtb_spec (stage_end s) init); lia).
    split; [lia|]. split.
    + intros stage Hin. apply elem_of_cons in Hin as [->|Hin]; [lia|by apply Hall].
    + destruct Hatt as [Heq|(stage & Hin & Heq)].
      * destruct (Z.gtb_spec (stage_end s) init).
        -- right. exists s. split; [apply list_elem_of_here|done].
        -- by left.
      * right. exists stage. split; [by apply list_elem_of_further|done].
Qed.

Lemma addSleepSession_spec providerId sessions firstStage rest :
  exists p,
    addSleepSession providerId sessions (firstStage :: rest) (stage_start firstStage)
      = sessions ++ [p] /\
    session_of providerId p /\ session_stages p = firstStage :: rest.
Proof.
  eexists. split; [reflexivity|]. split; [|reflexivity].
  exists firstStage, rest. simpl.
  destruct (latest_end_spec (firstStage :: rest) (stage_end firstStage))
    as (Hle & Hall & Hatt).
  repeat split; try done.
  destruct Hatt as [Heq|Hatt]; [|done].
  exists firstStage. split; [apply list_elem_of_here|]. symmetry. exact Heq.
Qed.

Lemma chained_snoc stages prev stage :
  chained stages -> last stages = Some prev -> close prev stage ->
  chained (stages ++ [stage]).
Proof.
  induction stages as [|a [|b stages] IH]; intros Hch Hlast Hclose.
  - done.
  - simpl in *. injection Hlast as ->. done.
  - destruct Hch as [Hab Hch]. split; [done|].
    apply IH; [done| |done]. exact Hlast.
Qed.

Lemma gaps_between_snoc sessions p :
  gaps_between sessions ->
  (forall s, last sessions = Some s ->
     exists a b, last (session_stages s) = Some a /\
                 head (session_stages p) = Some b /\ ~ close a b) ->
  gaps_between (sessions ++ [p]).
Proof.
  intros Hgaps Hlast i s t Hs Ht.
  assert (Hlen : (S i < length (sessions ++ [p]))%nat)
    by (apply lookup_lt_is_Some; by eexists).
  rewrite length_app in Hlen. simpl in Hlen.
  destruct (decide (S i < length sessions)%nat) as [Hlt|Hge].
  - rewrite lookup_app_l in Hs by lia. rewrite lookup_app_l in Ht by lia.
    by apply (Hgaps i).
  - assert (Hi : S i = length sessions) by lia.
    rewrite lookup_app_l in Hs by lia.
    rewrite lookup_app_r in Ht by lia.
    replace (S i - length sessions)%nat with 0%nat in Ht by lia.
    injection Ht as <-. apply Hlast.
    rewrite last_lookup. rewrite <- Hi. simpl. exact Hs.
Qed.

Lemma sessionsLoop_spec providerId rest :
  forall previousStage currentStages sessions firstStage others,
  currentStages = firstStage :: others ->
  last currentStages = Some previousStage ->
  chained currentStages ->
  Forall (session_of providerId) sessions ->
  Forall (fun s => chained (session_stages s)) sessions ->
  gaps_between sessions ->
  (forall s, last sessions = Some s ->
     exists a, last (session_stages s) = Some a /\ ~ close a firstStage) ->
  let out := sessionsLoop providerId rest previousStage currentStages
               (stage_start firstStage) sessions in
  Forall (session_of providerId) out /\
  Forall (fun s => chained (session_stages s)) out /\
  gaps_between out /\
  concat (session_stages <$> out)
    = concat (session_stages <$> sessions) ++ currentStages ++ rest.
Proof.
  induction rest as [|currentStage rest IH];
    intros previousStage currentStages sessions firstStage others
           Hcur Hprev Hchained Hof Hch Hgaps Hlast; cbn [sessionsLoop].
  - subst currentStages.
    change (0 <? length (firstStage :: others))%nat with true. cbv iota.
    destruct (addSleepSession_spec providerId sessions firstStage others)
      as (p & Hadd & Hp & Hstages).
    rewrite Hadd.
    split; [apply Forall_app; split; [done|by apply Forall_singleton]|].
    split; [apply Forall_app; split; [done|]|].
    { apply Forall_singleton. by rewrite Hstages. }
    split.
    + apply gaps_between_snoc; [done|].
      intros s Hs. destruct (Hlast s Hs) as (a & Ha & Hfar).
      exists a, firstStage. by rewrite Hstages.
    + rewrite fmap_app, concat_app. simpl. rewrite Hstages.
      by rewrite !app_nil_r.
  - destruct (Z.leb_spec (stage_start currentStage - stage_end previousStage)
                (MAX_GAP_MINUTES * (1000 * 60))) as [Hclose|Hfar].
    + destruct (IH currentStage (currentStages ++ [currentStage]) sessions
                  firstStage (others ++ [currentStage]))
        as (H1 & H2 & H3 & H4); try done.
      * by subst currentStages.
      * by rewrite last_snoc.
      * by apply (chained_snoc _ previousStage).
      * repeat split; try done.
        rewrite H4. by rewrite <- (assoc_L (++) currentStages).
    + subst currentStages.
      change (0 <? length (firstStage :: others))%nat with true. cbv iota.
      destruct (addSleepSession_spec providerId sessions firstStage others)
        as (p & Hadd & Hp & Hstages).
      rewrite Hadd.
      destruct (IH currentStage [currentStage] (sessions ++ [p])
                  currentStage [])
        as (H1 & H2 & H3 & H4); try done.
      * apply Forall_app; split; [done|by apply Forall_singleton].
      * apply Forall_app; split; [done|].
        apply Forall_singleton. by rewrite Hstages.
      * apply gaps_between_snoc; [done|].
        intros s Hs. destruct (Hlast s Hs) as (a & Ha & Hgap).
        exists a, firstStage. by rewrite Hstages.
      * intros s Hs. rewrite last_snoc in Hs. injection Hs as <-.
        exists previousStage. rewrite Hstages. split; [done|].
        unfold close. lia.
      * repeat split; try done.
        rewrite H4, fmap_app, concat_app. simpl. rewrite Hstages.
        rewrite app_nil_r. by rewrite <- !(assoc_L (++)).
Qed.

Lemma createSleepSessions_facts providerId stages :
  let sessions := createSleepSessions providerId stages in
  Forall (session_of providerId) sessions /\
  Forall (fun s => chained (session_stages s)) sessions /\
  gaps_between sessions /\
  concat (session_stages <$> sessions) = stages.
Proof.
  destruct stages as [|firstStage rest]; simpl.
  - repeat split; try by constructor.
    intros i s t Hs. by rewrite lookup_nil in Hs.
  - destruct (sessionsLoop_spec providerId rest firstStage [firstStage] []
                firstStage []) as (H1 & H2 & H3 & H4); done.
Qed.

(** X2. The Apple provider's sleep sessions partition the stages they are
    built from: read one session after the other, the stages of the
    sessions are the given stages in the given order, so no stage is lost,
    repeated or moved.  Each session has at least one stage, starts when
    its first stage starts, ends at the latest end among its stages and
    names the provider as its source. *)
Theorem createSleepSessions_partition providerId stages :
  concat (session_stages <$> createSleepSessions providerId stages) = stages /\
  Forall (session_of providerId) (createSleepSessions providerId stages).
Proof.
  destruct (createSleepSessions_facts providerId stages) as (H1 & _ & _ & H4).
  by split.
Qed.

(** X15. The Apple provider cuts sleep sessions exactly at the gaps of
    more than two hours: within a session, every stage starts at most two
    hours after the stage before it ended; between two sessions that
    follow each other, the first stage of the later one starts more than
    two hours after the last stage of the earlier one ended. *)
Theorem createSleepSessions_gaps providerId stages :
  Forall (fun s => chained (session_stages s))
         (createSleepSessions providerId stages) /\
  gaps_between (createSleepSessions providerId stages).
Proof.
  destruct (createSleepSessions_facts providerId stages) as (_ & H2 & H3 & _).
  by split.
Qed.
